(** * Kernel node: registry views, consensus threshold, handshakes, sync checks

    A shallow embedding of [kernel/node.go].  Machine integers are [Z] with
    their wrap-around written out, Go maps are [gmap]s, fixed-size byte arrays
    ([crypto.Hash], [crypto.Key], [crypto.Signature]) are [vec byte n], and a
    Go [panic] is the [None] of an [option] result. *)

From Stdlib Require Import ZArith Lia List.
From Stdlib Require Import Strings.String Strings.Ascii Strings.Byte.
From Stdlib Require Structures.OrderedTypeEx.
From Stdlib Require Import Sorting.Sorted.
From stdpp Require Import base numbers option list vector gmap strings sorting.

Local Open Scope Z_scope.

(** ** Machine integers *)

Module U64.

Definition modulus : Z := 2 ^ 64.

(** Conversion of a mathematical integer to [uint64]. *)
Definition wrap (z : Z) : Z := z mod modulus.

Definition add (a b : Z) : Z := wrap (a + b).
Definition sub (a b : Z) : Z := wrap (a - b).
Definition mul (a b : Z) : Z := wrap (a * b).

(** [x] is a value of type [uint64]. *)
Definition ok (x : Z) : Prop := 0 <= x < modulus.

End U64.

Module I64.

Definition half : Z := 2 ^ 63.

(** Conversion of a mathematical integer to [int64] (two's complement). *)
Definition wrap (z : Z) : Z := (z + half) mod U64.modulus - half.

Definition sub (a b : Z) : Z := wrap (a - b).

Definition ok (x : Z) : Prop := - half <= x < half.

End I64.

(** ** Bytes and fixed-size arrays *)

#[global] Instance byte_eq_dec : EqDecision byte := Byte.byte_eq_dec.
#[global] Instance byte_countable : Countable byte :=
  inj_countable Byte.to_N Byte.of_N Byte.of_to_N.

(** [var a [n]byte; copy(a[:], src)]: the first [n] bytes of [src], the rest
    of the array keeps its zero value. *)
Fixpoint to_array (n : nat) (src : list byte) : vec byte n :=
  match n with
  | O => [#]
  | S n' =>
      match src with
      | [] => x00 ::: to_array n' []
      | b :: src' => b ::: to_array n' src'
      end
  end.

Arguments to_array : simpl never.

(** Copying an array into a fresh array gives the array back. *)
Lemma to_array_vec_to_list (n : nat) (v : vec byte n) :
  to_array n (vec_to_list v) = v.
Proof.
  induction v as [|b n v IH]; [reflexivity|].
  change (b ::: to_array n (vec_to_list v) = b ::: v). by rewrite IH.
Qed.

(** The keys of the Go maps are 32-byte arrays, enumerated through their
    list of bytes. *)
#[global] Instance array_countable (n : nat) : Countable (vec byte n) | 0 :=
  inj_countable' vec_to_list (to_array n) (to_array_vec_to_list n).

(** [s[lo:hi]] on a slice that is long enough. *)
Definition slice (lo hi : nat) (s : list byte) : list byte :=
  take (hi - lo) (drop lo s).

(** [crypto.Hash], [crypto.Key] are [[32]byte]; [crypto.Signature] is
    [[64]byte]. *)
Abbreviation Hash := (vec byte 32).
Abbreviation Key := (vec byte 32).
Abbreviation Signature := (vec byte 64).

(** [common.Address]. *)
Record Address := mkAddress {
  PrivateSpendKey : Key;
  PrivateViewKey : Key;
  PublicSpendKey : Key;
  PublicViewKey : Key
}.

(** ** Configuration constants (package [config], declared outside this file)

    The functions below take the constants as a record.  [SnapshotRoundGap]
    is a [uint64] number of nanoseconds, [KernelNodeAcceptPeriodMinimum] a
    [time.Duration], [KernelMinimumNodesCount] an [int]. *)

Record Config := mkConfig {
  SnapshotRoundGap : Z;
  SnapshotReferenceThreshold : Z;
  KernelNodeAcceptPeriodMinimum : Z;
  KernelMinimumNodesCount : Z
}.

Definition Minute : Z := 60 * 1000000000.
Definition Hour : Z := 60 * Minute.

(** The constants are representable in their Go types. *)
Record config_wf (cfg : Config) : Prop := {
  wf_gap : 0 <= SnapshotRoundGap cfg < U64.modulus;
  wf_ref : 0 <= SnapshotReferenceThreshold cfg < U64.modulus;
  wf_accept : 0 <= KernelNodeAcceptPeriodMinimum cfg < I64.half
}.

(** The two conditions [ConsensusThreshold] checks before it counts; when one
    fails the function panics. *)
Record config_sane (cfg : Config) : Prop := {
  sane_wf : config_wf cfg;
  sane_threshold :
    SnapshotReferenceThreshold cfg * SnapshotRoundGap cfg <= 3 * Minute;
  sane_accept : Hour <= KernelNodeAcceptPeriodMinimum cfg
}.

(** ** Data model *)

(** [CNode.State] holds one of the [common.NodeState...] constants. *)
Inductive NodeState :=
  | Pledging | Accepted | Removed | Cancelled | Resigning.

#[global] Instance NodeState_eq_dec : EqDecision NodeState.
Proof. solve_decision. Defined.

Record CNode := mkCNode {
  IdForNetwork : Hash;
  Signer : Address;
  Payee : Address;
  Transaction : Hash;
  Timestamp : Z;
  State : NodeState;
  ConsensusIndex : Z
}.

Record NodeStateSequence := mkNodeStateSequence {
  seqTimestamp : Z;
  NodesWithoutState : list CNode
}.

(** [p2p.SyncPoint], with the fields [BuildGraph] fills. *)
Record SyncPoint := mkSyncPoint {
  spNodeId : Hash;
  spHash : Hash;
  spNumber : Z;
  spPool : gmap string Z
}.

Record FinalRound := mkFinalRound {
  frNumber : Z;
  frStart : Z;
  frHash : Hash
}.

(** Modelled from the spec: the type [CacheRound] and its method [asFinal]
    are declared in another file of the package; the data model gives
    [cache_round{...}.as_final() -> {hash, start} | None], so a cache round is
    represented by its projection. *)
Record CacheRound := mkCacheRound {
  asFinal : option FinalRound
}.

Record ChainState := mkChainState {
  CacheRoundOf : option CacheRound;
  FinalRoundOf : FinalRound
}.

Record Chain := mkChain {
  ChainStateOf : option ChainState
}.

(** The fields of [Node] the functions below read.  A [nil] pointer stored in
    the sync-point map is the [None] value of an entry. *)
Record Node := mkNode {
  nodeIdForNetwork : Hash;
  nodeSigner : Address;
  isRelayer : bool;
  SyncPointsMap : gmap Hash (option SyncPoint);
  allNodesSortedWithState : list CNode;
  nodeStateSequences : list NodeStateSequence;
  acceptedNodeStateSequences : list NodeStateSequence;
  chain : Chain;
  genesisNodesMap : gmap Hash bool;
  networkId : Hash;
  Listener : string
}.

(** [m[k]] for a [map[crypto.Hash]bool]: [false] for a missing key. *)
Definition genesis_lookup (m : gmap Hash bool) (k : Hash) : bool :=
  default false (m !! k).

(** ** [NodesListWithoutState] *)

(** The loop [for i := len(sequences); i > 0; i--], as a scan of the reversed
    slice. *)
Fixpoint scan_sequences (threshold : Z) (rev_seqs : list NodeStateSequence)
  : list CNode :=
  match rev_seqs with
  | [] => []
  | s :: rest =>
      if seqTimestamp s <? threshold then NodesWithoutState s
      else scan_sequences threshold rest
  end.

Definition NodesListWithoutState (node : Node) (threshold : Z)
    (acceptedOnly : bool) : list CNode :=
  let sequences :=
    if acceptedOnly then acceptedNodeStateSequences node
    else nodeStateSequences node in
  scan_sequences threshold (rev sequences).

(** ** [ConsensusReady] *)

Definition ConsensusReady (cfg : Config) (node : Node) (cn : CNode)
    (timestamp : Z) : bool :=
  if negb (bool_decide (State cn = Accepted)) then false
  else if genesis_lookup (genesisNodesMap node) (IdForNetwork cn) then true
  else if U64.add (Timestamp cn)
            (U64.wrap (KernelNodeAcceptPeriodMinimum cfg)) <? timestamp
       then true
  else false.

(** ** [ConsensusThreshold] *)

(** One iteration of the loop over the node list; [None] is a panic. *)
Definition threshold_step (cfg : Config) (node : Node) (timestamp : Z)
    (final : bool) (consensusBase : Z) (cn : CNode) : option Z :=
  let threshold :=
    U64.mul (SnapshotReferenceThreshold cfg) (SnapshotRoundGap cfg) in
  if 3 * Minute <? threshold then None
  else
    match State cn with
    | Pledging =>
        if KernelNodeAcceptPeriodMinimum cfg <? Hour then None
        else
          let t := U64.sub (U64.wrap (KernelNodeAcceptPeriodMinimum cfg))
                     (U64.mul threshold 3) in
          if negb final && (U64.add (Timestamp cn) t <? timestamp)
          then Some (consensusBase + 1)
          else Some consensusBase
    | Accepted =>
        if genesis_lookup (genesisNodesMap node) (IdForNetwork cn)
           || (U64.add (Timestamp cn) threshold <? timestamp)
        then Some (consensusBase + 1)
        else Some consensusBase
    | _ => Some consensusBase
    end.

Fixpoint threshold_loop (cfg : Config) (node : Node) (timestamp : Z)
    (final : bool) (consensusBase : Z) (nodes : list CNode) : option Z :=
  match nodes with
  | [] => Some consensusBase
  | cn :: rest =>
      match threshold_step cfg node timestamp final consensusBase cn with
      | None => None
      | Some b => threshold_loop cfg node timestamp final b rest
      end
  end.

Definition ConsensusThreshold (cfg : Config) (node : Node) (timestamp : Z)
    (final : bool) : option Z :=
  match threshold_loop cfg node timestamp final 0
          (NodesListWithoutState node timestamp false) with
  | None => None
  | Some consensusBase =>
      if consensusBase <? KernelMinimumNodesCount cfg then Some 1000
      else Some (consensusBase * 2 ÷ 3 + 1)
  end.

(** ** [nodeSequenceWithoutState] *)

(** [hex.EncodeToString], which [crypto.Hash.String] returns for the 32 bytes
    of the hash.

    Modelled from the spec: the method [String] of [crypto.Hash] is declared
    in package [crypto]; the spec names it the hex-encoded id string. *)
Definition hex_digit (n : N) : ascii :=
  match n with
  | 0%N => "0" | 1%N => "1" | 2%N => "2" | 3%N => "3"
  | 4%N => "4" | 5%N => "5" | 6%N => "6" | 7%N => "7"
  | 8%N => "8" | 9%N => "9" | 10%N => "a" | 11%N => "b"
  | 12%N => "c" | 13%N => "d" | 14%N => "e" | _ => "f"
  end%char.

Definition hex_of_byte (b : byte) : list ascii :=
  [hex_digit (Byte.to_N b / 16); hex_digit (Byte.to_N b mod 16)].

Definition Hash_String (h : Hash) : string :=
  string_of_list_ascii (flat_map hex_of_byte (vec_to_list h)).

(** The first loop: the latest entry of every id, among the entries before
    [threshold]; the scan stops at the first entry at or after it. *)
Fixpoint collect_latest (threshold : Z) (all : list CNode)
    (filter : gmap Hash CNode) : gmap Hash CNode :=
  match all with
  | [] => filter
  | n :: rest =>
      if threshold <=? Timestamp n then filter
      else collect_latest threshold rest (<[IdForNetwork n := n]> filter)
  end.

(** The second loop, over the entries of the map in the order [entries] the
    [range] statement yields them: a fresh [CNode] per kept entry, whose
    [ConsensusIndex] has its zero value. *)
Fixpoint copy_nodes (acceptedOnly : bool) (entries : list CNode)
  : list CNode :=
  match entries with
  | [] => []
  | n :: rest =>
      if negb acceptedOnly || bool_decide (State n = Accepted)
      then mkCNode (IdForNetwork n) (Signer n) (Payee n) (Transaction n)
             (Timestamp n) (State n) 0
           :: copy_nodes acceptedOnly rest
      else copy_nodes acceptedOnly rest
  end.

(** The comparison function given to [sort.Slice]; Go compares strings byte
    by byte. *)
Definition less (a b : CNode) : bool :=
  if Timestamp a <? Timestamp b then true
  else if Timestamp b <? Timestamp a then false
  else String.ltb (Hash_String (IdForNetwork a)) (Hash_String (IdForNetwork b)).

(** [sort.Slice(nodes, less)].  The ids of the entries are the keys of a map,
    hence distinct, and [less] orders entries of distinct ids strictly: the
    sorted slice does not depend on the algorithm, here an insertion sort. *)
Fixpoint sort_insert (x : CNode) (l : list CNode) : list CNode :=
  match l with
  | [] => [x]
  | y :: l' => if less x y then x :: y :: l' else y :: sort_insert x l'
  end.

Fixpoint sort_Slice (l : list CNode) : list CNode :=
  match l with
  | [] => []
  | x :: l' => sort_insert x (sort_Slice l')
  end.

Definition is_active (cn : CNode) : bool :=
  match State cn with
  | Accepted | Pledging => true
  | _ => false
  end.

(** The last loop: every entry receives the current [index], which advances
    after an Accepted or Pledging entry. *)
Fixpoint assign_index (index : Z) (nodes : list CNode) : list CNode :=
  match nodes with
  | [] => []
  | cn :: rest =>
      mkCNode (IdForNetwork cn) (Signer cn) (Payee cn) (Transaction cn)
        (Timestamp cn) (State cn) index
      :: assign_index (if is_active cn then index + 1 else index) rest
  end.

(** The order in which [range filter] yields the entries is not specified:
    any enumeration of the map. *)
Definition range_order (filter : gmap Hash CNode) (entries : list CNode)
  : Prop :=
  entries ≡ₚ (map_to_list filter).*2.

(** [nodeSequenceWithoutState] for a given enumeration [entries] of the
    map. *)
Definition sequence_of_entries (acceptedOnly : bool) (entries : list CNode)
  : list CNode :=
  assign_index 0 (sort_Slice (copy_nodes acceptedOnly entries)).

Definition latest_entries (node : Node) (threshold : Z) : gmap Hash CNode :=
  collect_latest threshold (allNodesSortedWithState node) ∅.

Definition nodeSequenceWithoutState (node : Node) (threshold : Z)
    (acceptedOnly : bool) : list CNode :=
  sequence_of_entries acceptedOnly
    (map_to_list (latest_entries node threshold)).*2.

Definition buildNodeStateSequences (node : Node)
    (allNodes : list CNode) (acceptedOnly : bool) : list NodeStateSequence :=
  map (fun n =>
         mkNodeStateSequence (Timestamp n)
           (nodeSequenceWithoutState node (U64.add (Timestamp n) 1)
              acceptedOnly))
      allNodes.

(** The canonical order of the spec: timestamp ascending, ties broken by the
    hex string of the id. *)
Definition canonical_le (a b : CNode) : Prop :=
  Timestamp a < Timestamp b
  ∨ (Timestamp a = Timestamp b
     ∧ String.leb (Hash_String (IdForNetwork a))
         (Hash_String (IdForNetwork b)) = true).

(** ** Peer authentication *)

(** The primitives of packages [crypto] and [common] the handshakes call. *)
Class Crypto := {
  Blake3Hash : list byte -> Hash;
  Sign : Key -> Hash -> Signature;
  Verify : Key -> Hash -> Signature -> bool;
  Public : Key -> Key;
  DeterministicHashDerive : Key -> Key;
  AddressHash : Address -> Hash;
  ForNetwork : Hash -> Hash -> Hash
}.

(** What the handshake round trip relies on: a signature made with a private
    key verifies under its public key, and the hash of an address reads its
    two public keys only. *)
Class CryptoLaws (C : Crypto) : Prop := {
  verify_sign : forall (k : Key) (h : Hash), Verify (Public k) h (Sign k h) = true;
  address_hash_public : forall a b : Address,
    PublicSpendKey a = PublicSpendKey b ->
    PublicViewKey a = PublicViewKey b ->
    AddressHash a = AddressHash b
}.

(** [byte(v)] and [uint64(b)]. *)
Definition byte_of_Z (v : Z) : byte :=
  default x00 (Byte.of_N (Z.to_N (v mod 256))).

Definition Z_of_byte (b : byte) : Z := Z.of_N (Byte.to_N b).

(** Big-endian encoding on [n] bytes: the last byte is [byte(v)], the one
    before [byte(v >> 8)], and so on. *)
Fixpoint be_encode (n : nat) (v : Z) : list byte :=
  match n with
  | O => []
  | S n' => be_encode n' (v / 256) ++ [byte_of_Z v]
  end.

Definition be_decode (bs : list byte) : Z :=
  foldl (fun acc b => acc * 256 + Z_of_byte b) 0 bs.

(** [binary.BigEndian.PutUint64] on a fresh 8-byte slice, and
    [binary.BigEndian.Uint64]. *)
Definition PutUint64 (v : Z) : list byte := be_encode 8 v.
Definition Uint64 (bs : list byte) : Z := be_decode (take 8 bs).

(** [float64] values of integers.  Every [float64] the timeout check handles
    is the conversion of a 64-bit integer or the difference of two such
    conversions: an integer below [2^65] in magnitude, kept here as that
    integer.  [round] is the rounding to a 53-bit significand, to nearest,
    ties to even. *)
Module F64.

Definition round (x : Z) : Z :=
  let a := Z.abs x in
  if a <? 2 ^ 53 then x
  else
    let k := Z.log2 a - 52 in
    let q := a / 2 ^ k in
    let r := a mod 2 ^ k in
    let h := 2 ^ (k - 1) in
    let q' := if (h <? r) || ((r =? h) && Z.odd q) then q + 1 else q in
    Z.sgn x * (q' * 2 ^ k).

Definition of_int (x : Z) : Z := round x.
Definition sub (a b : Z) : Z := round (a - b).
Definition abs (a : Z) : Z := Z.abs a.

End F64.

(** [zero Key]: the value of a private key field never written. *)
Definition zero_key : Key := to_array 32 [].

(** The address [loadNodeConfig] derives from the configured private spend
    key. *)
Definition loadNodeConfig_address `{Crypto} (signer : Key) : Address :=
  let privateSpend := signer in
  let publicSpend := Public privateSpend in
  let privateView := DeterministicHashDerive publicSpend in
  let publicView := Public privateView in
  mkAddress privateSpend privateView publicSpend publicView.

(** [BuildAuthenticationMessage]; [nowUnix] is [clock.Now().Unix()]. *)
Definition BuildAuthenticationMessage `{Crypto} (node : Node) (nowUnix : Z)
    (relayerId : Hash) : list byte :=
  let data := PutUint64 (U64.wrap nowUnix) in
  let data := data ++ vec_to_list relayerId in
  let data := data ++ vec_to_list (PublicSpendKey (nodeSigner node)) in
  let data := data ++ [if isRelayer node then x01 else x00] in
  let dh := Blake3Hash data in
  let sig := Sign (PrivateSpendKey (nodeSigner node)) dh in
  data ++ vec_to_list sig.

(** [p2p.AuthToken]. *)
Record AuthToken := mkAuthToken {
  PeerId : Hash;
  tokenTimestamp : Z;
  IsRelayer : bool;
  Data : list byte
}.

(** The five [return nil, fmt.Errorf(...)] of [AuthenticateAs], in the order
    of the source, under the names the spec gives them. *)
Inductive AuthError :=
  | MalformedMessage | Timeout | WrongRecipient | SelfPeer | BadSignature.

(** The timeout condition of [AuthenticateAs]. *)
Definition auth_timed_out (nowUnix ts timeoutSec : Z) : bool :=
  (0 <? timeoutSec)
  && (F64.of_int timeoutSec
        <? F64.abs (F64.sub (F64.of_int nowUnix) (F64.of_int ts))).

(** The signer the verifiers rebuild from a public spend key. *)
Definition received_signer `{Crypto} (publicSpend : Key) : Address :=
  mkAddress zero_key zero_key publicSpend
    (Public (DeterministicHashDerive publicSpend)).

Definition AuthenticateAs `{Crypto} (node : Node) (nowUnix : Z)
    (recipientId : Hash) (msg : list byte) (timeoutSec : Z)
  : AuthError + AuthToken :=
  if negb (length msg =? 137)%nat then inl MalformedMessage
  else
    let ts := Uint64 (slice 0 8 msg) in
    if auth_timed_out nowUnix ts timeoutSec then inl Timeout
    else
      let relayerId : Hash := to_array 32 (slice 8 40 msg) in
      if negb (bool_decide (relayerId = recipientId)) then inl WrongRecipient
      else
        let signer := received_signer (to_array 32 (slice 40 72 msg)) in
        let peerId := ForNetwork (AddressHash signer) (networkId node) in
        if bool_decide (peerId = recipientId) then inl SelfPeer
        else
          let sig : Signature := to_array 64 (slice 73 137 msg) in
          let mh := Blake3Hash (slice 0 73 msg) in
          if negb (Verify (PublicSpendKey signer) mh sig) then inl BadSignature
          else
            inr (mkAuthToken peerId ts
                   (bool_decide (msg !! 72%nat = Some x01)) msg).

(** ** Legacy handshake *)

Definition BuildLegacyAuthenticationMessage `{Crypto} (node : Node)
    (nowUnix : Z) : list byte :=
  let data := PutUint64 (U64.wrap nowUnix) in
  let data := data ++ vec_to_list (PublicSpendKey (nodeSigner node)) in
  let dh := Blake3Hash data in
  let sig := Sign (PrivateSpendKey (nodeSigner node)) dh in
  let data := data ++ vec_to_list sig in
  data ++ list_byte_of_string (Listener node).

(** [GetAcceptedOrPledgingNode]; [nowNano] is
    [uint64(clock.Now().UnixNano())]. *)
Definition GetAcceptedOrPledgingNode (node : Node) (nowNano : Z) (id : Hash)
  : option CNode :=
  List.find
    (fun cn => bool_decide (IdForNetwork cn = id)
               && (bool_decide (State cn = Accepted)
                   || bool_decide (State cn = Pledging)))
    (NodesListWithoutState node nowNano false).

(** The return sites of [Authenticate] that carry an error. *)
Inductive LegacyAuthError :=
  | LegacyMalformed | LegacyTimeout | LegacySelfPeer | LegacySignerMismatch
  | LegacyBadSignature.

(** The timeout condition of [Authenticate]:
    [clock.Now().Unix()-int64(ts) > 3] on [int64]. *)
Definition legacy_timed_out (nowUnix ts : Z) : bool :=
  3 <? I64.sub nowUnix (I64.wrap ts).

Definition Authenticate `{Crypto} (node : Node) (nowUnix nowNano : Z)
    (msg : list byte) : LegacyAuthError + (Hash * string) :=
  if (length msg <? 8 + 32 + 64)%nat then inl LegacyMalformed
  else
    let ts := Uint64 (slice 0 8 msg) in
    if legacy_timed_out nowUnix ts then inl LegacyTimeout
    else
      let signer := received_signer (to_array 32 (slice 8 40 msg)) in
      let peerId := ForNetwork (AddressHash signer) (networkId node) in
      if bool_decide (peerId = nodeIdForNetwork node) then inl LegacySelfPeer
      else
        let peer := GetAcceptedOrPledgingNode node nowNano peerId in
        if match peer with
           | Some p =>
               negb (bool_decide (AddressHash (Signer p) = AddressHash signer))
           | None => false
           end
        then inl LegacySignerMismatch
        else
          let sig : Signature := to_array 64 (slice 40 104 msg) in
          let mh := Blake3Hash (slice 0 40 msg) in
          if negb (Verify (PublicSpendKey signer) mh sig)
          then inl LegacyBadSignature
          else inr (peerId, string_of_list_byte (drop 104 msg)).

(** ** Catch-up and broadcast checks *)

(** The wall clock as the checks see it: [clk k] is the value of
    [uint64(clock.Now().UnixNano())] at the [k]-th reading made during one
    call (counted from 0). *)
Definition Clock := nat -> Z.

(** [spm[id]]: [nil] for a missing key and for a stored [nil]. *)
Definition sync_lookup (spm : gmap Hash (option SyncPoint)) (id : Hash)
  : option SyncPoint :=
  mjoin (spm !! id).

(** The loop of [CheckBroadcastedToP2PPeers]. *)
Fixpoint broadcast_loop (spm : gmap Hash (option SyncPoint)) (final : Z)
    (count : Z) (nodes : list CNode) : Z :=
  match nodes with
  | [] => count
  | cn :: rest =>
      match sync_lookup spm (IdForNetwork cn) with
      | None => broadcast_loop spm final count rest
      | Some remote =>
          if final <=? U64.add (spNumber remote) 1
          then broadcast_loop spm final (count + 1) rest
          else broadcast_loop spm final count rest
      end
  end.

Definition CheckBroadcastedToP2PPeers (cfg : Config) (node : Node)
    (clk : Clock) : option bool :=
  let spm := SyncPointsMap node in
  if bool_decide (size spm = 0%nat) then Some false
  else
    match ChainStateOf (chain node) with
    | None => Some false
    | Some st =>
        let final := frNumber (FinalRoundOf st) in
        match ConsensusThreshold cfg node (clk 0%nat) false with
        | None => None
        | Some threshold =>
            let nodes := NodesListWithoutState node (clk 1%nat) true in
            let count := broadcast_loop spm final 1 nodes in
            Some (threshold <=? count)
        end
    end.

(** The loop of [CheckCatchUpWithP2PPeers]: [None] is one of its
    [return false], [Some updated] its normal end; [k] counts the readings of
    the clock made so far. *)
Fixpoint catchup_loop (cfg : Config) (spm : gmap Hash (option SyncPoint))
    (cache : option CacheRound) (final : Z) (clk : Clock) (k : nat)
    (updated : Z) (nodes : list CNode) : option Z :=
  match nodes with
  | [] => Some updated
  | cn :: rest =>
      match sync_lookup spm (IdForNetwork cn) with
      | None => catchup_loop cfg spm cache final clk k updated rest
      | Some remote =>
          let updated := updated + 1 in
          if spNumber remote <=? final
          then catchup_loop cfg spm cache final clk k updated rest
          else if U64.add final 1 <? spNumber remote then None
          else
            match cache with
            | None => None
            | Some c =>
                match asFinal c with
                | None => None
                | Some cf =>
                    if negb (bool_decide (frHash cf = spHash remote))
                    then None
                    else
                      let now := clk k in
                      if now <? U64.add (frStart cf)
                                  (U64.mul (SnapshotRoundGap cfg) 100)
                      then None
                      else
                        catchup_loop cfg spm cache final clk (S k)
                          updated rest
                end
            end
      end
  end.

Definition CheckCatchUpWithP2PPeers (cfg : Config) (node : Node)
    (clk : Clock) : option bool :=
  let spm := SyncPointsMap node in
  if bool_decide (size spm = 0%nat) then Some false
  else
    match ChainStateOf (chain node) with
    | None => Some false
    | Some st =>
        match ConsensusThreshold cfg node (clk 0%nat) false with
        | None => None
        | Some threshold =>
            let cache := CacheRoundOf st in
            let final := frNumber (FinalRoundOf st) in
            let nodes := NodesListWithoutState node (clk 1%nat) true in
            match catchup_loop cfg spm cache final clk 2 1 nodes with
            | None => Some false
            | Some updated => Some (threshold <=? updated)
            end
        end
    end.

(** ** Graph pusher *)

(** What happens around the goroutine of [sendGraphToConcensusNodes]: the
    ticker delivers a tick, at which the clock reads [now], or the node-wide
    channel [done] is closed. *)
Inductive PusherEvent :=
  | TickDelivered (now : Z)
  | DoneClosed.

(** What an observer sees: a call of [Peer.SendGraphMessage], or the closing
    of [done]. *)
Inductive PusherObs :=
  | SendGraphMessage (id : Hash)
  | DoneObserved.

(** The goroutine is either inside its [for] loop, blocked on
    [<-graphTicker.C], or has returned. *)
Inductive PusherState := PusherBlocked | PusherReturned.

(** One pass of the loop body: a message to every node of the accepted list,
    then the receive on the ticker channel. *)
Definition push_round (node : Node) (now : Z) : list PusherObs :=
  map (fun cn => SendGraphMessage (IdForNetwork cn))
      (NodesListWithoutState node now true).

(** The reaction of the goroutine to an event.  The loop has no [return] and
    no [break], and its only receive is on the ticker channel: a tick starts
    the next pass, the closing of [done] is not received by anything. *)
Definition pusher_step (node : Node) (st : PusherState) (ev : PusherEvent)
  : PusherState * list PusherObs :=
  match st, ev with
  | PusherReturned, TickDelivered _ => (PusherReturned, [])
  | PusherReturned, DoneClosed => (PusherReturned, [DoneObserved])
  | PusherBlocked, TickDelivered now => (PusherBlocked, push_round node now)
  | PusherBlocked, DoneClosed => (PusherBlocked, [DoneObserved])
  end.

Fixpoint pusher_run (node : Node) (st : PusherState)
    (evs : list PusherEvent) : PusherState * list PusherObs :=
  match evs with
  | [] => (st, [])
  | ev :: rest =>
      let '(st1, obs1) := pusher_step node st ev in
      let '(st2, obs2) := pusher_run node st1 rest in
      (st2, obs1 ++ obs2)
  end.

(** [sendGraphToConcensusNodes] started at clock reading [now0] and followed
    through the events [evs]: the first pass, then one step per event. *)
Definition sendGraphToConcensusNodes (node : Node) (now0 : Z)
    (evs : list PusherEvent) : PusherState * list PusherObs :=
  let '(st, obs) := pusher_run node PusherBlocked evs in
  (st, push_round node now0 ++ obs).

(** The sends an observer sees after [done] was closed. *)
Fixpoint sends_after_done (obs : list PusherObs) : list PusherObs :=
  match obs with
  | [] => []
  | DoneObserved :: rest =>
      List.filter (fun o => match o with SendGraphMessage _ => true
                                    | DoneObserved => false end) rest
  | SendGraphMessage _ :: rest => sends_after_done rest
  end.

(** ** The other readers of the node lists *)

(** [PledgingNode]: the last node of the list, when it is Pledging. *)
Definition PledgingNode (node : Node) (timestamp : Z) : option CNode :=
  let nodes := NodesListWithoutState node timestamp false in
  if (length nodes =? 0)%nat then None
  else
    match last nodes with
    | Some cn => if bool_decide (State cn = Pledging) then Some cn else None
    | None => None
    end.

Definition GetRemovedOrCancelledNode (node : Node) (id : Hash)
    (timestamp : Z) : option CNode :=
  List.find
    (fun cn => bool_decide (IdForNetwork cn = id)
               && (bool_decide (State cn = Removed)
                   || bool_decide (State cn = Cancelled)))
    (NodesListWithoutState node timestamp false).

(** [ReadAllNodesWithoutState]; [nowNano] is
    [uint64(clock.Now().UnixNano())]. *)
Definition ReadAllNodesWithoutState (node : Node) (nowNano : Z) : list Hash :=
  map IdForNetwork (NodesListWithoutState node nowNano false).

(** ** [LoadConsensusNodes] *)

(** The fields of a [common.Node] read from the store. *)
Record StoreNode := mkStoreNode {
  snSigner : Address;
  snPayee : Address;
  snTransaction : Hash;
  snTimestamp : Z;
  snState : NodeState
}.

(** [sort.Slice] with the comparison [less], for any element type. *)
Fixpoint sort_insert_by {A : Type} (less : A -> A -> bool) (x : A)
    (l : list A) : list A :=
  match l with
  | [] => [x]
  | y :: l' =>
      if less x y then x :: y :: l' else y :: sort_insert_by less x l'
  end.

Fixpoint sort_Slice_by {A : Type} (less : A -> A -> bool) (l : list A)
  : list A :=
  match l with
  | [] => []
  | x :: l' => sort_insert_by less x (sort_Slice_by less l')
  end.

(** The comparison of [LoadConsensusNodes]; [idFor] is the method
    [IdForNetwork] of [common.Node], declared in package [common]. *)
Definition less_store (idFor : StoreNode -> Hash -> Hash) (networkId : Hash)
    (a b : StoreNode) : bool :=
  if snTimestamp a <? snTimestamp b then true
  else if snTimestamp b <? snTimestamp a then false
  else String.ltb (Hash_String (idFor a networkId))
         (Hash_String (idFor b networkId)).

Definition cnode_of_store (idFor : StoreNode -> Hash -> Hash)
    (networkId : Hash) (n : StoreNode) : CNode :=
  mkCNode (idFor n networkId) (snSigner n) (snPayee n) (snTransaction n)
    (snTimestamp n) (snState n) 0.

(** [LoadConsensusNodes]; [readAllNodes] is [persistStore.ReadAllNodes] and
    [nowNano] is [uint64(clock.Now().UnixNano())]. *)
Definition LoadConsensusNodes (idFor : StoreNode -> Hash -> Hash)
    (readAllNodes : Z -> bool -> list StoreNode) (node : Node) (nowNano : Z)
  : Node :=
  let threshold := U64.mul nowNano 2 in
  let nodes := readAllNodes threshold true in
  let nodes := sort_Slice_by (less_store idFor (networkId node)) nodes in
  let cnodes := map (cnode_of_store idFor (networkId node)) nodes in
  let node1 :=
    mkNode (nodeIdForNetwork node) (nodeSigner node) (isRelayer node)
      (SyncPointsMap node) cnodes (nodeStateSequences node)
      (acceptedNodeStateSequences node) (chain node) (genesisNodesMap node)
      (networkId node) (Listener node) in
  let node2 :=
    mkNode (nodeIdForNetwork node) (nodeSigner node) (isRelayer node)
      (SyncPointsMap node) cnodes (buildNodeStateSequences node1 cnodes false)
      (acceptedNodeStateSequences node) (chain node) (genesisNodesMap node)
      (networkId node) (Listener node) in
  mkNode (nodeIdForNetwork node) (nodeSigner node) (isRelayer node)
    (SyncPointsMap node) cnodes (buildNodeStateSequences node1 cnodes false)
    (buildNodeStateSequences node2 cnodes true) (chain node)
    (genesisNodesMap node) (networkId node) (Listener node).

(** ** Sync-point maps *)

(** [syncMap.Set]: one assignment under the lock. *)
Definition syncMap_Set (m : gmap Hash (option SyncPoint)) (k : Hash)
    (p : option SyncPoint) : gmap Hash (option SyncPoint) :=
  <[k := p]> m.

(** [syncMap.Map]: a fresh map, filled entry by entry in the order [entries]
    in which the [range] loop yields the entries of the map. *)
Definition syncMap_copy (entries : list (Hash * option SyncPoint))
  : gmap Hash (option SyncPoint) :=
  foldl (fun m kv => <[kv.1 := kv.2]> m) ∅ entries.

Definition syncMap_Map (m : gmap Hash (option SyncPoint))
  : gmap Hash (option SyncPoint) :=
  syncMap_copy (map_to_list m).

(** The assignment [node.SyncPointsMap = spm]. *)
Definition set_SyncPointsMap (node : Node)
    (spm : gmap Hash (option SyncPoint)) : Node :=
  mkNode (nodeIdForNetwork node) (nodeSigner node) (isRelayer node) spm
    (allNodesSortedWithState node) (nodeStateSequences node)
    (acceptedNodeStateSequences node) (chain node) (genesisNodesMap node)
    (networkId node) (Listener node).

(** The loop of [UpdateSyncPoint] over [points]; a [nil] point panics at
    [p.NodeId] ([None]). *)
Fixpoint update_points (self peerId : Hash)
    (m : gmap Hash (option SyncPoint)) (points : list (option SyncPoint))
  : option (gmap Hash (option SyncPoint)) :=
  match points with
  | [] => Some m
  | None :: _ => None
  | Some p :: rest =>
      update_points self peerId
        (if bool_decide (spNodeId p = self)
         then syncMap_Set m peerId (Some p) else m)
        rest
  end.

(** [UpdateSyncPoint]; [syncPoints] is the map behind [node.SyncPoints], and
    the result holds its new content and the node with the new snapshot. *)
Definition UpdateSyncPoint (node : Node)
    (syncPoints : gmap Hash (option SyncPoint)) (peerId : Hash)
    (points : list (option SyncPoint))
  : option (gmap Hash (option SyncPoint) * Node) :=
  match update_points (nodeIdForNetwork node) peerId syncPoints points with
  | None => None
  | Some m => Some (m, set_SyncPointsMap node (syncMap_Map m))
  end.

(** ** [BuildGraph] *)

(** The fields of a [Chain] that [BuildGraph] reads. *)
Record ChainEntry := mkChainEntry {
  ChainId : Hash;
  chainState : option ChainState;
  FinalIndex : Z;
  FinalCount : Z
}.

(** The loop of [BuildGraph] over the chains in the order [chains] in which
    the [range] loop yields them: a chain without state is skipped. *)
Fixpoint BuildGraph_from (chains : list ChainEntry) : list SyncPoint :=
  match chains with
  | [] => []
  | c :: rest =>
      match chainState c with
      | None => BuildGraph_from rest
      | Some st =>
          let f := FinalRoundOf st in
          mkSyncPoint (ChainId c) (frHash f) (frNumber f)
            (<["index" := FinalIndex c]> (<["count" := FinalCount c]> ∅))
          :: BuildGraph_from rest
      end
  end.

Definition BuildGraph (chains : gmap Hash ChainEntry) : list SyncPoint :=
  BuildGraph_from (map_to_list chains).*2.

(** ** The checks of the legacy transport *)

(** [network.SyncPoint], with the fields [BuildLegacyGraph] fills. *)
Record LegacySyncPoint := mkLegacySyncPoint {
  lspNodeId : Hash;
  lspHash : Hash;
  lspNumber : Z;
  lspPool : gmap string Z
}.

Definition legacy_lookup (spm : gmap Hash (option LegacySyncPoint))
    (id : Hash) : option LegacySyncPoint :=
  mjoin (spm !! id).

(** The loop of [CheckBroadcastedToLegacyPeers]. *)
Fixpoint legacy_broadcast_loop (spm : gmap Hash (option LegacySyncPoint))
    (final : Z) (count : Z) (nodes : list CNode) : Z :=
  match nodes with
  | [] => count
  | cn :: rest =>
      match legacy_lookup spm (IdForNetwork cn) with
      | None => legacy_broadcast_loop spm final count rest
      | Some remote =>
          if final <=? U64.add (lspNumber remote) 1
          then legacy_broadcast_loop spm final (count + 1) rest
          else legacy_broadcast_loop spm final count rest
      end
  end.

(** [CheckBroadcastedToLegacyPeers]; [spm] is [node.LegacySyncPointsMap]. *)
Definition CheckBroadcastedToLegacyPeers (cfg : Config) (node : Node)
    (spm : gmap Hash (option LegacySyncPoint)) (clk : Clock) : option bool :=
  if bool_decide (size spm = 0%nat) then Some false
  else
    match ChainStateOf (chain node) with
    | None => Some false
    | Some st =>
        let final := frNumber (FinalRoundOf st) in
        match ConsensusThreshold cfg node (clk 0%nat) false with
        | None => None
        | Some threshold =>
            let nodes := NodesListWithoutState node (clk 1%nat) true in
            let count := legacy_broadcast_loop spm final 1 nodes in
            Some (threshold <=? count)
        end
    end.

(** The loop of [CheckCatchUpWithLegacyPeers]. *)
Fixpoint legacy_catchup_loop (cfg : Config)
    (spm : gmap Hash (option LegacySyncPoint))
    (cache : option CacheRound) (final : Z) (clk : Clock) (k : nat)
    (updated : Z) (nodes : list CNode) : option Z :=
  match nodes with
  | [] => Some updated
  | cn :: rest =>
      match legacy_lookup spm (IdForNetwork cn) with
      | None => legacy_catchup_loop cfg spm cache final clk k updated rest
      | Some remote =>
          let updated := updated + 1 in
          if lspNumber remote <=? final
          then legacy_catchup_loop cfg spm cache final clk k updated rest
          else if U64.add final 1 <? lspNumber remote then None
          else
            match cache with
            | None => None
            | Some c =>
                match asFinal c with
                | None => None
                | Some cf =>
                    if negb (bool_decide (frHash cf = lspHash remote))
                    then None
                    else
                      let now := clk k in
                      if now <? U64.add (frStart cf)
                                  (U64.mul (SnapshotRoundGap cfg) 100)
                      then None
                      else
                        legacy_catchup_loop cfg spm cache final clk (S k)
                          updated rest
                end
            end
      end
  end.

Definition CheckCatchUpWithLegacyPeers (cfg : Config) (node : Node)
    (spm : gmap Hash (option LegacySyncPoint)) (clk : Clock) : option bool :=
  if bool_decide (size spm = 0%nat) then Some false
  else
    match ChainStateOf (chain node) with
    | None => Some false
    | Some st =>
        match ConsensusThreshold cfg node (clk 0%nat) false with
        | None => None
        | Some threshold =>
            let cache := CacheRoundOf st in
            let final := frNumber (FinalRoundOf st) in
            let nodes := NodesListWithoutState node (clk 1%nat) true in
            match legacy_catchup_loop cfg spm cache final clk 2 1 nodes with
            | None => Some false
            | Some updated => Some (threshold <=? updated)
            end
        end
    end.

(** [CheckBroadcastedToPeers] and [CheckCatchUpWithPeers]: the legacy check
    runs only when the first one returned false; [clk] gives the readings of
    the clock during the first call, [clk2] during the second. *)
Definition CheckBroadcastedToPeers (cfg : Config) (node : Node)
    (legacy : gmap Hash (option LegacySyncPoint)) (clk clk2 : Clock)
  : option bool :=
  match CheckBroadcastedToP2PPeers cfg node clk with
  | None => None
  | Some true => Some true
  | Some false => CheckBroadcastedToLegacyPeers cfg node legacy clk2
  end.

Definition CheckCatchUpWithPeers (cfg : Config) (node : Node)
    (legacy : gmap Hash (option LegacySyncPoint)) (clk clk2 : Clock)
  : option bool :=
  match CheckCatchUpWithP2PPeers cfg node clk with
  | None => None
  | Some true => Some true
  | Some false => CheckCatchUpWithLegacyPeers cfg node legacy clk2
  end.

(** ** [addRelayersFromConfig] *)

(** [strings.Split(s, "@")]: the pieces of [s] between the occurrences of
    the separator, one more than there are occurrences. *)
Fixpoint Split_at (s : string) : list string :=
  match s with
  | EmptyString => [EmptyString]
  | String c rest =>
      if Ascii.eqb c "@" then EmptyString :: Split_at rest
      else
        match Split_at rest with
        | p :: ps => String c p :: ps
        | [] => [String c EmptyString]
        end
  end.

(** The two errors of [addRelayersFromConfig], with the seed they name. *)
Inductive RelayerError :=
  | InvalidPeer (s : string)
  | InvalidPeerId (s : string).

(** The loop of [addRelayersFromConfig] over the seeds.  [started] holds the
    calls [go node.Peer.ConnectRelayer(nid, parts[1])] made so far, in the
    order of the [go] statements; [HashFromString] is
    [crypto.HashFromString], [None] for its error. *)
Fixpoint connect_seeds (HashFromString : string -> option Hash) (self : Hash)
    (seeds : list string) (started : list (Hash * string))
  : list (Hash * string) * option RelayerError :=
  match seeds with
  | [] => (started, None)
  | s :: rest =>
      match Split_at s with
      | [id; addr] =>
          match HashFromString id with
          | None => (started, Some (InvalidPeerId s))
          | Some nid =>
              if bool_decide (nid = self)
              then connect_seeds HashFromString self rest started
              else connect_seeds HashFromString self rest
                     (started ++ [(nid, addr)])
          end
      | _ => (started, Some (InvalidPeer s))
      end
  end.

(** [addRelayersFromConfig] over the seeds of the configuration: the
    connections started and the error returned ([None] for [nil]). *)
Definition addRelayersFromConfig (HashFromString : string -> option Hash)
    (node : Node) (seeds : list string)
  : list (Hash * string) * option RelayerError :=
  connect_seeds HashFromString (nodeIdForNetwork node) seeds [].

(** ** [UpdateNeighbors] and [PingNeighborsFromConfig] *)

(** The loop both functions run over the addresses: the calls
    [node.LegacyPeer.PingNeighbor] made, in order. *)
Fixpoint ping_neighbors (listener : string) (neighbors : list string)
    (pinged : list string) : list string :=
  match neighbors with
  | [] => pinged
  | s :: rest =>
      if String.eqb s listener then ping_neighbors listener rest pinged
      else ping_neighbors listener rest (pinged ++ [s])
  end.

Definition UpdateNeighbors (node : Node) (neighbors : list string)
  : list string :=
  ping_neighbors (Listener node) neighbors [].

(** ** [UpdateLegacySyncPoint] *)

Definition legacySyncMap_Set (m : gmap Hash (option LegacySyncPoint))
    (k : Hash) (p : option LegacySyncPoint)
  : gmap Hash (option LegacySyncPoint) :=
  <[k := p]> m.

Definition legacySyncMap_Map (m : gmap Hash (option LegacySyncPoint))
  : gmap Hash (option LegacySyncPoint) :=
  foldl (fun c kv => <[kv.1 := kv.2]> c) ∅ (map_to_list m).

(** The loop of [UpdateLegacySyncPoint]; a [nil] point panics at
    [p.NodeId] ([None]). *)
Fixpoint update_legacy_points (self peerId : Hash)
    (m : gmap Hash (option LegacySyncPoint))
    (points : list (option LegacySyncPoint))
  : option (gmap Hash (option LegacySyncPoint)) :=
  match points with
  | [] => Some m
  | None :: _ => None
  | Some p :: rest =>
      update_legacy_points self peerId
        (if bool_decide (lspNodeId p = self)
         then legacySyncMap_Set m peerId (Some p) else m)
        rest
  end.

(** [UpdateLegacySyncPoint]: the new content of [node.LegacySyncPoints] and
    the snapshot stored as [node.LegacySyncPointsMap]. *)
Definition UpdateLegacySyncPoint (node : Node)
    (legacyPoints : gmap Hash (option LegacySyncPoint)) (peerId : Hash)
    (points : list (option LegacySyncPoint))
  : option (gmap Hash (option LegacySyncPoint)
            * gmap Hash (option LegacySyncPoint)) :=
  match update_legacy_points (nodeIdForNetwork node) peerId legacyPoints
          points with
  | None => None
  | Some m => Some (m, legacySyncMap_Map m)
  end.


(** ** The statements of the spec, for comparison with the code *)

(** A node the threshold counts, in the words of the spec; the sum with the
    timestamp is the [uint64] sum of the code. *)
Definition counted (cfg : Config) (node : Node) (T : Z) (final : bool)
    (cn : CNode) : bool :=
  match State cn with
  | Pledging =>
      negb final
      && (U64.add (Timestamp cn)
            (KernelNodeAcceptPeriodMinimum cfg
             - 3 * (SnapshotReferenceThreshold cfg * SnapshotRoundGap cfg))
          <? T)
  | Accepted =>
      genesis_lookup (genesisNodesMap node) (IdForNetwork cn)
      || (U64.add (Timestamp cn)
            (SnapshotReferenceThreshold cfg * SnapshotRoundGap cfg) <? T)
  | _ => false
  end.

(** The same with the sum taken in the integers. *)
Definition counted_exact (cfg : Config) (node : Node) (T : Z) (final : bool)
    (cn : CNode) : bool :=
  match State cn with
  | Pledging =>
      negb final
      && (Timestamp cn
          + (KernelNodeAcceptPeriodMinimum cfg
             - 3 * (SnapshotReferenceThreshold cfg * SnapshotRoundGap cfg))
          <? T)
  | Accepted =>
      genesis_lookup (genesisNodesMap node) (IdForNetwork cn)
      || (Timestamp cn
          + SnapshotReferenceThreshold cfg * SnapshotRoundGap cfg <? T)
  | _ => false
  end.

(** The sentinel below the minimum node count, the supermajority above. *)
Definition quorum (cfg : Config) (base : Z) : Z :=
  if base <? KernelMinimumNodesCount cfg then 1000 else base * 2 / 3 + 1.

(** The clock does not move during the call: every reading is [now]. *)
Definition frozen (clk : Clock) (now : Z) : Prop := forall k, clk k = now.

(** The sync points stored for this node are values of type [uint64]. *)
Definition sync_points_ok (spm : gmap Hash (option SyncPoint)) : Prop :=
  forall id remote, sync_lookup spm id = Some remote -> U64.ok (spNumber remote).

Definition has_remote (spm : gmap Hash (option SyncPoint)) (cn : CNode)
  : bool :=
  match sync_lookup spm (IdForNetwork cn) with
  | Some _ => true
  | None => false
  end.

(** A node the broadcast check counts, in the words of the spec; the sum is
    the [uint64] sum of the code in the first definition, the sum of the
    integers in the second. *)
Definition broadcast_counted (spm : gmap Hash (option SyncPoint)) (final : Z)
    (cn : CNode) : bool :=
  match sync_lookup spm (IdForNetwork cn) with
  | Some remote => final <=? U64.add (spNumber remote) 1
  | None => false
  end.

Definition broadcast_counted_exact (spm : gmap Hash (option SyncPoint))
    (final : Z) (cn : CNode) : bool :=
  match sync_lookup spm (IdForNetwork cn) with
  | Some remote => final <=? spNumber remote + 1
  | None => false
  end.

(** What the catch-up check asks of the local cache round when a remote is
    exactly one round ahead: the cache round exists, its projection exists,
    the hashes agree and the round is old enough. *)
Definition ahead_ok (cfg : Config) (cache : option CacheRound) (now : Z)
    (remote : SyncPoint) : bool :=
  match cache with
  | Some c =>
      match asFinal c with
      | Some cf =>
          bool_decide (frHash cf = spHash remote)
          && (U64.add (frStart cf) (U64.mul (SnapshotRoundGap cfg) 100) <=? now)
      | None => false
      end
  | None => false
  end.

Definition ahead_ok_exact (cfg : Config) (cache : option CacheRound) (now : Z)
    (remote : SyncPoint) : bool :=
  match cache with
  | Some c =>
      match asFinal c with
      | Some cf =>
          bool_decide (frHash cf = spHash remote)
          && (frStart cf + SnapshotRoundGap cfg * 100 <=? now)
      | None => false
      end
  | None => false
  end.

(** A node that does not make the catch-up check return false. *)
Definition catchup_node_ok (ahead : SyncPoint -> bool)
    (spm : gmap Hash (option SyncPoint)) (final : Z) (cn : CNode) : bool :=
  match sync_lookup spm (IdForNetwork cn) with
  | None => true
  | Some remote =>
      if final + 1 <? spNumber remote then false
      else if spNumber remote =? final + 1 then ahead remote
      else true
  end.

Definition count_nodes (f : CNode -> bool) (nodes : list CNode) : Z :=
  Z.of_nat (length (List.filter f nodes)).

(** Two entries that differ in [ConsensusIndex] at most. *)
Definition same_entry (a b : CNode) : Prop :=
  IdForNetwork a = IdForNetwork b /\ Signer a = Signer b /\ Payee a = Payee b
  /\ Transaction a = Transaction b /\ Timestamp a = Timestamp b
  /\ State a = State b.

(** The value of a hex digit, and of the two digits of a byte. *)
Definition hex_value (c : ascii) : N :=
  match c with
  | "0" => 0 | "1" => 1 | "2" => 2 | "3" => 3 | "4" => 4 | "5" => 5
  | "6" => 6 | "7" => 7 | "8" => 8 | "9" => 9 | "a" => 10 | "b" => 11
  | "c" => 12 | "d" => 13 | "e" => 14 | "f" => 15 | _ => 0
  end%char%N.

Definition hex_pair_value (cs : list ascii) : N :=
  match cs with
  | [h; l] => hex_value h * 16 + hex_value l
  | _ => 0
  end%N.

(** Every entry of the map sits under its own id. *)
Definition keyed_by_id (filter : gmap Hash CNode) : Prop :=
  forall k n, filter !! k = Some n -> IdForNetwork n = k.

(** The registry is in ascending order of timestamps. *)
Definition registry_sorted (all : list CNode) : Prop :=
  StronglySorted (fun a b => Timestamp a <= Timestamp b) all.

(** The state of the registry after [LoadConsensusNodes]: timestamps are
    [uint64] values in ascending order and the two sequence arrays are those
    [buildNodeStateSequences] derives from the registry. *)
Record node_loaded (node : Node) : Prop := {
  loaded_sorted : registry_sorted (allNodesSortedWithState node);
  loaded_ok : Forall (fun n => U64.ok (Timestamp n))
                (allNodesSortedWithState node);
  loaded_all :
    nodeStateSequences node
    = buildNodeStateSequences node (allNodesSortedWithState node) false;
  loaded_accepted :
    acceptedNodeStateSequences node
    = buildNodeStateSequences node (allNodesSortedWithState node) true
}.

(** The entries the first loop of [nodeSequenceWithoutState] writes, in
    order: one insertion per entry. *)
Definition insert_all (m : gmap Hash CNode) (l : list CNode)
  : gmap Hash CNode :=
  foldl (fun m n => <[IdForNetwork n := n]> m) m l.

Definition is_accepted (cn : CNode) : bool := bool_decide (State cn = Accepted).

(** The condition under which the loop of [ConsensusThreshold] panics at a
    node of the list. *)
Definition threshold_panics (cfg : Config) (nodes : list CNode) : Prop :=
  nodes <> []
  /\ (3 * Minute
      < U64.mul (SnapshotReferenceThreshold cfg) (SnapshotRoundGap cfg)
      \/ (KernelNodeAcceptPeriodMinimum cfg < Hour
          /\ exists cn, cn ∈ nodes /\ State cn = Pledging)).

(** A legacy sync point read as one of the current transport. *)
Definition as_sync_point (p : LegacySyncPoint) : SyncPoint :=
  mkSyncPoint (lspNodeId p) (lspHash p) (lspNumber p) (lspPool p).

Definition as_sync_points (spm : gmap Hash (option LegacySyncPoint))
  : gmap Hash (option SyncPoint) :=
  (fun p : option LegacySyncPoint => as_sync_point <$> p) <$> spm.

(** The sync point [BuildGraph] makes of a chain. *)
Definition graph_point (c : ChainEntry) : option SyncPoint :=
  match chainState c with
  | None => None
  | Some st =>
      Some (mkSyncPoint (ChainId c) (frHash (FinalRoundOf st))
              (frNumber (FinalRoundOf st))
              (<["index" := FinalIndex c]> (<["count" := FinalCount c]> ∅)))
  end.

(** The points of a list that describe the chain of [self]. *)
Definition points_of (self : Hash) (points : list SyncPoint)
  : list SyncPoint :=
  List.filter (fun p => bool_decide (spNodeId p = self)) points.

(** The map after [UpdateSyncPoint] has gone through [points]: the last
    point about [self], if there is one, is stored under the peer. *)
Definition updated_points (self peerId : Hash)
    (m : gmap Hash (option SyncPoint)) (points : list SyncPoint)
  : gmap Hash (option SyncPoint) :=
  match last (points_of self points) with
  | Some p => <[peerId := Some p]> m
  | None => m
  end.

(** Every chain of the map sits under its own id. *)
Definition chains_keyed (chains : gmap Hash ChainEntry) : Prop :=
  forall k c, chains !! k = Some c -> ChainId c = k.

(** The separator occurs in the string. *)
Fixpoint has_at (s : string) : bool :=
  match s with
  | EmptyString => false
  | String c rest => Ascii.eqb c "@" || has_at rest
  end.

(** A seed of the form [id@addr] with a single separator. *)
Definition seed_parts (s id addr : string) : Prop :=
  s = String.append id (String "@" addr)
  /\ has_at id = false /\ has_at addr = false.

(** A seed that [addRelayersFromConfig] reads as the peer [nid] at
    [addr]. *)
Definition seed_reads (HashFromString : string -> option Hash) (s : string)
    (peer : Hash * string) : Prop :=
  exists id, seed_parts s id peer.2 /\ HashFromString id = Some peer.1.

(** The error [addRelayersFromConfig] has for a seed it cannot read. *)
Definition seed_error (HashFromString : string -> option Hash) (s : string)
    (e : RelayerError) : Prop :=
  ((forall id addr, ~ seed_parts s id addr) /\ e = InvalidPeer s)
  \/ (exists id addr, seed_parts s id addr /\ HashFromString id = None
                      /\ e = InvalidPeerId s).

(** The connections to start for the peers read: all but the node's own
    id. *)
Definition other_peers (self : Hash) (peers : list (Hash * string))
  : list (Hash * string) :=
  List.filter (fun p => negb (bool_decide (p.1 = self))) peers.


(** The chain has a state. *)
Definition has_state (c : ChainEntry) : bool :=
  match chainState c with
  | Some _ => true
  | None => false
  end.

(** A Pledging node the threshold counts when [final] is not set. *)
Definition pledging_counted (cfg : Config) (node : Node) (T : Z)
    (cn : CNode) : bool :=
  bool_decide (State cn = Pledging) && counted cfg node T false cn.

(** A node at which the catch-up check reads the clock: its remote is one
    round ahead and the projection of the cache round carries the remote's
    hash. *)
Definition reads_clock (spm : gmap Hash (option SyncPoint))
    (cache : option CacheRound) (final : Z) (cn : CNode) : bool :=
  match sync_lookup spm (IdForNetwork cn) with
  | Some remote =>
      (spNumber remote =? final + 1)
      && match cache with
         | Some c =>
             match asFinal c with
             | Some cf => bool_decide (frHash cf = spHash remote)
             | None => false
             end
         | None => false
         end
  | None => false
  end.

(** The reading of the clock that serves the age test of the node at
    position [i] of the list: two readings precede the loop and each earlier
    node that reads the clock takes one. *)
Definition reading_at (spm : gmap Hash (option SyncPoint))
    (cache : option CacheRound) (final : Z) (nodes : list CNode) (i : nat)
  : nat :=
  2 + length (List.filter (reads_clock spm cache final) (take i nodes)).

(** ** Sample data *)

(** Constants of the size the network runs with: rounds of three seconds,
    ten rounds of references, twelve hours before a node signs, seven nodes
    at least. *)
Definition sample_config : Config :=
  mkConfig (3 * 1000000000) 10 (12 * Hour) 7.

Definition sample_hash (b : byte) : Hash := to_array 32 [b].

Definition sample_address (b : byte) : Address :=
  mkAddress zero_key zero_key (sample_hash b) (sample_hash b).

Definition sample_cnode (b : byte) (ts : Z) (st : NodeState) : CNode :=
  mkCNode (sample_hash b) (sample_address b) (sample_address b)
    (sample_hash b) ts st 0.

(** A node whose registry is [all], with the two sequence arrays
    [LoadConsensusNodes] derives from it. *)
Definition node_of_registry (all : list CNode) (genesis : gmap Hash bool)
    (spm : gmap Hash (option SyncPoint)) (st : option ChainState) : Node :=
  let bare :=
    mkNode (sample_hash x00) (sample_address x00) false spm all [] []
      (mkChain st) genesis (sample_hash xff) "" in
  mkNode (sample_hash x00) (sample_address x00) false spm all
    (buildNodeStateSequences bare all false)
    (buildNodeStateSequences bare all true)
    (mkChain st) genesis (sample_hash xff) "".

(** A registry with a node that was accepted and a node that pledged, was
    accepted and was removed. *)
Definition registry_with_removed : list CNode :=
  [ sample_cnode x01 1 Accepted;
    sample_cnode x02 2 Pledging;
    sample_cnode x02 3 Accepted;
    sample_cnode x02 4 Removed ].

Definition node_with_removed : Node :=
  node_of_registry registry_with_removed ∅ ∅ None.

(** Stand-ins for the primitives, to run the handshakes on examples: the
    public key of a key is the key, a signature is the hash followed by the
    key. *)
Definition toy_crypto : Crypto := {|
  Blake3Hash data := to_array 32 data;
  Sign k h := to_array 64 (vec_to_list h ++ vec_to_list k);
  Verify pub h sig :=
    bool_decide (sig = to_array 64 (vec_to_list h ++ vec_to_list pub));
  Public k := k;
  DeterministicHashDerive k := k;
  AddressHash a := PublicSpendKey a;
  ForNetwork h _ := h
|}.

(** A node configured with the private spend key [sample_hash x07], on the
    network [sample_hash xff]. *)
Definition sample_signer : Address :=
  @loadNodeConfig_address toy_crypto (sample_hash x07).

Definition sample_auth_node : Node :=
  mkNode
    (@ForNetwork toy_crypto (@AddressHash toy_crypto sample_signer)
       (sample_hash xff))
    sample_signer true ∅ [] [] [] (mkChain None) ∅ (sample_hash xff)
    "203.0.113.7:7239".

(** Unix seconds of an arbitrary day in 2023. *)
Definition sample_now : Z := 1700000000.

(** A legacy message whose timestamp has all 64 bits set, followed by a zero
    key and a zero signature. *)
Definition far_future_legacy_message : list byte :=
  replicate 8 xff ++ replicate 96 x00.

(** Seven genesis nodes accepted at timestamp 1 and a node that pledged at
    timestamp 100. *)
Definition genesis_bytes : list byte := [x01; x02; x03; x04; x05; x06; x07].

Definition sample_registry : list CNode :=
  map (fun b => sample_cnode b 1 Accepted) genesis_bytes
  ++ [sample_cnode x08 100 Pledging].

Definition sample_genesis : gmap Hash bool :=
  list_to_map (map (fun b => (sample_hash b, true)) genesis_bytes).

(** Nanoseconds of the same day in 2023. *)
Definition sample_now_nano : Z := 1700000000 * 1000000000.

(** The local chain is at round 100; its cache round started two hundred
    round gaps ago and projects to the hash [sample_hash x64]. *)
Definition sample_chain_state : ChainState :=
  mkChainState
    (Some (mkCacheRound
             (Some (mkFinalRound 101
                      (sample_now_nano - 200 * (3 * 1000000000))
                      (sample_hash x64)))))
    (mkFinalRound 100 (sample_now_nano - 300 * (3 * 1000000000))
       (sample_hash x63)).

(** Every genesis node reported round 101 with the hash of the cache
    round. *)
Definition sample_sync_points : gmap Hash (option SyncPoint) :=
  list_to_map
    (map (fun b => (sample_hash b,
                    Some (mkSyncPoint (sample_hash x00) (sample_hash x64)
                            101 ∅)))
         genesis_bytes).

Definition sample_network : Node :=
  node_of_registry sample_registry sample_genesis sample_sync_points
    (Some sample_chain_state).

Definition frozen_clock (now : Z) : Clock := fun _ => now.

(** A second node, which verifies the handshakes of [sample_auth_node]. *)
Definition sample_verifier : Node :=
  mkNode (sample_hash x09) (sample_address x09) false ∅ [] [] []
    (mkChain None) ∅ (sample_hash xff) "".

(** The records of a store, out of order: a node removed at timestamp 30
    after it was accepted at 20, and a node accepted at 10. *)
Definition sample_store : list StoreNode :=
  [ mkStoreNode (sample_address x02) (sample_address x02) (sample_hash x02)
      30 Removed;
    mkStoreNode (sample_address x01) (sample_address x01) (sample_hash x01)
      10 Accepted;
    mkStoreNode (sample_address x02) (sample_address x02) (sample_hash x02)
      20 Accepted ].

Definition sample_readAllNodes : Z -> bool -> list StoreNode :=
  fun _ _ => sample_store.

(** The id of a record under the stand-in primitives: its public spend
    key. *)
Definition sample_idFor : StoreNode -> Hash -> Hash :=
  fun n _ => PublicSpendKey (snSigner n).

(** A registry of two nodes at a time when neither check can reach the
    threshold. *)
Definition sample_small_network : Node :=
  node_of_registry registry_with_removed sample_genesis sample_sync_points
    (Some sample_chain_state).

(** The chains of two nodes: the node's own, at round 100, and one without
    state. *)
Definition sample_chains : gmap Hash ChainEntry :=
  <[sample_hash x00 :=
      mkChainEntry (sample_hash x00) (Some sample_chain_state) 5 9]>
    (<[sample_hash x01 := mkChainEntry (sample_hash x01) None 0 0]> ∅).

(** A stand-in for [crypto.HashFromString] that knows two names. *)
Definition sample_HashFromString (s : string) : option Hash :=
  if String.eqb s "self" then Some (sample_hash x00)
  else if String.eqb s "peer" then Some (sample_hash x01)
  else None.

Definition sample_seeds : list string :=
  ["self@10.0.0.1:7239"; "peer@10.0.0.2:7239"]%string.

Definition sample_peers : list (Hash * string) :=
  [(sample_hash x00, "10.0.0.1:7239"); (sample_hash x01, "10.0.0.2:7239")]%string.


(** A clock that advances by one nanosecond at every reading. *)
Definition ticking_clock (now : Z) : Clock := fun k => now + Z.of_nat k.

(** Every genesis node reported the last round number a [uint64] holds. *)
Definition wrapped_sync_points : gmap Hash (option SyncPoint) :=
  list_to_map
    (map (fun b => (sample_hash b,
                    Some (mkSyncPoint (sample_hash x00) (sample_hash x64)
                            (U64.modulus - 1) ∅)))
         genesis_bytes).

Definition wrapped_network : Node :=
  node_of_registry sample_registry sample_genesis wrapped_sync_points
    (Some sample_chain_state).

(** * Properties *)

(** ** Machine integers *)

Lemma U64_wrap_ok z : U64.ok (U64.wrap z).
Proof. unfold U64.ok, U64.wrap, U64.modulus. apply Z.mod_pos_bound. reflexivity. Qed.

Lemma U64_wrap_small z : U64.ok z -> U64.wrap z = z.
Proof. unfold U64.ok, U64.wrap. intros Hz. apply Z.mod_small. exact Hz. Qed.

Lemma U64_add_small a b : 0 <= a + b < U64.modulus -> U64.add a b = a + b.
Proof. intros Hab. apply U64_wrap_small. exact Hab. Qed.

Lemma U64_sub_small a b : 0 <= a - b < U64.modulus -> U64.sub a b = a - b.
Proof. intros Hab. apply U64_wrap_small. exact Hab. Qed.

Lemma U64_mul_small a b : 0 <= a * b < U64.modulus -> U64.mul a b = a * b.
Proof. intros Hab. apply U64_wrap_small. exact Hab. Qed.

Lemma U64_add_wrap_r a b : U64.add a (U64.wrap b) = U64.add a b.
Proof. unfold U64.add, U64.wrap. apply Zplus_mod_idemp_r. Qed.

Lemma I64_wrap_small z : I64.ok z -> I64.wrap z = z.
Proof.
  unfold I64.ok, I64.wrap, I64.half, U64.modulus. intros Hz.
  rewrite Z.mod_small; lia.
Qed.

Lemma I64_wrap_high z :
  I64.half <= z < U64.modulus -> I64.wrap z = z - U64.modulus.
Proof.
  unfold I64.wrap, I64.half, U64.modulus. intros Hz.
  replace (z + 2 ^ 63) with ((z - 2 ^ 63) + 1 * 2 ^ 64) by lia.
  rewrite Z.mod_add by lia. rewrite Z.mod_small; lia.
Qed.

(** ** Readiness *)

(** [ConsensusReady] as one equivalence, in the arithmetic of the code. *)
Lemma ConsensusReady_true_iff cfg node cn T :
  ConsensusReady cfg node cn T = true
  <-> State cn = Accepted
      /\ (genesis_lookup (genesisNodesMap node) (IdForNetwork cn) = true
          \/ U64.add (Timestamp cn) (KernelNodeAcceptPeriodMinimum cfg) < T).
Proof.
  unfold ConsensusReady. rewrite U64_add_wrap_r.
  case_bool_decide as Hst; simpl.
  - destruct (genesis_lookup _ _); [intuition|].
    destruct (Z.ltb_spec (U64.add (Timestamp cn)
                            (KernelNodeAcceptPeriodMinimum cfg)) T);
      intuition; try discriminate; lia.
  - split; [discriminate | intros [? _]; contradiction].
Qed.

(** C4.  [ConsensusReady cn T] is false for a node that is not Accepted, true
    for an Accepted genesis node, and for an Accepted node outside the
    genesis set true exactly when [cn.Timestamp +
    KernelNodeAcceptPeriodMinimum < T]: false at [T = cn.Timestamp +
    KernelNodeAcceptPeriodMinimum], true one nanosecond later.  The sum is the
    [uint64] sum of the code, which is the sum of the integers as long as it
    is representable. *)
Theorem ConsensusReady_spec (cfg : Config) (node : Node) (cn : CNode) (T : Z) :
  let K := KernelNodeAcceptPeriodMinimum cfg in
  let genesis := genesis_lookup (genesisNodesMap node) (IdForNetwork cn) in
  (State cn <> Accepted -> ConsensusReady cfg node cn T = false)
  /\ (State cn = Accepted -> genesis = true ->
      ConsensusReady cfg node cn T = true)
  /\ (State cn = Accepted -> genesis = false ->
      (ConsensusReady cfg node cn T = true
       <-> U64.add (Timestamp cn) K < T))
  /\ (State cn = Accepted -> genesis = false ->
      0 <= Timestamp cn -> 0 <= K -> Timestamp cn + K + 1 < U64.modulus ->
      (ConsensusReady cfg node cn T = true <-> Timestamp cn + K < T)
      /\ ConsensusReady cfg node cn (Timestamp cn + K) = false
      /\ ConsensusReady cfg node cn (Timestamp cn + K + 1) = true).
Proof.
  intros K genesis. repeat split.
  - intros Hst. apply not_true_is_false. rewrite ConsensusReady_true_iff.
    intros [? _]. contradiction.
  - intros Hst Hg. apply ConsensusReady_true_iff. auto.
  - rewrite ConsensusReady_true_iff. intros [_ [Hg | Hlt]]; [|exact Hlt].
    fold genesis in Hg. congruence.
  - intros Hlt. apply ConsensusReady_true_iff. auto.
  - rewrite ConsensusReady_true_iff. intros [_ [Hg | Hlt]].
    + fold genesis in Hg. congruence.
    + fold K in Hlt. rewrite U64_add_small in Hlt by lia. exact Hlt.
  - intros Hlt. apply ConsensusReady_true_iff. split; [assumption|].
    right. fold K. rewrite U64_add_small by lia. exact Hlt.
  - apply not_true_is_false. rewrite ConsensusReady_true_iff.
    intros [_ [Hg | Hlt]].
    + fold genesis in Hg. congruence.
    + fold K in Hlt. rewrite U64_add_small in Hlt by lia. lia.
  - apply ConsensusReady_true_iff. split; [assumption|].
    right. fold K. rewrite U64_add_small by lia. lia.
Qed.

(** ** Threshold *)

Section Threshold.

Variable cfg : Config.
Hypothesis sane : config_sane cfg.

Let K := KernelNodeAcceptPeriodMinimum cfg.
Let gap := SnapshotReferenceThreshold cfg * SnapshotRoundGap cfg.

Lemma gap_bounds : 0 <= gap <= 3 * Minute.
Proof.
  destruct sane as [[[Hg _] [Hr _] _] Hle _]. subst gap. split; [|exact Hle].
  apply Z.mul_nonneg_nonneg; assumption.
Qed.

Lemma accept_bounds : Hour <= K < I64.half.
Proof. destruct sane as [[_ _ [_ Hk]] _ Hh]. subst K. split; assumption. Qed.

Lemma threshold_value :
  U64.mul (SnapshotReferenceThreshold cfg) (SnapshotRoundGap cfg) = gap.
Proof.
  pose proof gap_bounds as Hb. apply U64_mul_small. fold gap.
  unfold U64.modulus, Minute in *. lia.
Qed.

Lemma pledge_period_value :
  U64.sub (U64.wrap K) (U64.mul gap 3) = K - 3 * gap.
Proof.
  pose proof gap_bounds as Hb. pose proof accept_bounds as Hk.
  unfold I64.half, Hour, Minute in *.
  rewrite U64_wrap_small by (unfold U64.ok, U64.modulus; lia).
  rewrite U64_mul_small by (unfold U64.modulus; lia).
  rewrite U64_sub_small by (unfold U64.modulus; lia). lia.
Qed.

(** With constants that pass the two checks, an iteration never panics and
    adds one exactly for a counted node. *)
Lemma threshold_step_counted node T final base cn :
  threshold_step cfg node T final base cn
  = Some (if counted cfg node T final cn then base + 1 else base).
Proof.
  unfold threshold_step, counted. rewrite threshold_value.
  pose proof gap_bounds as Hb. pose proof accept_bounds as Hk.
  destruct (Z.ltb_spec (3 * Minute) gap) as [Hbad|_]; [lia|].
  destruct (State cn); try reflexivity.
  - fold K. destruct (Z.ltb_spec K Hour) as [Hbad|_]; [lia|].
    rewrite pledge_period_value. fold gap.
    destruct (negb final && _); reflexivity.
  - fold gap. destruct (_ || _); reflexivity.
Qed.

Lemma threshold_loop_counted node T final nodes : forall base,
  threshold_loop cfg node T final base nodes
  = Some (base + Z.of_nat (length (List.filter (counted cfg node T final) nodes))).
Proof.
  induction nodes as [|cn rest IH]; intros base; simpl.
  - f_equal. lia.
  - rewrite threshold_step_counted, IH.
    destruct (counted cfg node T final cn); simpl; f_equal; lia.
Qed.

(** No overflow: the two readings of the counting rule agree. *)
Lemma counted_exact_eq node T final cn :
  0 <= Timestamp cn -> Timestamp cn + K < U64.modulus ->
  counted cfg node T final cn = counted_exact cfg node T final cn.
Proof.
  intros H0 Hlt. pose proof gap_bounds as Hb. pose proof accept_bounds as Hk.
  unfold counted, counted_exact. fold K gap.
  unfold Hour, Minute in *.
  destruct (State cn); try reflexivity;
    rewrite U64_add_small by lia; reflexivity.
Qed.

Lemma filter_counted_exact node T final nodes :
  (forall cn, In cn nodes ->
              0 <= Timestamp cn /\ Timestamp cn + K < U64.modulus) ->
  List.filter (counted cfg node T final) nodes
  = List.filter (counted_exact cfg node T final) nodes.
Proof.
  intros Hall. apply filter_ext_in. intros cn Hin.
  destruct (Hall cn Hin). apply counted_exact_eq; assumption.
Qed.

Lemma quorum_value base :
  0 <= base ->
  (if base <? KernelMinimumNodesCount cfg then Some 1000
   else Some (base * 2 ÷ 3 + 1)) = Some (quorum cfg base).
Proof.
  intros Hb. unfold quorum.
  destruct (base <? KernelMinimumNodesCount cfg); [reflexivity|].
  rewrite Z.quot_div_nonneg by lia. reflexivity.
Qed.

Lemma ConsensusThreshold_counted node T final :
  ConsensusThreshold cfg node T final
  = Some (quorum cfg
            (Z.of_nat (length (List.filter (counted cfg node T final)
                                 (NodesListWithoutState node T false))))).
Proof.
  unfold ConsensusThreshold. rewrite threshold_loop_counted.
  rewrite Z.add_0_l. apply quorum_value. lia.
Qed.

(** With [final] set, the Pledging entries of the list are never looked
    at: the loop gives the same base without them. *)
Lemma threshold_loop_final_skips_pledging node T nodes base :
  threshold_loop cfg node T true base nodes
  = threshold_loop cfg node T true base
      (List.filter (fun cn => negb (bool_decide (State cn = Pledging)))
         nodes).
Proof.
  rewrite !threshold_loop_counted. do 4 f_equal.
  induction nodes as [|cn rest IH]; simpl; [reflexivity|].
  case_bool_decide as Hst; simpl.
  - replace (counted cfg node T true cn) with false
      by (unfold counted; rewrite Hst; reflexivity).
    exact IH.
  - destruct (counted cfg node T true cn); rewrite IH; reflexivity.
Qed.

End Threshold.

(** C1.  With constants that pass the two checks of the function,
    [ConsensusThreshold T final] returns the sentinel 1000 when the counted
    base is below [KernelMinimumNodesCount] and [base * 2 / 3 + 1] otherwise,
    where the base counts, over [NodesListWithoutState T false], each
    Pledging node iff [final] is false and [cn.Timestamp +
    (KernelNodeAcceptPeriodMinimum - 3 * SnapshotReferenceThreshold *
    SnapshotRoundGap) < T], and each Accepted node iff it is a genesis node
    or [cn.Timestamp + SnapshotReferenceThreshold * SnapshotRoundGap < T].
    The sums are the [uint64] sums of the code, and the sums of the integers
    for timestamps that leave room for the accept period.  With [final] set
    no Pledging node is counted. *)
Theorem ConsensusThreshold_spec (cfg : Config) (node : Node) (T : Z)
    (final : bool) :
  config_sane cfg ->
  let nodes := NodesListWithoutState node T false in
  let count f := Z.of_nat (length (List.filter f nodes)) in
  ConsensusThreshold cfg node T final
  = Some (quorum cfg (count (counted cfg node T final)))
  /\ ((forall cn, In cn nodes ->
         0 <= Timestamp cn
         /\ Timestamp cn + KernelNodeAcceptPeriodMinimum cfg < U64.modulus) ->
      ConsensusThreshold cfg node T final
      = Some (quorum cfg (count (counted_exact cfg node T final))))
  /\ (forall cn, State cn = Pledging -> counted cfg node T true cn = false)
  /\ (forall base,
        threshold_loop cfg node T true base nodes
        = threshold_loop cfg node T true base
            (List.filter (fun cn => negb (bool_decide (State cn = Pledging)))
               nodes)).
Proof.
  intros Hsane nodes count. repeat split.
  - apply ConsensusThreshold_counted. exact Hsane.
  - intros Hall. rewrite ConsensusThreshold_counted by exact Hsane.
    unfold count. fold nodes.
    rewrite (filter_counted_exact cfg Hsane node T final nodes Hall).
    reflexivity.
  - intros cn Hst. unfold counted. rewrite Hst. reflexivity.
  - intros base. apply threshold_loop_final_skips_pledging. exact Hsane.
Qed.

(** ** Broadcast check *)

Lemma size_zero_iff (spm : gmap Hash (option SyncPoint)) :
  size spm = 0%nat <-> spm = ∅.
Proof. apply map_size_empty_iff. Qed.

Lemma broadcast_loop_counted spm final nodes : forall count,
  broadcast_loop spm final count nodes
  = count + count_nodes (broadcast_counted spm final) nodes.
Proof.
  unfold count_nodes.
  induction nodes as [|cn rest IH]; intros count; simpl; [lia|].
  assert (Hcn : broadcast_counted spm final cn
                = match sync_lookup spm (IdForNetwork cn) with
                  | Some remote => final <=? U64.add (spNumber remote) 1
                  | None => false
                  end) by reflexivity.
  rewrite Hcn. clear Hcn.
  destruct (sync_lookup spm (IdForNetwork cn)) as [remote|].
  - destruct (final <=? U64.add (spNumber remote) 1); rewrite IH; simpl; lia.
  - apply IH.
Qed.

Lemma broadcast_counted_exact_eq spm final cn :
  sync_points_ok spm ->
  (forall remote, sync_lookup spm (IdForNetwork cn) = Some remote ->
                  spNumber remote + 1 < U64.modulus) ->
  broadcast_counted spm final cn = broadcast_counted_exact spm final cn.
Proof.
  intros Hok Hroom. unfold broadcast_counted, broadcast_counted_exact.
  destruct (sync_lookup spm (IdForNetwork cn)) as [remote|] eqn:Hl;
    [|reflexivity].
  destruct (Hok _ _ Hl) as [H0 _]. specialize (Hroom remote eq_refl).
  rewrite U64_add_small by lia. reflexivity.
Qed.

(** C3, as the code has it.  [CheckBroadcastedToP2PPeers] returns false when
    the sync-point map is empty or the chain state is absent.  Otherwise,
    for any clock, it starts a count at 1 and adds 1 for each node of the
    accepted-only node list, taken at the second reading of the clock, whose
    remote sync point exists and satisfies [remote.Number + 1 >= final] with
    the sum of [uint64]; it returns whether the count reaches
    [ConsensusThreshold] of the first reading.  For a remote number below
    [2^64 - 1] the sum is the sum of the integers; a remote with the number
    [2^64 - 1] gives the sum 0 and is counted only when [final] is 0. *)
Theorem CheckBroadcastedToP2PPeers_spec (cfg : Config) (node : Node)
    (clk : Clock) :
  let spm := SyncPointsMap node in
  let nodes := NodesListWithoutState node (clk 1%nat) true in
  (spm = ∅ \/ ChainStateOf (chain node) = None ->
   CheckBroadcastedToP2PPeers cfg node clk = Some false)
  /\ (forall st,
        spm <> ∅ -> ChainStateOf (chain node) = Some st ->
        config_sane cfg ->
        let final := frNumber (FinalRoundOf st) in
        exists threshold,
          ConsensusThreshold cfg node (clk 0%nat) false = Some threshold
          /\ CheckBroadcastedToP2PPeers cfg node clk
             = Some (threshold
                     <=? 1 + count_nodes (broadcast_counted spm final) nodes)
          /\ (sync_points_ok spm -> U64.ok final ->
              forall cn remote,
                sync_lookup spm (IdForNetwork cn) = Some remote ->
                (broadcast_counted spm final cn = true
                 <-> (spNumber remote < U64.modulus - 1
                      /\ final <= spNumber remote + 1)
                     \/ (spNumber remote = U64.modulus - 1 /\ final = 0)))).
Proof.
  intros spm nodes. split.
  - intros Hcase. unfold CheckBroadcastedToP2PPeers. fold spm.
    case_bool_decide as Hsz; [reflexivity|].
    destruct Hcase as [Hempty | Hnone].
    + exfalso. apply Hsz. apply size_zero_iff. exact Hempty.
    + rewrite Hnone. reflexivity.
  - intros st Hne Hst Hsane final.
    exists (quorum cfg (count_nodes (counted cfg node (clk 0%nat) false)
                          (NodesListWithoutState node (clk 0%nat) false))).
    split; [apply ConsensusThreshold_counted; exact Hsane|]. split.
    + unfold CheckBroadcastedToP2PPeers. fold spm.
      case_bool_decide as Hsz; [exfalso; apply Hne, size_zero_iff, Hsz|].
      rewrite Hst. rewrite ConsensusThreshold_counted by exact Hsane.
      rewrite broadcast_loop_counted. reflexivity.
    + intros Hok Hfinal cn remote Hl. unfold broadcast_counted.
      rewrite Hl. pose proof (Hok _ _ Hl) as Hn.
      unfold U64.ok in Hn, Hfinal. rewrite Z.leb_le.
      destruct (Z.eq_dec (spNumber remote) (U64.modulus - 1)) as [Hlast|Hlow].
      * rewrite Hlast. unfold U64.add, U64.wrap.
        replace (U64.modulus - 1 + 1) with (1 * U64.modulus) by lia.
        rewrite Z_mod_mult. lia.
      * rewrite U64_add_small by lia. lia.
Qed.

(** ** Catch-up check *)

Section CatchUp.

Variables (cfg : Config) (spm : gmap Hash (option SyncPoint)).
Variables (cache : option CacheRound) (final : Z) (clk : Clock).
Hypothesis final_ok : U64.ok final.
Hypothesis spm_ok : sync_points_ok spm.

Let node_ok (k : nat) :=
  catchup_node_ok (ahead_ok cfg cache (clk k)) spm final.
Let readers := List.filter (reads_clock spm cache final).

(** The loop either ends with the counter of the nodes that have a remote,
    every node having passed its test at the reading that falls to it, or
    returns false at a node that fails its test. *)
Lemma catchup_loop_readings nodes : forall k updated,
  (catchup_loop cfg spm cache final clk k updated nodes
   = Some (updated + count_nodes (has_remote spm) nodes)
   /\ forall i cn, nodes !! i = Some cn ->
         node_ok (k + length (readers (take i nodes))) cn = true)
  \/ (catchup_loop cfg spm cache final clk k updated nodes = None
      /\ exists i cn, nodes !! i = Some cn
            /\ node_ok (k + length (readers (take i nodes))) cn = false).
Proof.
  induction nodes as [|cn rest IH]; intros k updated.
  { left. split; [unfold count_nodes; simpl; f_equal; lia|].
    intros i cn Hl. rewrite lookup_nil in Hl. discriminate. }
  match goal with |- ?G => remember G as walk eqn:Hwalk end.
  assert (Hpass : forall r h : bool,
            reads_clock spm cache final cn = r -> has_remote spm cn = h ->
            node_ok k cn = true ->
            catchup_loop cfg spm cache final clk k updated (cn :: rest)
            = catchup_loop cfg spm cache final clk (if r then S k else k)
                (if h then updated + 1 else updated) rest ->
            walk).
  { intros r h Hr Hh Hok Heq. subst walk. rewrite Heq.
    assert (Hidx : forall i,
              (k + length (readers (take (S i) (cn :: rest))))%nat
              = ((if r then S k else k) + length (readers (take i rest)))%nat).
    { intros i. unfold readers. simpl. rewrite Hr. destruct r; simpl; lia. }
    destruct (IH (if r then S k else k) (if h then updated + 1 else updated))
      as [[Hres Hall] | [Hres (i & c & Hi & Hbad)]].
    - left. split.
      + rewrite Hres. f_equal. unfold count_nodes. simpl. rewrite Hh.
        destruct h; simpl length; lia.
      + intros [|i] c Hi.
        * injection Hi as <-. simpl. rewrite Nat.add_0_r. exact Hok.
        * rewrite Hidx. apply Hall. exact Hi.
    - right. split; [exact Hres|]. exists (S i), c. split; [exact Hi|].
      rewrite Hidx. exact Hbad. }
  assert (Hfail : node_ok k cn = false ->
            catchup_loop cfg spm cache final clk k updated (cn :: rest) = None ->
            walk).
  { intros Hbad Hres. subst walk. right. split; [exact Hres|].
    exists 0%nat, cn. split; [reflexivity|]. simpl. rewrite Nat.add_0_r.
    exact Hbad. }
  clear Hwalk IH.
  unfold node_ok, catchup_node_ok, reads_clock, has_remote in Hpass, Hfail.
  simpl catchup_loop in Hpass, Hfail.
  destruct (sync_lookup spm (IdForNetwork cn)) as [remote|] eqn:Hl.
  2: { apply (Hpass false false); reflexivity. }
  pose proof (spm_ok _ _ Hl) as Hn. unfold U64.ok in Hn, final_ok.
  destruct (Z.leb_spec (spNumber remote) final) as [Hle|Hgt].
  { apply (Hpass false true); try reflexivity.
    - destruct (Z.eqb_spec (spNumber remote) (final + 1)); [lia|reflexivity].
    - destruct (Z.ltb_spec (final + 1) (spNumber remote)); [lia|].
      destruct (Z.eqb_spec (spNumber remote) (final + 1)); [lia|reflexivity]. }
  rewrite U64_add_small in Hpass, Hfail by lia.
  destruct (Z.ltb_spec (final + 1) (spNumber remote)) as [Hfar|Hnear].
  { apply Hfail; reflexivity. }
  destruct (Z.eqb_spec (spNumber remote) (final + 1)) as [_|Hne]; [|lia].
  unfold ahead_ok in Hpass, Hfail.
  destruct cache as [c|]; [|apply Hfail; reflexivity].
  destruct (asFinal c) as [cf|]; [|apply Hfail; reflexivity].
  case_bool_decide as Hh; simpl in Hpass, Hfail;
    [|apply Hfail; reflexivity].
  destruct (Z.ltb_spec (clk k)
              (U64.add (frStart cf) (U64.mul (SnapshotRoundGap cfg) 100)))
    as [Hyoung|Hold].
  - apply Hfail; [|reflexivity]. apply Z.leb_gt. exact Hyoung.
  - apply (Hpass true true); try reflexivity. apply Z.leb_le. exact Hold.
Qed.

End CatchUp.

(** No overflow in the age test: the two readings agree. *)
Lemma ahead_ok_exact_eq cfg cache now remote :
  0 <= SnapshotRoundGap cfg ->
  (forall c cf, cache = Some c -> asFinal c = Some cf ->
                0 <= frStart cf
                /\ frStart cf + SnapshotRoundGap cfg * 100 < U64.modulus) ->
  ahead_ok cfg cache now remote = ahead_ok_exact cfg cache now remote.
Proof.
  intros Hgap Hroom. unfold ahead_ok, ahead_ok_exact.
  destruct cache as [c|]; [|reflexivity].
  destruct (asFinal c) as [cf|] eqn:Hcf; [|reflexivity].
  destruct (Hroom c cf eq_refl Hcf) as [H0 Hlt].
  rewrite U64_mul_small by lia. rewrite U64_add_small by lia. reflexivity.
Qed.

(** C2.  [CheckCatchUpWithP2PPeers] returns false if the sync-point map is
    empty or the chain state is absent.  Otherwise, for any clock, it walks
    the accepted-node list, taken at the second reading of the clock, with a
    counter started at 1 and incremented for each node with a remote sync
    point; it returns false at a remote with [remote.Number > final + 1],
    and at a remote with [remote.Number = final + 1] unless the cache round
    exists, its projection exists, the projection's hash is [remote.Hash]
    and [start + SnapshotRoundGap * 100 <= now], where [now] is the reading
    of the clock made for that node; when no node makes it return false it
    returns whether the counter reaches [ConsensusThreshold] of the first
    reading.  On a clock that shows one [now] throughout, every test is the
    test at [now].  The sum in the age test is the [uint64] sum of the code,
    and the sum of the integers when that is representable. *)
Theorem CheckCatchUpWithP2PPeers_spec (cfg : Config) (node : Node)
    (clk : Clock) :
  let spm := SyncPointsMap node in
  let nodes := NodesListWithoutState node (clk 1%nat) true in
  (spm = ∅ \/ ChainStateOf (chain node) = None ->
   CheckCatchUpWithP2PPeers cfg node clk = Some false)
  /\ (forall st,
        spm <> ∅ -> ChainStateOf (chain node) = Some st ->
        config_sane cfg ->
        U64.ok (frNumber (FinalRoundOf st)) -> sync_points_ok spm ->
        let final := frNumber (FinalRoundOf st) in
        let cache := CacheRoundOf st in
        let counter := 1 + count_nodes (has_remote spm) nodes in
        let now_at i := clk (reading_at spm cache final nodes i) in
        exists threshold walk,
          ConsensusThreshold cfg node (clk 0%nat) false = Some threshold
          /\ CheckCatchUpWithP2PPeers cfg node clk
             = Some (walk && (threshold <=? counter))
          /\ (walk = true
              <-> forall i cn,
                    nodes !! i = Some cn ->
                    catchup_node_ok (ahead_ok cfg cache (now_at i)) spm final
                      cn = true)
          /\ (forall now,
                frozen clk now ->
                walk = forallb
                         (catchup_node_ok (ahead_ok cfg cache now) spm final)
                         nodes)
          /\ ((forall c cf, cache = Some c -> asFinal c = Some cf ->
                 0 <= frStart cf
                 /\ frStart cf + SnapshotRoundGap cfg * 100 < U64.modulus) ->
              forall now remote,
                ahead_ok cfg cache now remote
                = ahead_ok_exact cfg cache now remote)).
Proof.
  intros spm nodes. split.
  - intros Hcase. unfold CheckCatchUpWithP2PPeers. fold spm.
    case_bool_decide as Hsz; [reflexivity|].
    destruct Hcase as [Hempty | Hnone].
    + exfalso. apply Hsz. apply size_zero_iff. exact Hempty.
    + rewrite Hnone. reflexivity.
  - intros st Hne Hst Hsane Hfinal Hok final cache counter now_at.
    exists (quorum cfg (count_nodes (counted cfg node (clk 0%nat) false)
                          (NodesListWithoutState node (clk 0%nat) false))).
    assert (Hcheck : forall walk : bool,
              catchup_loop cfg spm cache final clk 2 1 nodes
              = (if walk then Some counter else None) ->
              CheckCatchUpWithP2PPeers cfg node clk
              = Some (walk
                      && (quorum cfg
                            (count_nodes (counted cfg node (clk 0%nat) false)
                               (NodesListWithoutState node (clk 0%nat) false))
                          <=? counter))).
    { intros walk Hloop. unfold CheckCatchUpWithP2PPeers. fold spm.
      case_bool_decide as Hsz; [exfalso; apply Hne, size_zero_iff, Hsz|].
      rewrite Hst. rewrite ConsensusThreshold_counted by exact Hsane.
      fold nodes final cache. rewrite Hloop. destruct walk; reflexivity. }
    assert (Hwalk : exists walk : bool,
              catchup_loop cfg spm cache final clk 2 1 nodes
              = (if walk then Some counter else None)
              /\ (walk = true
                  <-> forall i cn,
                        nodes !! i = Some cn ->
                        catchup_node_ok (ahead_ok cfg cache (now_at i)) spm
                          final cn = true)).
    { destruct (catchup_loop_readings cfg spm cache final clk Hfinal Hok
                  nodes 2 1)
        as [[Hres Hall] | [Hres (i & cn & Hi & Hbad)]].
      - exists true. split; [exact Hres|]. split; [|reflexivity].
        intros _ i cn Hi. exact (Hall i cn Hi).
      - exists false. split; [exact Hres|]. split; [discriminate|].
        intros Hall. specialize (Hall i cn Hi).
        unfold now_at, reading_at in Hall. congruence. }
    destruct Hwalk as (walk & Hloop & Hiff).
    exists walk. split; [apply ConsensusThreshold_counted; exact Hsane|].
    split; [exact (Hcheck walk Hloop)|]. split; [exact Hiff|]. split.
    + intros now Hclk. apply eq_true_iff_eq. rewrite Hiff, forallb_forall.
      split.
      * intros Hall cn Hin. apply list_elem_of_In, list_elem_of_lookup in Hin
          as [i Hi].
        specialize (Hall i cn Hi). unfold now_at in Hall.
        rewrite Hclk in Hall. exact Hall.
      * intros Hall i cn Hi. unfold now_at. rewrite Hclk. apply Hall.
        apply list_elem_of_In, list_elem_of_lookup. exists i. exact Hi.
    + intros Hroom now remote. destruct Hsane as [[[Hg _] _ _] _ _].
      exact (ahead_ok_exact_eq cfg cache now remote Hg Hroom).
Qed.

(** ** The node sequence *)

(** *** Order of Go strings *)

Lemma string_ltb_lt (a b : string) :
  String.ltb a b = true <-> OrderedTypeEx.String_as_OT.lt a b.
Proof.
  unfold String.ltb. rewrite <- OrderedTypeEx.String_as_OT.cmp_lt.
  unfold OrderedTypeEx.String_as_OT.cmp.
  destruct (String.compare a b); split; congruence.
Qed.

Lemma string_compare_refl (a : string) : String.compare a a = Eq.
Proof.
  pose proof (String.compare_antisym a a) as Ha.
  destruct (String.compare a a); simpl in Ha; congruence.
Qed.

Lemma string_leb_iff (a b : string) :
  String.leb a b = true <-> a = b \/ String.ltb a b = true.
Proof.
  unfold String.leb, String.ltb.
  destruct (String.compare a b) eqn:Hc; split; intros Hx; try reflexivity.
  - left. apply String.compare_eq_iff. exact Hc.
  - right. reflexivity.
  - discriminate.
  - destruct Hx as [-> | Hx]; [|discriminate].
    rewrite string_compare_refl in Hc. discriminate.
Qed.

Lemma string_ltb_trans (a b c : string) :
  String.ltb a b = true -> String.ltb b c = true -> String.ltb a c = true.
Proof.
  rewrite !string_ltb_lt. apply OrderedTypeEx.String_as_OT.lt_trans.
Qed.

Lemma string_ltb_irrefl (a : string) : String.ltb a a = false.
Proof. unfold String.ltb. rewrite string_compare_refl. reflexivity. Qed.

Lemma string_leb_trans (a b c : string) :
  String.leb a b = true -> String.leb b c = true -> String.leb a c = true.
Proof.
  rewrite !string_leb_iff. intros [-> | Hab] [-> | Hbc]; auto.
  right. eapply string_ltb_trans; eassumption.
Qed.

Lemma string_ltb_false_leb (a b : string) :
  String.ltb a b = false -> String.leb b a = true.
Proof.
  unfold String.ltb, String.leb. rewrite (String.compare_antisym a b).
  destruct (String.compare b a); simpl; congruence.
Qed.

Lemma string_ltb_leb (a b : string) :
  String.ltb a b = true -> String.leb a b = true.
Proof. intros Hlt. apply string_leb_iff. right. exact Hlt. Qed.

(** *** [less] and the canonical order *)

Lemma less_true_le (a b : CNode) : less a b = true -> canonical_le a b.
Proof.
  unfold less, canonical_le.
  destruct (Z.ltb_spec (Timestamp a) (Timestamp b)); [auto|].
  destruct (Z.ltb_spec (Timestamp b) (Timestamp a)); [discriminate|].
  intros Hlt. right. split; [lia|]. apply string_ltb_leb. exact Hlt.
Qed.

Lemma less_false_le (a b : CNode) : less a b = false -> canonical_le b a.
Proof.
  unfold less, canonical_le.
  destruct (Z.ltb_spec (Timestamp a) (Timestamp b)); [discriminate|].
  destruct (Z.ltb_spec (Timestamp b) (Timestamp a)); [auto|].
  intros Hlt. right. split; [lia|]. apply string_ltb_false_leb. exact Hlt.
Qed.

Lemma canonical_le_trans (a b c : CNode) :
  canonical_le a b -> canonical_le b c -> canonical_le a c.
Proof.
  unfold canonical_le. intros [Hab | [Hab Sab]] [Hbc | [Hbc Sbc]];
    try (left; lia).
  right. split; [lia|]. eapply string_leb_trans; eassumption.
Qed.

(** *** [sort.Slice] *)

Lemma sort_insert_perm (x : CNode) (l : list CNode) : sort_insert x l ≡ₚ x :: l.
Proof.
  induction l as [|y l IH]; simpl; [reflexivity|].
  destruct (less x y); [reflexivity|].
  rewrite IH. apply Permutation_swap.
Qed.

Lemma sort_Slice_perm (l : list CNode) : sort_Slice l ≡ₚ l.
Proof.
  induction l as [|x l IH]; simpl; [reflexivity|].
  rewrite sort_insert_perm, IH. reflexivity.
Qed.

Lemma sort_insert_sorted (x : CNode) (l : list CNode) :
  StronglySorted canonical_le l -> StronglySorted canonical_le (sort_insert x l).
Proof.
  induction l as [|y l IH]; simpl; intros Hs.
  - constructor; [constructor | constructor].
  - inversion Hs as [|y' l' Hl Hy]; subst.
    destruct (less x y) eqn:Hxy.
    + constructor; [exact Hs|].
      apply less_true_le in Hxy. constructor; [exact Hxy|].
      eapply Forall_impl; [exact Hy|].
      intros z Hyz. eapply canonical_le_trans; eassumption.
    + constructor; [apply IH; exact Hl|].
      apply less_false_le in Hxy.
      rewrite (sort_insert_perm x l). constructor; assumption.
Qed.

Lemma sort_Slice_sorted (l : list CNode) :
  StronglySorted canonical_le (sort_Slice l).
Proof.
  induction l as [|x l IH]; simpl; [constructor|].
  apply sort_insert_sorted. exact IH.
Qed.

(** *** The index pass *)

Lemma assign_index_same (nodes : list CNode) : forall index,
  Forall2 same_entry (assign_index index nodes) nodes.
Proof.
  induction nodes as [|cn rest IH]; intros index; simpl; constructor.
  - repeat split.
  - apply IH.
Qed.

Lemma canonical_le_same (a a' b b' : CNode) :
  same_entry a' a -> same_entry b' b -> canonical_le a b -> canonical_le a' b'.
Proof.
  unfold same_entry, canonical_le.
  intros (-> & _ & _ & _ & -> & _) (-> & _ & _ & _ & -> & _). auto.
Qed.

Lemma sorted_same (l' l : list CNode) :
  Forall2 same_entry l' l ->
  StronglySorted canonical_le l -> StronglySorted canonical_le l'.
Proof.
  induction 1 as [|a' a l' l Ha Hl IH]; intros Hs; [constructor|].
  inversion Hs as [|? ? Hs' Hall]; subst.
  constructor; [apply IH; exact Hs'|].
  clear IH Hs Hs'. induction Hl as [|b' b l' l Hb Hl IH]; [constructor|].
  inversion Hall; subst. constructor; [|apply IH; assumption].
  eapply canonical_le_same; eassumption.
Qed.

Lemma is_active_same (a b : CNode) : same_entry a b -> is_active a = is_active b.
Proof. intros (_ & _ & _ & _ & _ & Hst). unfold is_active. rewrite Hst. reflexivity. Qed.

Lemma count_active_same (l' l : list CNode) :
  Forall2 same_entry l' l ->
  count_nodes is_active l' = count_nodes is_active l.
Proof.
  unfold count_nodes. induction 1 as [|a' a l' l Ha Hl IH]; [reflexivity|].
  simpl. rewrite (is_active_same _ _ Ha).
  destruct (is_active a); simpl; lia.
Qed.

Lemma Forall2_take {A B} (R : A -> B -> Prop) (l : list A) (k : list B) i :
  Forall2 R l k -> Forall2 R (take i l) (take i k).
Proof.
  intros H. revert i. induction H; intros [|i]; simpl; constructor; auto.
Qed.

(** Every entry receives the number of active entries before it, counted
    from the start value of the index. *)
Lemma assign_index_lookup (nodes : list CNode) : forall index i cn,
  assign_index index nodes !! i = Some cn ->
  ConsensusIndex cn = index + count_nodes is_active (take i nodes).
Proof.
  unfold count_nodes.
  induction nodes as [|n rest IH]; intros index i cn; simpl; [discriminate|].
  destruct i as [|i]; simpl.
  - intros [= <-]. simpl. lia.
  - intros Hl. apply IH in Hl. rewrite Hl.
    destruct (is_active n); simpl; lia.
Qed.

(** The indexes of the active entries, in output order, are
    [index, index + 1, ...]. *)
Lemma assign_index_active (nodes : list CNode) : forall index,
  List.map ConsensusIndex (List.filter is_active (assign_index index nodes))
  = List.map (fun i => index + Z.of_nat i)
      (List.seq 0 (length (List.filter is_active nodes))).
Proof.
  induction nodes as [|n rest IH]; intros index; simpl; [reflexivity|].
  assert (Hact : is_active (mkCNode (IdForNetwork n) (Signer n) (Payee n)
                              (Transaction n) (Timestamp n) (State n) index)
                 = is_active n) by reflexivity.
  rewrite Hact. destruct (is_active n); simpl.
  - f_equal; [lia|]. rewrite IH. rewrite <- seq_shift, List.map_map.
    apply List.map_ext. intros i. lia.
  - apply IH.
Qed.

Lemma assign_index_active_lookup (nodes : list CNode) : forall index i cn,
  List.filter is_active (assign_index index nodes) !! i = Some cn ->
  ConsensusIndex cn = index + Z.of_nat i.
Proof.
  induction nodes as [|n rest IH]; intros index i cn; simpl; [discriminate|].
  assert (Hact : is_active (mkCNode (IdForNetwork n) (Signer n) (Payee n)
                              (Transaction n) (Timestamp n) (State n) index)
                 = is_active n) by reflexivity.
  rewrite Hact. destruct (is_active n); simpl.
  - destruct i as [|i]; simpl.
    + intros [= <-]. simpl. lia.
    + intros Hl. apply IH in Hl. lia.
  - intros Hl. apply IH in Hl. lia.
Qed.

(** *** The output does not depend on the order of the map *)

Lemma hex_of_byte_value (b : byte) :
  hex_pair_value (hex_of_byte b) = Byte.to_N b.
Proof. destruct b; reflexivity. Qed.

Lemma hex_of_byte_inj (a b : byte) : hex_of_byte a = hex_of_byte b -> a = b.
Proof.
  intros Heq. apply (f_equal hex_pair_value) in Heq.
  rewrite !hex_of_byte_value in Heq.
  pose proof (Byte.of_to_N a) as Ha. rewrite Heq, Byte.of_to_N in Ha.
  congruence.
Qed.

Lemma hex_encode_inj (l1 : list byte) : forall l2,
  flat_map hex_of_byte l1 = flat_map hex_of_byte l2 -> l1 = l2.
Proof.
  induction l1 as [|a l1 IH]; intros [|b l2] Heq;
    [reflexivity | discriminate Heq | discriminate Heq |].
  change (hex_of_byte a ++ flat_map hex_of_byte l1
          = hex_of_byte b ++ flat_map hex_of_byte l2) in Heq.
  assert (Hhead : hex_of_byte a = hex_of_byte b /\
                  flat_map hex_of_byte l1 = flat_map hex_of_byte l2).
  { unfold hex_of_byte in *. simpl in Heq. injection Heq as H1 H2 H3.
    split; [congruence | exact H3]. }
  destruct Hhead as [Hab Hrest].
  f_equal; [apply hex_of_byte_inj; exact Hab | apply IH; exact Hrest].
Qed.

(** Two ids with the same hex string are the same id. *)
Lemma Hash_String_inj (a b : Hash) : Hash_String a = Hash_String b -> a = b.
Proof.
  unfold Hash_String. intros Heq.
  apply (f_equal list_ascii_of_string) in Heq.
  rewrite !list_ascii_of_string_of_list_ascii in Heq.
  apply hex_encode_inj in Heq. apply vec_to_list_inj2. exact Heq.
Qed.

Lemma canonical_le_antisym (a b : CNode) :
  canonical_le a b -> canonical_le b a ->
  Timestamp a = Timestamp b /\ IdForNetwork a = IdForNetwork b.
Proof.
  unfold canonical_le. intros [Hab | [Hab Sab]] [Hba | [Hba Sba]]; try lia.
  split; [exact Hab|]. apply Hash_String_inj, String.leb_antisym; assumption.
Qed.

(** A list has one sorted arrangement when the order separates its
    elements. *)
Lemma sorted_perm_unique (l1 : list CNode) : forall l2,
  StronglySorted canonical_le l1 -> StronglySorted canonical_le l2 ->
  l1 ≡ₚ l2 ->
  (forall a b, a ∈ l1 -> b ∈ l1 ->
               canonical_le a b -> canonical_le b a -> a = b) ->
  l1 = l2.
Proof.
  induction l1 as [|x l1 IH]; intros l2 S1 S2 Hperm Hanti.
  - apply Permutation_nil in Hperm. congruence.
  - destruct l2 as [|y l2].
    { symmetry in Hperm. apply Permutation_nil in Hperm. discriminate. }
    apply StronglySorted_inv in S1 as [S1 Hx].
    apply StronglySorted_inv in S2 as [S2 Hy].
    rewrite Forall_forall in Hx, Hy.
    assert (Hxin : x ∈ y :: l2) by (rewrite <- Hperm; left).
    assert (Hyin : y ∈ x :: l1) by (rewrite Hperm; left).
    assert (Hxy : x = y).
    { apply elem_of_cons in Hxin as [Heq | Hxin]; [exact Heq|].
      apply elem_of_cons in Hyin as [Heq | Hyin]; [congruence|].
      apply Hanti; [left | right; exact Hyin | apply Hx | apply Hy];
        assumption. }
    subst y. f_equal. apply IH; try assumption.
    + eapply Permutation_cons_inv. exact Hperm.
    + intros a b Ha Hb. apply Hanti; right; assumption.
Qed.

Lemma same_id_same_entry (l : list CNode) (a b : CNode) :
  NoDup (map IdForNetwork l) -> a ∈ l -> b ∈ l ->
  IdForNetwork a = IdForNetwork b -> a = b.
Proof.
  induction l as [|x l IH]; intros Hnd Ha Hb Hid.
  - apply elem_of_nil in Ha. contradiction.
  - simpl in Hnd. apply NoDup_cons in Hnd as [Hx Hnd].
    apply elem_of_cons in Ha as [-> | Ha];
      apply elem_of_cons in Hb as [-> | Hb].
    + reflexivity.
    + exfalso. apply Hx. rewrite Hid.
      apply (list_elem_of_fmap_2 IdForNetwork). exact Hb.
    + exfalso. apply Hx. rewrite <- Hid.
      apply (list_elem_of_fmap_2 IdForNetwork). exact Ha.
    + apply IH; assumption.
Qed.

Lemma sort_Slice_order_irrelevant (l1 l2 : list CNode) :
  l1 ≡ₚ l2 -> NoDup (map IdForNetwork l1) -> sort_Slice l1 = sort_Slice l2.
Proof.
  intros Hperm Hnd. apply sorted_perm_unique; try apply sort_Slice_sorted.
  - rewrite !sort_Slice_perm. exact Hperm.
  - intros a b Ha Hb Hab Hba. rewrite sort_Slice_perm in Ha, Hb.
    destruct (canonical_le_antisym a b Hab Hba) as [_ Hid].
    eapply same_id_same_entry; eassumption.
Qed.

Lemma copy_nodes_perm (acceptedOnly : bool) (l1 l2 : list CNode) :
  l1 ≡ₚ l2 -> copy_nodes acceptedOnly l1 ≡ₚ copy_nodes acceptedOnly l2.
Proof.
  induction 1 as [|x l1 l2 _ IH|x y l|l1 l2 l3 _ IH1 _ IH2]; simpl.
  - reflexivity.
  - destruct (negb acceptedOnly || _); [constructor|]; exact IH.
  - destruct (negb acceptedOnly || bool_decide (State y = Accepted));
      destruct (negb acceptedOnly || bool_decide (State x = Accepted));
      try reflexivity. apply Permutation_swap.
  - etransitivity; eassumption.
Qed.

Lemma copy_nodes_ids (acceptedOnly : bool) (l : list CNode) :
  map IdForNetwork (copy_nodes acceptedOnly l)
  `sublist_of` map IdForNetwork l.
Proof.
  induction l as [|x l IH]; simpl; [constructor|].
  destruct (negb acceptedOnly || _); simpl; constructor; exact IH.
Qed.

(** Whatever the order in which the entries are visited, the sequence is the
    same. *)
Lemma sequence_of_entries_order_irrelevant (acceptedOnly : bool)
    (e1 e2 : list CNode) :
  e1 ≡ₚ e2 -> NoDup (map IdForNetwork e1) ->
  sequence_of_entries acceptedOnly e1 = sequence_of_entries acceptedOnly e2.
Proof.
  intros Hperm Hnd. unfold sequence_of_entries. f_equal.
  apply sort_Slice_order_irrelevant.
  - apply copy_nodes_perm. exact Hperm.
  - eapply sublist_NoDup; [exact Hnd | apply copy_nodes_ids].
Qed.

Lemma collect_latest_keyed (threshold : Z) (all : list CNode) :
  forall filter, keyed_by_id filter ->
                 keyed_by_id (collect_latest threshold all filter).
Proof.
  induction all as [|n rest IH]; intros filter Hk; simpl; [exact Hk|].
  destruct (threshold <=? Timestamp n); [exact Hk|].
  apply IH. intros k m Hl.
  destruct (decide (IdForNetwork n = k)) as [<- | Hne].
  - rewrite lookup_insert_eq in Hl. congruence.
  - rewrite lookup_insert_ne in Hl by exact Hne. apply Hk. exact Hl.
Qed.

Lemma keyed_by_id_values (filter : gmap Hash CNode) :
  keyed_by_id filter ->
  map IdForNetwork (map_to_list filter).*2 = (map_to_list filter).*1.
Proof.
  intros Hk.
  assert (Hall : Forall (fun kv => IdForNetwork kv.2 = kv.1)
                   (map_to_list filter)).
  { apply Forall_forall. intros [k n] Hin. simpl.
    apply Hk. apply elem_of_map_to_list. exact Hin. }
  induction Hall as [|kv l Hkv _ IH]; simpl; [reflexivity|].
  rewrite Hkv. f_equal. exact IH.
Qed.

(** The entries of the map have distinct ids. *)
Lemma latest_entries_distinct (node : Node) (threshold : Z) :
  NoDup (map IdForNetwork (map_to_list (latest_entries node threshold)).*2).
Proof.
  rewrite keyed_by_id_values; [apply NoDup_fst_map_to_list|].
  apply collect_latest_keyed. intros k n Hl.
  rewrite lookup_empty in Hl. discriminate.
Qed.

(** The three properties of the output, for any order in which the entries
    of the map were visited. *)
Lemma sequence_of_entries_indexed (acceptedOnly : bool) (entries : list CNode) :
  let out := sequence_of_entries acceptedOnly entries in
  StronglySorted canonical_le out
  /\ (forall i cn, out !! i = Some cn ->
        ConsensusIndex cn = count_nodes is_active (take i out))
  /\ (forall i cn, List.filter is_active out !! i = Some cn ->
        ConsensusIndex cn = Z.of_nat i).
Proof.
  intros out. unfold sequence_of_entries in out.
  set (sorted := sort_Slice (copy_nodes acceptedOnly entries)) in *.
  pose proof (assign_index_same sorted 0) as Hsame. fold out in Hsame.
  repeat split.
  - eapply sorted_same; [exact Hsame|]. apply sort_Slice_sorted.
  - intros i cn Hl. apply assign_index_lookup in Hl. rewrite Hl, Z.add_0_l.
    symmetry. apply count_active_same. apply Forall2_take. exact Hsame.
  - intros i cn Hl. apply assign_index_active_lookup in Hl. lia.
Qed.

(** C5, as the code has it.  For every threshold and flag, the list
    [nodeSequenceWithoutState] produces is the same for every order in which
    the [range] loop visits the map; it is sorted under the canonical order
    (timestamp ascending, ties broken by the hex string of the id); every
    entry, whatever its state, receives as [ConsensusIndex] the number of
    Pledging or Accepted entries before it; over the Pledging and Accepted
    entries the index is strictly increasing and equals the 0-based position
    of the entry among them. *)
Theorem nodeSequenceWithoutState_indexed (node : Node) (threshold : Z)
    (acceptedOnly : bool) (entries : list CNode) :
  range_order (latest_entries node threshold) entries ->
  let out := sequence_of_entries acceptedOnly entries in
  let active := List.filter is_active out in
  out = nodeSequenceWithoutState node threshold acceptedOnly
  /\ StronglySorted canonical_le out
  /\ (forall i cn, out !! i = Some cn ->
        ConsensusIndex cn = count_nodes is_active (take i out))
  /\ (forall i cn, active !! i = Some cn -> ConsensusIndex cn = Z.of_nat i)
  /\ (forall i j ci cj,
        active !! i = Some ci -> active !! j = Some cj -> (i < j)%nat ->
        ConsensusIndex ci < ConsensusIndex cj).
Proof.
  intros Horder out active.
  destruct (sequence_of_entries_indexed acceptedOnly entries)
    as (Hsorted & Hall & Hpos).
  split_and!; [| exact Hsorted | exact Hall | exact Hpos |].
  - symmetry. apply sequence_of_entries_order_irrelevant.
    + symmetry. exact Horder.
    + apply latest_entries_distinct.
  - intros i j ci cj Hi Hj Hlt.
    rewrite (Hpos i ci Hi), (Hpos j cj Hj). lia.
Qed.

(** C5 as the spec states it fails: an entry that is neither Pledging nor
    Accepted is given an index too.  In the registry [registry_with_removed]
    the removed node comes out with [ConsensusIndex = 1], not with the zero
    value of a field that was never assigned. *)
Lemma consensus_index_assigned_to_removed_entry :
  ~ (forall node threshold acceptedOnly cn,
       In cn (nodeSequenceWithoutState node threshold acceptedOnly) ->
       is_active cn = false -> ConsensusIndex cn = 0).
Proof.
  intros Hstated.
  specialize (Hstated node_with_removed 5 false
                (mkCNode (sample_hash x02) (sample_address x02)
                   (sample_address x02) (sample_hash x02) 4 Removed 1)).
  assert (Hin : In (mkCNode (sample_hash x02) (sample_address x02)
                      (sample_address x02) (sample_hash x02) 4 Removed 1)
                   (nodeSequenceWithoutState node_with_removed 5 false)).
  { vm_compute. right. left. reflexivity. }
  specialize (Hstated Hin eq_refl). discriminate Hstated.
Qed.

Lemma nodeSequenceWithoutState_indexed_witness :
  let out := nodeSequenceWithoutState node_with_removed 5 false in
  StronglySorted canonical_le out
  /\ (forall i cn, out !! i = Some cn ->
        ConsensusIndex cn = count_nodes is_active (take i out)).
Proof.
  pose proof (nodeSequenceWithoutState_indexed node_with_removed 5 false
                (map_to_list (latest_entries node_with_removed 5)).*2) as H.
  assert (Hr : range_order (latest_entries node_with_removed 5)
                 (map_to_list (latest_entries node_with_removed 5)).*2)
    by (unfold range_order; reflexivity).
  destruct (H Hr) as (_ & Hs & Hall & _). split; [exact Hs | exact Hall].
Defined.

(** ** Bytes, big-endian integers, slices *)

Lemma Z_of_byte_range (b : byte) : 0 <= Z_of_byte b < 256.
Proof.
  unfold Z_of_byte. pose proof (Byte.to_N_bounded b) as Hb.
  split; [apply N2Z.is_nonneg|lia].
Qed.

Lemma Z_of_byte_of_Z (v : Z) : Z_of_byte (byte_of_Z v) = v mod 256.
Proof.
  unfold Z_of_byte, byte_of_Z.
  pose proof (Z.mod_pos_bound v 256 eq_refl) as Hm.
  destruct (Byte.of_N (Z.to_N (v mod 256))) as [b|] eqn:Hb; simpl.
  - apply Byte.to_of_N in Hb. rewrite Hb. apply Z2N.id. lia.
  - apply Byte.of_N_None_iff in Hb. lia.
Qed.

Lemma be_decode_snoc (bs : list byte) (b : byte) :
  be_decode (bs ++ [b]) = be_decode bs * 256 + Z_of_byte b.
Proof. unfold be_decode. rewrite foldl_app. reflexivity. Qed.

Lemma length_be_encode (n : nat) : forall v, length (be_encode n v) = n.
Proof.
  induction n as [|n IH]; intros v; simpl; [reflexivity|].
  rewrite length_app, IH. simpl. lia.
Qed.

(** Decoding gives back an encoded value that fits the width. *)
Lemma be_decode_encode (n : nat) : forall v,
  0 <= v < 256 ^ Z.of_nat n -> be_decode (be_encode n v) = v.
Proof.
  induction n as [|n IH]; intros v Hv; simpl.
  - simpl in Hv. unfold be_decode. simpl. lia.
  - rewrite be_decode_snoc, Z_of_byte_of_Z.
    rewrite IH.
    + pose proof (Z.div_mod v 256). lia.
    + rewrite Nat2Z.inj_succ, Z.pow_succ_r in Hv by lia.
      split; [apply Z.div_pos; lia|].
      apply Z.div_lt_upper_bound; lia.
Qed.

Lemma be_decode_range (bs : list byte) :
  0 <= be_decode bs < 256 ^ Z.of_nat (length bs).
Proof.
  induction bs as [|b bs IH] using rev_ind.
  - unfold be_decode. simpl. lia.
  - rewrite be_decode_snoc, length_app. simpl length.
    replace (Z.of_nat (length bs + 1)) with (Z.succ (Z.of_nat (length bs)))
      by lia.
    rewrite Z.pow_succ_r by lia.
    pose proof (Z_of_byte_range b). lia.
Qed.

(** The timestamp read from a message is a [uint64]. *)
Lemma Uint64_ok (bs : list byte) : U64.ok (Uint64 bs).
Proof.
  unfold Uint64, U64.ok, U64.modulus.
  pose proof (be_decode_range (take 8 bs)) as Hr.
  assert (Hlen : (length (take 8 bs) <= 8)%nat)
    by (rewrite length_take; lia).
  assert (Hpow : 256 ^ Z.of_nat (length (take 8 bs)) <= 256 ^ 8)
    by (apply Z.pow_le_mono_r; lia).
  change (256 ^ 8) with (2 ^ 64) in Hpow. lia.
Qed.

Lemma Uint64_PutUint64 (v : Z) (rest : list byte) :
  U64.ok v -> Uint64 (PutUint64 v ++ rest) = v.
Proof.
  intros Hv. unfold Uint64, PutUint64.
  rewrite take_app_length' by (rewrite length_be_encode; reflexivity).
  apply be_decode_encode. exact Hv.
Qed.

Lemma slice_middle (p x s : list byte) (lo hi : nat) :
  lo = length p -> hi = (lo + length x)%nat -> slice lo hi (p ++ x ++ s) = x.
Proof.
  intros Hlo Hhi. unfold slice.
  rewrite drop_app_length' by exact Hlo.
  apply take_app_length'. lia.
Qed.

Lemma slice_prefix (x s : list byte) (hi : nat) :
  hi = length x -> slice 0 hi (x ++ s) = x.
Proof. intros Hhi. apply (slice_middle [] x s); simpl; lia. Qed.

Lemma slice_take (s : list byte) : slice 0 8 s = take 8 s.
Proof. reflexivity. Qed.

(** ** [float64] conversions of integers *)

Lemma F64_round_small (x : Z) : Z.abs x < 2 ^ 53 -> F64.round x = x.
Proof.
  intros Hx. unfold F64.round.
  destruct (Z.ltb_spec (Z.abs x) (2 ^ 53)); [reflexivity|lia].
Qed.

Lemma F64_round_abs_large (x : Z) :
  2 ^ 53 <= Z.abs x -> 2 ^ 53 <= Z.abs (F64.round x).
Proof.
  intros Hx. unfold F64.round.
  destruct (Z.ltb_spec (Z.abs x) (2 ^ 53)) as [Hs|_]; [lia|].
  set (a := Z.abs x) in *.
  set (k := Z.log2 a - 52).
  assert (Ha : 0 < a) by lia.
  assert (Hlog : 53 <= Z.log2 a).
  { change 53 with (Z.log2 (2 ^ 53)). apply Z.log2_le_mono. exact Hx. }
  assert (Hk : 1 <= k) by (unfold k; lia).
  destruct (Z.log2_spec a Ha) as [Hlo _].
  assert (Hpow : 2 ^ Z.log2 a = 2 ^ k * 2 ^ 52).
  { rewrite <- Z.pow_add_r by lia. f_equal. unfold k. lia. }
  assert (Hpk : 0 < 2 ^ k) by (apply Z.pow_pos_nonneg; lia).
  assert (Hq : 2 ^ 52 <= a / 2 ^ k).
  { apply Z.div_le_lower_bound; [exact Hpk|]. lia. }
  assert (H2k : 2 <= 2 ^ k).
  { change 2 with (2 ^ 1) at 1. apply Z.pow_le_mono_r; lia. }
  set (q := a / 2 ^ k) in *.
  assert (Hsgn : Z.abs (Z.sgn x) = 1) by (unfold a in Ha; lia).
  assert (Hprod : forall q', q <= q' -> 2 ^ 53 <= Z.abs (Z.sgn x * (q' * 2 ^ k))).
  { intros q' Hq'. rewrite Z.abs_mul, Hsgn.
    change (2 ^ 53) with (2 ^ 52 * 2). nia. }
  match goal with
  | |- context [if ?c then _ else _] => destruct c
  end; apply Hprod; lia.
Qed.

(** For a clock and a timeout below [2^52] seconds the [float64] comparison
    of [AuthenticateAs] is the comparison of the integers, whatever the
    64-bit timestamp of the message. *)
Lemma auth_timed_out_exact (nowUnix ts timeoutSec : Z) :
  0 <= nowUnix < 2 ^ 52 -> timeoutSec < 2 ^ 52 -> U64.ok ts ->
  auth_timed_out nowUnix ts timeoutSec
  = (0 <? timeoutSec) && (timeoutSec <? Z.abs (nowUnix - ts)).
Proof.
  intros Hnow Ht Hts. unfold auth_timed_out, U64.ok, U64.modulus in *.
  destruct (Z.ltb_spec 0 timeoutSec) as [Hpos|_]; [simpl|reflexivity].
  unfold F64.of_int, F64.sub, F64.abs.
  assert (H52 : 2 ^ 52 < 2 ^ 53) by reflexivity.
  rewrite (F64_round_small timeoutSec) by lia.
  rewrite (F64_round_small nowUnix) by lia.
  destruct (Z.lt_ge_cases ts (2 ^ 53)) as [Hsmall|Hlarge].
  - rewrite (F64_round_small ts) by lia.
    rewrite (F64_round_small (nowUnix - ts)) by lia. reflexivity.
  - pose proof (F64_round_abs_large ts) as Hr.
    assert (Hrts : 2 ^ 53 <= Z.abs (F64.round ts)) by (apply Hr; lia).
    assert (Hnn : 0 <= F64.round ts).
    { unfold F64.round. destruct (Z.abs ts <? 2 ^ 53); [lia|].
      assert (Hs : Z.sgn ts = 1) by lia. rewrite Hs.
      set (k := Z.log2 (Z.abs ts) - 52).
      assert (0 <= 2 ^ k) by (apply Z.pow_nonneg; lia).
      assert (0 <= Z.abs ts / 2 ^ k) by (apply Z_div_nonneg_nonneg; lia).
      match goal with
      | |- context [if ?c then _ else _] => destruct c
      end; nia. }
    set (d := nowUnix - F64.round ts).
    assert (Hd : 2 ^ 52 <= Z.abs d) by (unfold d; lia).
    assert (Hrd : 2 ^ 52 <= Z.abs (F64.round d)).
    { destruct (Z.lt_ge_cases (Z.abs d) (2 ^ 53)) as [Hds|Hdl].
      - rewrite F64_round_small by exact Hds. exact Hd.
      - pose proof (F64_round_abs_large d Hdl). lia. }
    destruct (Z.ltb_spec timeoutSec (Z.abs (F64.round d))); [|lia].
    destruct (Z.ltb_spec timeoutSec (Z.abs (nowUnix - ts))); [reflexivity|lia].
Qed.

Lemma auth_timed_out_disabled (nowUnix ts timeoutSec : Z) :
  timeoutSec <= 0 -> auth_timed_out nowUnix ts timeoutSec = false.
Proof.
  intros Ht. unfold auth_timed_out.
  destruct (Z.ltb_spec 0 timeoutSec); [lia|reflexivity].
Qed.

(** ** The new handshake *)

Lemma toy_crypto_laws : CryptoLaws toy_crypto.
Proof.
  split.
  - intros k h. simpl. apply bool_decide_eq_true. reflexivity.
  - intros a b Hs _. simpl. exact Hs.
Qed.

(** Where the five fields of a 137-byte message sit. *)
Lemma handshake_layout (a b c e : list byte) (f : byte) :
  length a = 8%nat -> length b = 32%nat -> length c = 32%nat ->
  length e = 64%nat ->
  let msg := (((a ++ b) ++ c) ++ [f]) ++ e in
  length msg = 137%nat
  /\ slice 0 8 msg = a
  /\ slice 8 40 msg = b
  /\ slice 40 72 msg = c
  /\ msg !! 72%nat = Some f
  /\ slice 0 73 msg = ((a ++ b) ++ c) ++ [f]
  /\ slice 73 137 msg = e.
Proof.
  intros Ha Hb Hc He msg. unfold msg. repeat split.
  - rewrite !length_app, Ha, Hb, Hc, He. reflexivity.
  - rewrite <- !app_assoc. apply slice_prefix. lia.
  - rewrite <- !app_assoc. apply slice_middle; lia.
  - rewrite <- !app_assoc. rewrite (app_assoc a b).
    apply slice_middle; rewrite ?length_app; lia.
  - rewrite <- (app_assoc _ [f] e). simpl.
    apply list_lookup_middle. rewrite !length_app. lia.
  - apply slice_prefix. rewrite !length_app. simpl. lia.
  - rewrite <- (app_nil_r e) at 1.
    apply slice_middle; rewrite ?length_app; simpl; lia.
Qed.

(** The signer rebuilt from the public spend key of a configured node has
    the hash of the node's own signer. *)
Lemma received_signer_hash {C : Crypto} {L : CryptoLaws C} (signer : Address) :
  signer = loadNodeConfig_address (PrivateSpendKey signer) ->
  AddressHash (received_signer (PublicSpendKey signer)) = AddressHash signer.
Proof.
  intros Hs. apply address_hash_public; simpl; [reflexivity|].
  rewrite Hs at 2. simpl. rewrite Hs at 1. reflexivity.
Qed.

(** C6.  For a node whose signer address was derived by [loadNodeConfig] and
    whose id is the network hash of that address, and for a recipient [R]
    other than the node itself, [AuthenticateAs R (BuildAuthenticationMessage
    R) timeoutSec] succeeds when the timeout check does not fire (the timeout
    is disabled or satisfied): the token carries the node's own id, its
    relayer flag, the Unix seconds at which the message was built, and the
    message. *)
Theorem AuthenticateAs_own_message {C : Crypto} {L : CryptoLaws C} (node : Node)
    (buildUnix verifyUnix timeoutSec : Z) (R : Hash) :
  nodeSigner node = loadNodeConfig_address (PrivateSpendKey (nodeSigner node)) ->
  nodeIdForNetwork node
  = ForNetwork (AddressHash (nodeSigner node)) (networkId node) ->
  R <> nodeIdForNetwork node ->
  0 <= buildUnix < I64.half ->
  auth_timed_out verifyUnix buildUnix timeoutSec = false ->
  AuthenticateAs node verifyUnix R
    (BuildAuthenticationMessage node buildUnix R) timeoutSec
  = inr (mkAuthToken (nodeIdForNetwork node) buildUnix (isRelayer node)
           (BuildAuthenticationMessage node buildUnix R)).
Proof.
  intros Hsigner Hid HR Hbuild Htimeout.
  assert (Hu : U64.ok buildUnix)
    by (unfold U64.ok, U64.modulus, I64.half in *; lia).
  unfold BuildAuthenticationMessage. cbv zeta.
  rewrite (U64_wrap_small _ Hu).
  set (flag := if isRelayer node then x01 else x00).
  set (msg := (_ ++ [flag]) ++ _).
  destruct (handshake_layout (PutUint64 buildUnix) (vec_to_list R)
              (vec_to_list (PublicSpendKey (nodeSigner node)))
              (vec_to_list
                 (Sign (PrivateSpendKey (nodeSigner node))
                    (Blake3Hash
                       (((PutUint64 buildUnix ++ vec_to_list R)
                         ++ vec_to_list (PublicSpendKey (nodeSigner node)))
                        ++ [flag]))))
              flag)
    as (Hlen & Hts & Hrec & Hpub & Hflag & Hsigned & Hsig);
    try apply length_vec_to_list; [apply length_be_encode|].
  fold msg in Hlen, Hts, Hrec, Hpub, Hflag, Hsigned, Hsig.
  unfold AuthenticateAs.
  rewrite Hlen, Hts, Hrec, Hpub, Hflag, Hsigned, Hsig. simpl negb.
  rewrite !to_array_vec_to_list.
  assert (Hdec : Uint64 (PutUint64 buildUnix) = buildUnix).
  { rewrite <- (app_nil_r (PutUint64 buildUnix)).
    apply Uint64_PutUint64. exact Hu. }
  rewrite Hdec, Htimeout.
  rewrite bool_decide_eq_true_2 by reflexivity. simpl negb.
  rewrite (received_signer_hash (nodeSigner node) Hsigner), <- Hid.
  rewrite bool_decide_eq_false_2 by (intros Heq; apply HR; symmetry; exact Heq).
  simpl PublicSpendKey.
  assert (Hpk : PublicSpendKey (nodeSigner node)
                = Public (PrivateSpendKey (nodeSigner node))).
  { rewrite Hsigner at 1. reflexivity. }
  rewrite Hpk at 1. rewrite verify_sign. simpl negb.
  do 2 f_equal. unfold flag. destruct (isRelayer node).
  - apply bool_decide_eq_true. reflexivity.
  - apply bool_decide_eq_false. discriminate.
Qed.

(** A message of the right length on which the timeout test fires is
    answered with Timeout. *)
Lemma AuthenticateAs_timed_out {C : Crypto} (node : Node) (nowUnix : Z)
    (R : Hash) (msg : list byte) (timeoutSec : Z) :
  length msg = 137%nat ->
  auth_timed_out nowUnix (Uint64 (slice 0 8 msg)) timeoutSec = true ->
  AuthenticateAs node nowUnix R msg timeoutSec = inl Timeout.
Proof.
  intros Hlen Ht. unfold AuthenticateAs. rewrite Hlen, Ht. reflexivity.
Qed.

(** C7.  [AuthenticateAs] returns an error and no token in five cases, tried
    in this order: the message is not 137 bytes long (MalformedMessage); the
    timeout is positive and [|now - ts|] exceeds it (Timeout); the
    recipient field is not the expected recipient (WrongRecipient); the peer
    id derived from the signer key is the recipient (SelfPeer); the signature
    does not verify against the hash of the first 73 bytes (BadSignature).
    In every other case it returns a token.  The timeout test is the
    [float64] comparison of the code, which is the comparison of the integers
    for a clock and a timeout below [2^52] seconds. *)
Theorem AuthenticateAs_errors {C : Crypto} (node : Node) (nowUnix : Z)
    (R : Hash) (msg : list byte) (timeoutSec : Z) :
  let result := AuthenticateAs node nowUnix R msg timeoutSec in
  let ts := Uint64 (slice 0 8 msg) in
  let recipient : Hash := to_array 32 (slice 8 40 msg) in
  let signer := received_signer (to_array 32 (slice 40 72 msg)) in
  let peerId := ForNetwork (AddressHash signer) (networkId node) in
  let verified :=
    Verify (PublicSpendKey signer) (Blake3Hash (slice 0 73 msg))
      (to_array 64 (slice 73 137 msg)) in
  let timed_out := auth_timed_out nowUnix ts timeoutSec in
  (length msg <> 137%nat -> result = inl MalformedMessage)
  /\ (length msg = 137%nat -> timed_out = true -> result = inl Timeout)
  /\ (length msg = 137%nat -> timed_out = false -> recipient <> R ->
      result = inl WrongRecipient)
  /\ (length msg = 137%nat -> timed_out = false -> recipient = R ->
      peerId = R -> result = inl SelfPeer)
  /\ (length msg = 137%nat -> timed_out = false -> recipient = R ->
      peerId <> R -> verified = false -> result = inl BadSignature)
  /\ (length msg = 137%nat -> timed_out = false -> recipient = R ->
      peerId <> R -> verified = true ->
      result = inr (mkAuthToken peerId ts
                      (bool_decide (msg !! 72%nat = Some x01)) msg))
  /\ (0 <= nowUnix < 2 ^ 52 -> timeoutSec < 2 ^ 52 ->
      (timed_out = true
       <-> 0 < timeoutSec /\ timeoutSec < Z.abs (nowUnix - ts))).
Proof.
  intros result ts recipient signer peerId verified timed_out.
  unfold result, AuthenticateAs.
  fold ts. fold timed_out. fold recipient. fold signer. fold peerId.
  fold verified.
  split_and!.
  - intros Hlen. apply Nat.eqb_neq in Hlen. rewrite Hlen. reflexivity.
  - intros Hlen Ht. apply AuthenticateAs_timed_out; assumption.
  - intros Hlen Ht Hr. rewrite Hlen, Ht. simpl negb. cbv iota.
    rewrite bool_decide_eq_false_2 by exact Hr. reflexivity.
  - intros Hlen Ht Hr Hp. rewrite Hlen, Ht. simpl negb. cbv iota.
    rewrite bool_decide_eq_true_2 by exact Hr. simpl negb. cbv iota.
    rewrite bool_decide_eq_true_2 by exact Hp. reflexivity.
  - intros Hlen Ht Hr Hp Hv. rewrite Hlen, Ht. simpl negb. cbv iota.
    rewrite bool_decide_eq_true_2 by exact Hr. simpl negb. cbv iota.
    rewrite bool_decide_eq_false_2 by exact Hp. rewrite Hv. reflexivity.
  - intros Hlen Ht Hr Hp Hv. rewrite Hlen, Ht. simpl negb. cbv iota.
    rewrite bool_decide_eq_true_2 by exact Hr. simpl negb. cbv iota.
    rewrite bool_decide_eq_false_2 by exact Hp. rewrite Hv. reflexivity.
  - intros Hnow Hsec. unfold timed_out.
    rewrite (auth_timed_out_exact nowUnix ts timeoutSec) by
      (try assumption; apply Uint64_ok).
    rewrite andb_true_iff, !Z.ltb_lt. tauto.
Qed.

(** ** The legacy handshake *)

(** The [int64] test of the legacy verifier, in the integers: a timestamp
    below [2^63] is rejected when it is more than three seconds old; one from
    [2^63] on is read as a negative number of seconds. *)
Lemma legacy_timed_out_iff (nowUnix ts : Z) :
  0 <= nowUnix < I64.half -> U64.ok ts ->
  (legacy_timed_out nowUnix ts = true
   <-> (ts < I64.half /\ 3 < nowUnix - ts)
       \/ (I64.half + nowUnix < ts /\ ts - nowUnix < U64.modulus - 3)).
Proof.
  intros Hnow Hts. unfold legacy_timed_out, I64.sub.
  unfold U64.ok, U64.modulus, I64.half in *.
  rewrite Z.ltb_lt.
  destruct (Z.lt_ge_cases ts (2 ^ 63)) as [Hlow|Hhigh].
  - rewrite (I64_wrap_small ts) by (unfold I64.ok, I64.half; lia).
    rewrite I64_wrap_small by (unfold I64.ok, I64.half; lia). lia.
  - rewrite (I64_wrap_high ts) by (unfold U64.modulus, I64.half; lia).
    unfold U64.modulus.
    destruct (Z.lt_ge_cases (nowUnix - (ts - 2 ^ 64)) (2 ^ 63)) as [Hd|Hd].
    + rewrite I64_wrap_small by (unfold I64.ok, I64.half; lia). lia.
    + rewrite I64_wrap_high by (unfold U64.modulus, I64.half; lia).
      unfold U64.modulus. lia.
Qed.

(** The legacy verifier answers Timeout exactly when its test fires. *)
Lemma Authenticate_timeout_iff {C : Crypto} (node : Node)
    (nowUnix nowNano : Z) (msg : list byte) :
  (8 + 32 + 64 <= length msg)%nat ->
  (Authenticate node nowUnix nowNano msg = inl LegacyTimeout
   <-> legacy_timed_out nowUnix (Uint64 (slice 0 8 msg)) = true).
Proof.
  intros Hlen. unfold Authenticate.
  destruct (Nat.ltb_spec (length msg) (8 + 32 + 64)) as [Hbad|_]; [lia|].
  destruct (legacy_timed_out nowUnix (Uint64 (slice 0 8 msg)));
    [split; reflexivity|].
  split; [|discriminate].
  repeat match goal with
         | |- context [if ?c then _ else _] => destruct c
         end; discriminate.
Qed.

(** C8, as the code has it.  On a legacy message of at least 8+32+64 bytes,
    with a clock after 1970, [Authenticate] answers Timeout exactly when the
    [int64] expression [now - int64(ts)] exceeds 3.  For a timestamp below
    [2^63] that is [now - ts > 3] on the integers: a message whose timestamp
    is 4 seconds old fails with Timeout, one exactly 3 seconds old passes
    the timeout check.  A timestamp from [2^63] on is read as the negative
    number [ts - 2^64]: up to [2^63 + now] the difference leaves the
    [int64] range, wraps to a negative number and the check passes; above
    [2^63 + now] the answer is Timeout when [now + 2^64 - ts > 3], although
    [now - ts] is negative. *)
Theorem Authenticate_timeout {C : Crypto} (node : Node)
    (nowUnix nowNano : Z) (msg : list byte) :
  (8 + 32 + 64 <= length msg)%nat -> 0 <= nowUnix < I64.half ->
  let ts := Uint64 (slice 0 8 msg) in
  let result := Authenticate node nowUnix nowNano msg in
  (result = inl LegacyTimeout
   <-> (ts < I64.half /\ nowUnix - ts > 3)
       \/ (I64.half + nowUnix < ts /\ nowUnix + U64.modulus - ts > 3))
  /\ (ts < I64.half -> (result = inl LegacyTimeout <-> nowUnix - ts > 3))
  /\ (ts = nowUnix - 4 -> result = inl LegacyTimeout)
  /\ (ts = nowUnix - 3 -> result <> inl LegacyTimeout)
  /\ (I64.half <= ts <= I64.half + nowUnix -> result <> inl LegacyTimeout)
  /\ (I64.half + nowUnix < ts -> 3 <= nowUnix ->
      result = inl LegacyTimeout /\ nowUnix - ts < 0).
Proof.
  intros Hlen Hnow ts result.
  pose proof (Authenticate_timeout_iff node nowUnix nowNano msg Hlen) as Hiff.
  fold ts result in Hiff.
  pose proof (Uint64_ok (slice 0 8 msg)) as Hts. fold ts in Hts.
  pose proof (legacy_timed_out_iff nowUnix ts Hnow Hts) as Hchar.
  rewrite <- Hiff in Hchar.
  unfold U64.ok, U64.modulus, I64.half in *.
  split_and!.
  - rewrite Hchar. lia.
  - intros Hlow. rewrite Hchar. lia.
  - intros Heq. apply Hchar. lia.
  - intros Heq Hres. apply Hchar in Hres. lia.
  - intros Hwrap Hres. apply Hchar in Hres. lia.
  - intros Hfar H3. split; [apply Hchar|]; lia.
Qed.

(** C8 as the spec states it fails: a timestamp with all 64 bits set lies in
    the future, so that [now - ts > 3] is false, and the legacy verifier
    answers Timeout. *)
Lemma Authenticate_timeout_on_future_timestamp :
  ~ (forall (C : Crypto) (node : Node) (nowUnix nowNano : Z) (msg : list byte),
       (8 + 32 + 64 <= length msg)%nat -> 0 <= nowUnix < I64.half ->
       (Authenticate node nowUnix nowNano msg = inl LegacyTimeout
        <-> nowUnix - Uint64 (slice 0 8 msg) > 3)).
Proof.
  intros Hstated.
  assert (Hlen : (8 + 32 + 64 <= length far_future_legacy_message)%nat)
    by (vm_compute; lia).
  assert (Hnow : 0 <= sample_now < I64.half)
    by (unfold sample_now, I64.half; lia).
  pose proof (proj1 (Hstated toy_crypto sample_verifier sample_now
                       sample_now_nano far_future_legacy_message Hlen Hnow))
    as Hpast.
  assert (Hres : @Authenticate toy_crypto sample_verifier sample_now
                   sample_now_nano far_future_legacy_message
                 = inl LegacyTimeout) by (vm_compute; reflexivity).
  specialize (Hpast Hres). vm_compute in Hpast. discriminate Hpast.
Qed.

(** C10, as the code has it.  With a clock after 1970, the legacy verifier
    lets pass every timestamp from three seconds ago up to [2^63 + now]
    seconds, that is every future time an [int64] can hold, and answers
    Timeout to one more than three seconds old; a timestamp above [2^63 +
    now] is read as a negative number of seconds and answered with Timeout
    (for a clock of at least 3).  The new handshake, given a positive timeout
    (clock and timeout below [2^52] seconds), rejects a timestamp further
    than the timeout from the clock in either direction. *)
Theorem Authenticate_future_timestamps {C : Crypto} (node : Node)
    (nowUnix nowNano : Z) (msg : list byte) :
  (8 + 32 + 64 <= length msg)%nat -> 0 <= nowUnix < I64.half ->
  let ts := Uint64 (slice 0 8 msg) in
  let result := Authenticate node nowUnix nowNano msg in
  (nowUnix - 3 <= ts <= I64.half + nowUnix -> result <> inl LegacyTimeout)
  /\ (ts < nowUnix - 3 -> result = inl LegacyTimeout)
  /\ (I64.half + nowUnix < ts -> 3 <= nowUnix -> result = inl LegacyTimeout)
  /\ (forall (R : Hash) (m : list byte) (timeoutSec : Z),
        length m = 137%nat -> 0 < timeoutSec < 2 ^ 52 -> nowUnix < 2 ^ 52 ->
        timeoutSec < Z.abs (nowUnix - Uint64 (slice 0 8 m)) ->
        AuthenticateAs node nowUnix R m timeoutSec = inl Timeout).
Proof.
  intros Hlen Hnow ts result.
  pose proof (Authenticate_timeout_iff node nowUnix nowNano msg Hlen) as Hiff.
  fold ts result in Hiff.
  pose proof (Uint64_ok (slice 0 8 msg)) as Hts. fold ts in Hts.
  pose proof (legacy_timed_out_iff nowUnix ts Hnow Hts) as Hchar.
  unfold U64.ok, U64.modulus, I64.half in *.
  split_and!.
  - intros Hrange Hres. apply Hiff, Hchar in Hres. lia.
  - intros Hpast. apply Hiff, Hchar. lia.
  - intros Hfar H3. apply Hiff, Hchar. lia.
  - intros R m timeoutSec Hm Hsec Hn52 Hfar.
    apply AuthenticateAs_timed_out; [exact Hm|].
    rewrite auth_timed_out_exact by (try apply Uint64_ok; lia).
    apply andb_true_iff. rewrite !Z.ltb_lt. lia.
Qed.

(** C10 as the spec states it fails: a timestamp with all 64 bits set is at
    least [now - 3], and the legacy verifier answers Timeout, because
    [int64(ts)] is [-1]. *)
Lemma Authenticate_rejects_far_future :
  ~ (forall (C : Crypto) (node : Node) (nowUnix nowNano : Z) (msg : list byte),
       (8 + 32 + 64 <= length msg)%nat ->
       nowUnix - 3 <= Uint64 (slice 0 8 msg) ->
       Authenticate node nowUnix nowNano msg <> inl LegacyTimeout).
Proof.
  intros Hstated.
  apply (Hstated toy_crypto sample_verifier sample_now sample_now_nano
           far_future_legacy_message).
  - vm_compute. lia.
  - vm_compute. intros Hgt. discriminate Hgt.
  - vm_compute. reflexivity.
Qed.

Lemma Authenticate_future_timestamps_witness :
  @Authenticate toy_crypto sample_verifier sample_now sample_now_nano
    (@BuildLegacyAuthenticationMessage toy_crypto sample_auth_node
       (sample_now + 1000000))
  <> inl LegacyTimeout.
Proof.
  assert (Hts : Uint64 (slice 0 8
                  (@BuildLegacyAuthenticationMessage toy_crypto
                     sample_auth_node (sample_now + 1000000)))
                = sample_now + 1000000) by (vm_compute; reflexivity).
  refine (proj1 (@Authenticate_future_timestamps toy_crypto sample_verifier
                   sample_now sample_now_nano _ _ _) _).
  - vm_compute. lia.
  - unfold sample_now, I64.half. lia.
  - rewrite Hts. unfold sample_now, I64.half. lia.
Defined.

(** ** The graph pusher *)

(** Whatever happens, the goroutine stays in its loop. *)
Lemma pusher_never_returns (node : Node) (evs : list PusherEvent) :
  fst (pusher_run node PusherBlocked evs) = PusherBlocked.
Proof.
  induction evs as [|ev evs IH]; simpl; [reflexivity|].
  destruct ev; simpl;
    destruct (pusher_run node PusherBlocked evs); simpl in *; exact IH.
Qed.

Lemma sends_after_done_round (node : Node) (now : Z) (rest : list PusherObs) :
  sends_after_done (push_round node now ++ rest) = sends_after_done rest.
Proof.
  unfold push_round.
  induction (NodesListWithoutState node now true) as [|cn l IH]; simpl; auto.
Qed.

Lemma filter_round (node : Node) (now : Z) :
  List.filter (fun o => match o with
                        | SendGraphMessage _ => true
                        | DoneObserved => false
                        end) (push_round node now)
  = push_round node now.
Proof.
  unfold push_round.
  induction (NodesListWithoutState node now true) as [|cn l IH]; simpl;
    [reflexivity|]. rewrite IH. reflexivity.
Qed.

(** A tick that comes after [done] was closed starts a full pass. *)
Lemma pusher_sends_after_done (node : Node) (now0 now1 : Z) :
  sendGraphToConcensusNodes node now0 [DoneClosed; TickDelivered now1]
  = (PusherBlocked,
     push_round node now0 ++ DoneObserved :: push_round node now1)
  /\ sends_after_done
       (snd (sendGraphToConcensusNodes node now0
               [DoneClosed; TickDelivered now1]))
     = push_round node now1.
Proof.
  unfold sendGraphToConcensusNodes. simpl. rewrite app_nil_r.
  split; [reflexivity|].
  rewrite sends_after_done_round. simpl. apply filter_round.
Qed.

(** C9, on the code.  The pusher is started on the sample network, [done] is
    closed, and the ticker delivers its next tick one and a half seconds
    later: the goroutine is still in its loop and has sent a graph message
    to each of the seven accepted nodes after [done] was closed. *)
Theorem sendGraphToConcensusNodes_sends_after_done :
  let run :=
    sendGraphToConcensusNodes sample_network sample_now_nano
      [DoneClosed; TickDelivered (sample_now_nano + 1500000000)] in
  fst run = PusherBlocked
  /\ sends_after_done (snd run)
     = map (fun b => SendGraphMessage (sample_hash b)) genesis_bytes.
Proof.
  intros run. unfold run.
  destruct (pusher_sends_after_done sample_network sample_now_nano
              (sample_now_nano + 1500000000)) as [Hrun Hsends].
  split.
  - rewrite Hrun. reflexivity.
  - rewrite Hsends. vm_compute. reflexivity.
Qed.

(** ** The theorems on the sample data *)

Lemma sample_config_sane : config_sane sample_config.
Proof.
  repeat split; simpl; unfold U64.modulus, I64.half, Hour, Minute; lia.
Qed.

Lemma frozen_clock_frozen (now : Z) : frozen (frozen_clock now) now.
Proof. intros k. reflexivity. Qed.

(** The sync points of a map built from a list are those of the list. *)
Lemma sync_points_ok_list (l : list (Hash * option SyncPoint)) :
  Forall (fun kv => match kv.2 with
                    | Some remote => U64.ok (spNumber remote)
                    | None => True
                    end) l ->
  sync_points_ok (list_to_map l).
Proof.
  intros Hall id remote Hl. unfold sync_lookup in Hl.
  destruct (list_to_map l !! id) as [[r|]|] eqn:Hm; simpl in Hl;
    try discriminate.
  injection Hl as <-.
  apply elem_of_list_to_map_2 in Hm.
  rewrite Forall_forall in Hall. exact (Hall (id, Some r) Hm).
Qed.

Lemma sample_sync_points_ok : sync_points_ok sample_sync_points.
Proof.
  apply sync_points_ok_list.
  repeat constructor; simpl; unfold U64.ok, U64.modulus; lia.
Qed.

Lemma sample_sync_points_nonempty : SyncPointsMap sample_network <> ∅.
Proof.
  intros Hempty.
  apply (f_equal (fun m : gmap Hash (option SyncPoint) =>
                    bool_decide (is_Some (m !! sample_hash x01)))) in Hempty.
  vm_compute in Hempty. discriminate Hempty.
Qed.

Lemma ConsensusReady_spec_witness :
  ConsensusReady sample_config sample_network
    (sample_cnode x09 1000 Accepted) (1000 + 12 * Hour) = false
  /\ ConsensusReady sample_config sample_network
       (sample_cnode x09 1000 Accepted) (1000 + 12 * Hour + 1) = true.
Proof.
  destruct (ConsensusReady_spec sample_config sample_network
              (sample_cnode x09 1000 Accepted) 0) as (_ & _ & _ & Hedge).
  destruct Hedge as (_ & Hat & Hafter).
  - reflexivity.
  - vm_compute. reflexivity.
  - simpl. lia.
  - simpl. unfold Hour, Minute. lia.
  - simpl. unfold U64.modulus, Hour, Minute. lia.
  - split; [exact Hat | exact Hafter].
Defined.

Lemma ConsensusThreshold_spec_witness :
  ConsensusThreshold sample_config sample_network sample_now_nano false
  = Some (quorum sample_config
            (Z.of_nat
               (length
                  (List.filter
                     (counted_exact sample_config sample_network
                        sample_now_nano false)
                     (NodesListWithoutState sample_network sample_now_nano
                        false))))).
Proof.
  destruct (ConsensusThreshold_spec sample_config sample_network
              sample_now_nano false sample_config_sane) as (_ & Hexact & _).
  apply Hexact. intros cn Hin. vm_compute in Hin.
  repeat (destruct Hin as [<- | Hin];
          [simpl; unfold U64.modulus, Hour, Minute; lia|]).
  destruct Hin.
Defined.

(** C3 as the spec states it fails: with the sum of the integers every
    remote at the number [2^64 - 1] is counted.  In [wrapped_network] the
    seven genesis nodes reported that number and the final round is 100: the
    count of the code stays at 1 and the check returns false, where the
    count of the integers is 8 and reaches the threshold 6. *)
Lemma CheckBroadcastedToP2PPeers_wraps_round_number :
  ~ (forall (cfg : Config) (node : Node) (clk : Clock) (st : ChainState)
            (threshold : Z),
       config_sane cfg -> sync_points_ok (SyncPointsMap node) ->
       SyncPointsMap node <> ∅ -> ChainStateOf (chain node) = Some st ->
       ConsensusThreshold cfg node (clk 0%nat) false = Some threshold ->
       CheckBroadcastedToP2PPeers cfg node clk
       = Some (threshold
               <=? 1 + count_nodes
                         (broadcast_counted_exact (SyncPointsMap node)
                            (frNumber (FinalRoundOf st)))
                         (NodesListWithoutState node (clk 1%nat) true))).
Proof.
  intros Hstated.
  specialize (Hstated sample_config wrapped_network
                (ticking_clock sample_now_nano) sample_chain_state 6
                sample_config_sane).
  assert (Hok : sync_points_ok (SyncPointsMap wrapped_network)).
  { apply sync_points_ok_list.
    repeat constructor; simpl; unfold U64.ok, U64.modulus; lia. }
  assert (Hne : SyncPointsMap wrapped_network <> ∅).
  { intros Hempty.
    assert (Hl : SyncPointsMap wrapped_network !! sample_hash x01 = None)
      by (rewrite Hempty; apply lookup_empty).
    vm_compute in Hl. discriminate Hl. }
  specialize (Hstated Hok Hne eq_refl).
  assert (Hthr : ConsensusThreshold sample_config wrapped_network
                   (ticking_clock sample_now_nano 0%nat) false = Some 6)
    by (vm_compute; reflexivity).
  specialize (Hstated Hthr). vm_compute in Hstated. discriminate Hstated.
Qed.

Lemma CheckBroadcastedToP2PPeers_spec_witness :
  CheckBroadcastedToP2PPeers sample_config sample_network
    (ticking_clock sample_now_nano) = Some true.
Proof.
  destruct (CheckBroadcastedToP2PPeers_spec sample_config sample_network
              (ticking_clock sample_now_nano)) as [_ Hcount].
  destruct (Hcount sample_chain_state sample_sync_points_nonempty eq_refl
              sample_config_sane)
    as (threshold & Hthr & Heq & _).
  rewrite Heq. vm_compute in Hthr. injection Hthr as <-.
  vm_compute. reflexivity.
Defined.

Lemma CheckCatchUpWithP2PPeers_spec_witness :
  CheckCatchUpWithP2PPeers sample_config sample_network
    (ticking_clock sample_now_nano) = Some true.
Proof.
  destruct (CheckCatchUpWithP2PPeers_spec sample_config sample_network
              (ticking_clock sample_now_nano)) as [_ Hwalk].
  assert (Hfinal : U64.ok (frNumber (FinalRoundOf sample_chain_state)))
    by (simpl; unfold U64.ok, U64.modulus; lia).
  destruct (Hwalk sample_chain_state sample_sync_points_nonempty eq_refl
              sample_config_sane Hfinal sample_sync_points_ok)
    as (threshold & walk & Hthr & Heq & Hiff & _).
  rewrite Heq. vm_compute in Hthr. injection Hthr as <-.
  assert (Hpass : walk = true).
  { apply Hiff. intros i cn Hi.
    vm_compute in Hi.
    do 7 (destruct i as [|i];
          [injection Hi as <-; vm_compute; reflexivity|]).
    destruct i; discriminate Hi. }
  rewrite Hpass. vm_compute. reflexivity.
Defined.

Lemma sample_signer_configured :
  nodeSigner sample_auth_node
  = @loadNodeConfig_address toy_crypto
      (PrivateSpendKey (nodeSigner sample_auth_node)).
Proof. reflexivity. Qed.

Lemma AuthenticateAs_own_message_witness :
  @AuthenticateAs toy_crypto sample_auth_node sample_now (sample_hash x09)
    (@BuildAuthenticationMessage toy_crypto sample_auth_node (sample_now - 3)
       (sample_hash x09)) 10
  = inr (mkAuthToken (nodeIdForNetwork sample_auth_node) (sample_now - 3)
           (isRelayer sample_auth_node)
           (@BuildAuthenticationMessage toy_crypto sample_auth_node
              (sample_now - 3) (sample_hash x09))).
Proof.
  apply (@AuthenticateAs_own_message toy_crypto toy_crypto_laws).
  - exact sample_signer_configured.
  - reflexivity.
  - intros Heq. vm_compute in Heq. discriminate Heq.
  - unfold sample_now, I64.half. lia.
  - vm_compute. reflexivity.
Defined.

Lemma AuthenticateAs_errors_witness :
  @AuthenticateAs toy_crypto sample_verifier sample_now (sample_hash x09)
    [x00; x01; x02] 10 = inl MalformedMessage
  /\ @AuthenticateAs toy_crypto sample_verifier sample_now (sample_hash x09)
       (@BuildAuthenticationMessage toy_crypto sample_auth_node
          (sample_now - 11) (sample_hash x09)) 10 = inl Timeout
  /\ @AuthenticateAs toy_crypto sample_verifier sample_now (sample_hash x09)
       (@BuildAuthenticationMessage toy_crypto sample_auth_node
          (sample_now - 3) (sample_hash x0a)) 10 = inl WrongRecipient.
Proof.
  split_and!.
  - apply (proj1 (@AuthenticateAs_errors toy_crypto sample_verifier
                    sample_now (sample_hash x09) [x00; x01; x02] 10)).
    simpl. lia.
  - apply (proj1 (proj2 (@AuthenticateAs_errors toy_crypto sample_verifier
                           sample_now (sample_hash x09) _ 10)));
      vm_compute; reflexivity.
  - apply (proj1 (proj2 (proj2 (@AuthenticateAs_errors toy_crypto
                                  sample_verifier sample_now
                                  (sample_hash x09) _ 10))));
      [vm_compute; reflexivity | vm_compute; reflexivity |].
    intros Heq. vm_compute in Heq. discriminate Heq.
Defined.

Lemma Authenticate_timeout_witness :
  @Authenticate toy_crypto sample_verifier sample_now sample_now_nano
    (@BuildLegacyAuthenticationMessage toy_crypto sample_auth_node
       (sample_now - 4)) = inl LegacyTimeout
  /\ @Authenticate toy_crypto sample_verifier sample_now sample_now_nano
       (@BuildLegacyAuthenticationMessage toy_crypto sample_auth_node
          (sample_now - 3)) <> inl LegacyTimeout
  /\ @Authenticate toy_crypto sample_verifier sample_now sample_now_nano
       far_future_legacy_message = inl LegacyTimeout.
Proof.
  assert (Hnow : 0 <= sample_now < I64.half)
    by (unfold sample_now, I64.half; lia).
  split_and!.
  - refine (proj1 (proj2 (proj2
              (@Authenticate_timeout toy_crypto sample_verifier sample_now
                 sample_now_nano _ _ Hnow))) _).
    + vm_compute. lia.
    + vm_compute. reflexivity.
  - refine (proj1 (proj2 (proj2 (proj2
              (@Authenticate_timeout toy_crypto sample_verifier sample_now
                 sample_now_nano _ _ Hnow)))) _).
    + vm_compute. lia.
    + vm_compute. reflexivity.
  - refine (proj1 (proj2 (proj2 (proj2 (proj2 (proj2
              (@Authenticate_timeout toy_crypto sample_verifier sample_now
                 sample_now_nano far_future_legacy_message _ Hnow))))) _ _)).
    + vm_compute. lia.
    + vm_compute. reflexivity.
    + unfold sample_now. lia.
Defined.

(** * Further properties of the registry *)

(** ** The sequence index against the direct computation *)

Lemma collect_latest_before (threshold : Z) (pre post : list CNode) :
  forall m,
    Forall (fun n => Timestamp n < threshold) pre ->
    collect_latest threshold (pre ++ post) m
    = collect_latest threshold post (insert_all m pre).
Proof.
  induction pre as [|n pre IH]; intros m Hpre; simpl; [reflexivity|].
  apply Forall_cons in Hpre as [Hn Hpre].
  destruct (Z.leb_spec threshold (Timestamp n)); [lia|].
  apply IH. exact Hpre.
Qed.

Lemma collect_latest_stop (threshold : Z) (post : list CNode)
    (m : gmap Hash CNode) :
  Forall (fun n => threshold <= Timestamp n) post ->
  collect_latest threshold post m = m.
Proof.
  intros Hpost. destruct post as [|n post]; simpl; [reflexivity|].
  apply Forall_cons in Hpost as [Hn _].
  destruct (Z.leb_spec threshold (Timestamp n)); [reflexivity|lia].
Qed.

(** In a sorted registry the entries before a threshold are a prefix. *)
Lemma registry_split (T : Z) (all : list CNode) :
  registry_sorted all ->
  exists pre post,
    all = pre ++ post
    /\ Forall (fun n => Timestamp n < T) pre
    /\ Forall (fun n => T <= Timestamp n) post.
Proof.
  unfold registry_sorted.
  induction all as [|x all IH]; intros Hs.
  - exists [], []. repeat split; constructor.
  - apply StronglySorted_inv in Hs as [Hs Hx].
    destruct (Z.lt_ge_cases (Timestamp x) T) as [Hlt|Hge].
    + destruct (IH Hs) as (pre & post & -> & Hpre & Hpost).
      exists (x :: pre), post. repeat split; [constructor; assumption|exact Hpost].
    + exists [], (x :: all). repeat split; [constructor|].
      constructor; [exact Hge|].
      eapply Forall_impl; [exact Hx|]. simpl. intros y Hy. lia.
Qed.

Lemma latest_entries_split (node : Node) (T : Z) (pre post : list CNode) :
  allNodesSortedWithState node = pre ++ post ->
  Forall (fun n => Timestamp n < T) pre ->
  Forall (fun n => T <= Timestamp n) post ->
  latest_entries node T = insert_all ∅ pre.
Proof.
  intros Hall Hpre Hpost. unfold latest_entries. rewrite Hall.
  rewrite collect_latest_before by exact Hpre.
  apply collect_latest_stop. exact Hpost.
Qed.

Lemma scan_sequences_skip (T : Z) (late rest : list NodeStateSequence) :
  Forall (fun s => T <= seqTimestamp s) late ->
  scan_sequences T (late ++ rest) = scan_sequences T rest.
Proof.
  induction 1 as [|s late Hs _ IH]; simpl; [reflexivity|].
  destruct (Z.ltb_spec (seqTimestamp s) T); [lia|exact IH].
Qed.

Lemma sequence_of_no_entries (acceptedOnly : bool) :
  sequence_of_entries acceptedOnly (map_to_list (∅ : gmap Hash CNode)).*2 = [].
Proof. rewrite map_to_list_empty. reflexivity. Qed.

(** The scan of the sequence array is the direct computation, for either
    array. *)
Lemma scan_built_sequences (node : Node) (T : Z) (acceptedOnly : bool) :
  registry_sorted (allNodesSortedWithState node) ->
  Forall (fun n => U64.ok (Timestamp n)) (allNodesSortedWithState node) ->
  U64.ok T ->
  scan_sequences T
    (rev (buildNodeStateSequences node (allNodesSortedWithState node)
            acceptedOnly))
  = nodeSequenceWithoutState node T acceptedOnly.
Proof.
  intros Hsorted Hok HT.
  destruct (registry_split T _ Hsorted) as (pre & post & Hall & Hpre & Hpost).
  unfold nodeSequenceWithoutState.
  rewrite (latest_entries_split node T pre post Hall Hpre Hpost).
  unfold buildNodeStateSequences. rewrite Hall at 1.
  rewrite map_app, rev_app_distr.
  rewrite scan_sequences_skip.
  2: { apply Forall_rev. apply Forall_map. simpl. exact Hpost. }
  destruct pre as [|n0 pre0] using rev_ind.
  - simpl. symmetry. apply sequence_of_no_entries.
  - clear IHpre0. rewrite map_app, rev_app_distr. simpl.
    apply Forall_app in Hpre as [Hpre0 Hn0].
    apply Forall_cons in Hn0 as [Hn0 _].
    destruct (Z.ltb_spec (Timestamp n0) T); [|lia].
    unfold nodeSequenceWithoutState. f_equal. f_equal. f_equal.
    rewrite Hall in Hsorted, Hok. unfold registry_sorted in Hsorted.
    apply StronglySorted_app in Hsorted as (Hcross & Hspre & _).
    apply StronglySorted_app in Hspre as (Hcross0 & _ & _).
    assert (Hn0ok : U64.ok (Timestamp n0)).
    { rewrite Forall_forall in Hok. apply Hok.
      apply elem_of_app. left. apply elem_of_app. right. constructor. }
    unfold U64.ok in *.
    rewrite U64_add_small by lia.
    apply (latest_entries_split node (Timestamp n0 + 1) (pre0 ++ [n0]) post Hall).
    + apply Forall_app. split.
      * apply Forall_forall. intros x Hx.
        assert (Timestamp x <= Timestamp n0)
          by (apply Hcross0; [exact Hx | constructor]).
        lia.
      * constructor; [lia|constructor].
    + eapply Forall_impl; [exact Hpost|]. simpl. intros y Hy. lia.
Qed.

(** On a loaded node the lookup in the sequence array is the direct
    computation. *)
Lemma NodesListWithoutState_loaded (node : Node) (T : Z) (acceptedOnly : bool) :
  node_loaded node -> U64.ok T ->
  NodesListWithoutState node T acceptedOnly
  = nodeSequenceWithoutState node T acceptedOnly.
Proof.
  intros [Hsorted Hok Hseq Hacc] HT. unfold NodesListWithoutState.
  destruct acceptedOnly; [rewrite Hacc | rewrite Hseq];
    apply scan_built_sequences; assumption.
Qed.

(** ** [LoadConsensusNodes] *)

Lemma sort_insert_by_perm {A} (less : A -> A -> bool) (x : A) (l : list A) :
  sort_insert_by less x l ≡ₚ x :: l.
Proof.
  induction l as [|y l IH]; simpl; [reflexivity|].
  destruct (less x y); [reflexivity|].
  rewrite IH. apply Permutation_swap.
Qed.

Lemma sort_Slice_by_perm {A} (less : A -> A -> bool) (l : list A) :
  sort_Slice_by less l ≡ₚ l.
Proof.
  induction l as [|x l IH]; simpl; [reflexivity|].
  rewrite sort_insert_by_perm, IH. reflexivity.
Qed.

(** The insertion sort orders its input under any transitive relation the
    comparison decides in both directions. *)
Lemma sort_Slice_by_sorted {A} (less : A -> A -> bool) (R : A -> A -> Prop) :
  (forall x y, less x y = true -> R x y) ->
  (forall x y, less x y = false -> R y x) ->
  (forall x y z, R x y -> R y z -> R x z) ->
  forall l, StronglySorted R (sort_Slice_by less l).
Proof.
  intros Htrue Hfalse Htrans.
  assert (Hins : forall x l, StronglySorted R l ->
                             StronglySorted R (sort_insert_by less x l)).
  { intros x l. induction l as [|y l IH]; simpl; intros Hs.
    - constructor; constructor.
    - apply StronglySorted_inv in Hs as [Hl Hy].
      destruct (less x y) eqn:Hxy.
      + constructor; [constructor; assumption|].
        constructor; [apply Htrue; exact Hxy|].
        eapply Forall_impl; [exact Hy|]. simpl. intros z Hz.
        eapply Htrans; [apply Htrue; exact Hxy | exact Hz].
      + constructor; [apply IH; exact Hl|].
        rewrite (sort_insert_by_perm less x l).
        constructor; [apply Hfalse; exact Hxy | exact Hy]. }
  induction l as [|x l IH]; simpl; [constructor|]. apply Hins, IH.
Qed.

Lemma sorted_map {A B} (f : A -> B) (R : B -> B -> Prop) (l : list A) :
  StronglySorted (fun a b => R (f a) (f b)) l -> StronglySorted R (map f l).
Proof.
  induction 1 as [|x l _ IH Hx]; simpl; constructor; [exact IH|].
  apply Forall_map. exact Hx.
Qed.

Lemma canonical_le_timestamps (a b : CNode) :
  canonical_le a b -> Timestamp a <= Timestamp b.
Proof. unfold canonical_le. intros [Hlt | [Heq _]]; lia. Qed.

(** The registry [LoadConsensusNodes] stores is in canonical order. *)
Lemma loaded_registry_canonical (idFor : StoreNode -> Hash -> Hash)
    (networkId : Hash) (stored : list StoreNode) :
  StronglySorted canonical_le
    (map (cnode_of_store idFor networkId)
       (sort_Slice_by (less_store idFor networkId) stored)).
Proof.
  apply sorted_map. apply sort_Slice_by_sorted.
  - intros x y Hxy.
    apply (less_true_le (cnode_of_store idFor networkId x)
             (cnode_of_store idFor networkId y)). exact Hxy.
  - intros x y Hxy.
    apply (less_false_le (cnode_of_store idFor networkId x)
             (cnode_of_store idFor networkId y)). exact Hxy.
  - intros x y z. apply canonical_le_trans.
Qed.

Lemma canonical_registry_sorted (all : list CNode) :
  StronglySorted canonical_le all -> registry_sorted all.
Proof.
  unfold registry_sorted.
  induction 1 as [|x l _ IH Hx]; constructor; [exact IH|].
  eapply Forall_impl; [exact Hx|]. apply canonical_le_timestamps.
Qed.

(** The sequences are computed from the registry of the node and from
    nothing else. *)
Lemma nodeSequenceWithoutState_registry (node1 node2 : Node) (T : Z)
    (acceptedOnly : bool) :
  allNodesSortedWithState node1 = allNodesSortedWithState node2 ->
  nodeSequenceWithoutState node1 T acceptedOnly
  = nodeSequenceWithoutState node2 T acceptedOnly.
Proof.
  intros Hall. unfold nodeSequenceWithoutState, latest_entries.
  rewrite Hall. reflexivity.
Qed.

Lemma buildNodeStateSequences_registry (node1 node2 : Node)
    (l : list CNode) (acceptedOnly : bool) :
  allNodesSortedWithState node1 = allNodesSortedWithState node2 ->
  buildNodeStateSequences node1 l acceptedOnly
  = buildNodeStateSequences node2 l acceptedOnly.
Proof.
  intros Hall. unfold buildNodeStateSequences. apply map_ext. intros n.
  f_equal. apply nodeSequenceWithoutState_registry. exact Hall.
Qed.

Lemma LoadConsensusNodes_loaded (idFor : StoreNode -> Hash -> Hash)
    (readAllNodes : Z -> bool -> list StoreNode) (node : Node) (nowNano : Z) :
  Forall (fun n => U64.ok (snTimestamp n))
    (readAllNodes (U64.mul nowNano 2) true) ->
  node_loaded (LoadConsensusNodes idFor readAllNodes node nowNano).
Proof.
  intros Hok. unfold LoadConsensusNodes. cbv zeta. split; simpl.
  - apply canonical_registry_sorted, loaded_registry_canonical.
  - apply Forall_map. simpl.
    rewrite (sort_Slice_by_perm
               (less_store idFor (networkId node))
               (readAllNodes (U64.mul nowNano 2) true)).
    exact Hok.
  - apply buildNodeStateSequences_registry. reflexivity.
  - apply buildNodeStateSequences_registry. reflexivity.
Qed.

(** X1.  After [LoadConsensusNodes] the registry holds the records of the
    store in canonical order, and for every [uint64] threshold and either
    flag the lookup [NodesListWithoutState] in the precomputed sequence array
    returns what [nodeSequenceWithoutState] computes directly from the
    registry (the empty list when no record is older than the threshold). *)
Theorem LoadConsensusNodes_index (idFor : StoreNode -> Hash -> Hash)
    (readAllNodes : Z -> bool -> list StoreNode) (node : Node)
    (nowNano T : Z) (acceptedOnly : bool) :
  let stored := readAllNodes (U64.mul nowNano 2) true in
  let loaded := LoadConsensusNodes idFor readAllNodes node nowNano in
  Forall (fun n => U64.ok (snTimestamp n)) stored -> U64.ok T ->
  allNodesSortedWithState loaded
  ≡ₚ map (cnode_of_store idFor (networkId node)) stored
  /\ StronglySorted canonical_le (allNodesSortedWithState loaded)
  /\ NodesListWithoutState loaded T acceptedOnly
     = nodeSequenceWithoutState loaded T acceptedOnly
  /\ (Forall (fun n => T <= snTimestamp n) stored ->
      NodesListWithoutState loaded T acceptedOnly = []).
Proof.
  intros stored loaded Hok HT.
  pose proof (LoadConsensusNodes_loaded idFor readAllNodes node nowNano Hok)
    as Hloaded. fold loaded in Hloaded.
  assert (Hperm : allNodesSortedWithState loaded
                  ≡ₚ map (cnode_of_store idFor (networkId node)) stored).
  { unfold loaded, LoadConsensusNodes. cbv zeta. simpl.
    apply Permutation_map. apply sort_Slice_by_perm. }
  split_and!.
  - exact Hperm.
  - apply loaded_registry_canonical.
  - apply NodesListWithoutState_loaded; assumption.
  - intros Hlate.
    rewrite NodesListWithoutState_loaded by assumption.
    unfold nodeSequenceWithoutState.
    rewrite (latest_entries_split loaded T [] (allNodesSortedWithState loaded));
      [apply sequence_of_no_entries | reflexivity | constructor |].
    rewrite Hperm. apply Forall_map. exact Hlate.
Qed.

(** ** What the node sequence contains *)

Lemma same_entry_refl (a : CNode) : same_entry a a.
Proof. repeat split. Qed.

Lemma same_entry_trans (a b c : CNode) :
  same_entry a b -> same_entry b c -> same_entry a c.
Proof.
  unfold same_entry.
  intros (-> & -> & -> & -> & -> & ->) (-> & -> & -> & -> & -> & ->).
  repeat split.
Qed.

(** The entry found under a key after a run of insertions is the last one
    inserted under that key. *)
Lemma insert_all_lookup (l : list CNode) : forall (m : gmap Hash CNode) k n,
  insert_all m l !! k = Some n ->
  (m !! k = Some n /\ Forall (fun x => IdForNetwork x <> k) l)
  \/ exists l1 l2,
       l = l1 ++ n :: l2 /\ IdForNetwork n = k
       /\ Forall (fun x => IdForNetwork x <> k) l2.
Proof.
  induction l as [|x l IH]; intros m k n Hl; simpl in Hl.
  - left. split; [exact Hl | constructor].
  - destruct (IH _ _ _ Hl) as [[Hm Hnone] | (l1 & l2 & -> & Hid & Hnone)].
    + destruct (decide (IdForNetwork x = k)) as [Hx | Hx].
      * subst k. rewrite lookup_insert_eq in Hm. injection Hm as ->.
        right. exists [], l. repeat split. exact Hnone.
      * rewrite lookup_insert_ne in Hm by exact Hx.
        left. split; [exact Hm | constructor; assumption].
    + right. exists (x :: l1), l2. repeat split; assumption.
Qed.

Lemma insert_all_lookup_member (l : list CNode) :
  forall (m : gmap Hash CNode) x,
    x ∈ l -> is_Some (insert_all m l !! IdForNetwork x).
Proof.
  induction l as [|y l IH] using rev_ind; intros m x Hx.
  - apply elem_of_nil in Hx. contradiction.
  - unfold insert_all. rewrite foldl_app. simpl. fold (insert_all m l).
    destruct (decide (IdForNetwork y = IdForNetwork x)) as [Heq | Hne].
    + rewrite Heq, lookup_insert_eq. eauto.
    + rewrite lookup_insert_ne by exact Hne. apply IH.
      apply elem_of_app in Hx as [Hx | Hx]; [exact Hx|].
      apply list_elem_of_singleton in Hx. congruence.
Qed.

Lemma copy_nodes_member (acceptedOnly : bool) (l : list CNode) (cn : CNode) :
  cn ∈ copy_nodes acceptedOnly l ->
  exists n, n ∈ l /\ same_entry cn n
            /\ (acceptedOnly = true -> State n = Accepted).
Proof.
  induction l as [|x l IH]; simpl; intros Hin.
  - apply elem_of_nil in Hin. contradiction.
  - destruct (negb acceptedOnly || bool_decide (State x = Accepted)) eqn:Hkeep.
    + apply elem_of_cons in Hin as [-> | Hin].
      * exists x. split; [left|]. split; [repeat split|].
        intros ->. simpl in Hkeep. apply bool_decide_eq_true in Hkeep.
        exact Hkeep.
      * destruct (IH Hin) as (n & Hn & Hrest). exists n.
        split; [right; exact Hn | exact Hrest].
    + destruct (IH Hin) as (n & Hn & Hrest). exists n.
      split; [right; exact Hn | exact Hrest].
Qed.

Lemma copy_nodes_all (l : list CNode) :
  map IdForNetwork (copy_nodes false l) = map IdForNetwork l.
Proof. induction l as [|x l IH]; simpl; [reflexivity|]. by rewrite IH. Qed.

Lemma assign_index_ids (nodes : list CNode) : forall index,
  map IdForNetwork (assign_index index nodes) = map IdForNetwork nodes.
Proof.
  induction nodes as [|n rest IH]; intros index; simpl; [reflexivity|].
  by rewrite IH.
Qed.

Lemma Forall2_member {A B} (R : A -> B -> Prop) (l : list A) (k : list B) x :
  Forall2 R l k -> x ∈ l -> exists y, y ∈ k /\ R x y.
Proof.
  induction 1 as [|a b l k Hab _ IH]; intros Hx.
  - apply elem_of_nil in Hx. contradiction.
  - apply elem_of_cons in Hx as [-> | Hx].
    + exists b. split; [left | exact Hab].
    + destruct (IH Hx) as (y & Hy & Hr). exists y. split; [right|]; assumption.
Qed.

(** An entry of the sequence is, up to its index, an entry the [range] loop
    visited. *)
Lemma sequence_of_entries_member (acceptedOnly : bool) (entries : list CNode)
    (cn : CNode) :
  cn ∈ sequence_of_entries acceptedOnly entries ->
  exists n, n ∈ entries /\ same_entry cn n
            /\ (acceptedOnly = true -> State n = Accepted).
Proof.
  unfold sequence_of_entries. intros Hin.
  destruct (Forall2_member _ _ _ cn (assign_index_same _ 0) Hin)
    as (c & Hc & Hsame).
  rewrite sort_Slice_perm in Hc.
  destruct (copy_nodes_member acceptedOnly entries c Hc) as (n & Hn & Hcn & Hacc).
  exists n. split; [exact Hn|]. split; [|exact Hacc].
  eapply same_entry_trans; eassumption.
Qed.

Lemma sequence_of_entries_ids (entries : list CNode) :
  map IdForNetwork (sequence_of_entries false entries)
  ≡ₚ map IdForNetwork entries.
Proof.
  unfold sequence_of_entries.
  rewrite assign_index_ids, sort_Slice_perm, copy_nodes_all. reflexivity.
Qed.

Lemma sequence_of_entries_distinct (acceptedOnly : bool)
    (entries : list CNode) :
  NoDup (map IdForNetwork entries) ->
  NoDup (map IdForNetwork (sequence_of_entries acceptedOnly entries)).
Proof.
  intros Hnd. unfold sequence_of_entries.
  rewrite assign_index_ids, sort_Slice_perm.
  eapply sublist_NoDup; [exact Hnd | apply copy_nodes_ids].
Qed.

Lemma nodeSequenceWithoutState_distinct (node : Node) (T : Z)
    (acceptedOnly : bool) :
  NoDup (map IdForNetwork (nodeSequenceWithoutState node T acceptedOnly)).
Proof.
  apply sequence_of_entries_distinct, latest_entries_distinct.
Qed.

(** In a sorted registry, an entry of the map is the latest record of its id
    before the threshold. *)
Lemma latest_entries_latest (node : Node) (T : Z) (k : Hash) (n : CNode) :
  registry_sorted (allNodesSortedWithState node) ->
  latest_entries node T !! k = Some n ->
  n ∈ allNodesSortedWithState node /\ IdForNetwork n = k /\ Timestamp n < T
  /\ forall m, m ∈ allNodesSortedWithState node ->
               IdForNetwork m = k -> Timestamp m < T ->
               Timestamp m <= Timestamp n.
Proof.
  intros Hsorted Hl.
  destruct (registry_split T _ Hsorted) as (pre & post & Hall & Hpre & Hpost).
  rewrite (latest_entries_split node T pre post Hall Hpre Hpost) in Hl.
  apply insert_all_lookup in Hl
    as [[Hempty _] | (l1 & l2 & -> & Hid & Hnone)].
  { rewrite lookup_empty in Hempty. discriminate. }
  rewrite Forall_forall in Hpre, Hpost, Hnone.
  assert (Hn : n ∈ l1 ++ n :: l2)
    by (apply elem_of_app; right; left).
  split_and!.
  - rewrite Hall. apply elem_of_app. left. exact Hn.
  - exact Hid.
  - apply Hpre. exact Hn.
  - intros m Hm Hmk Hmt. rewrite Hall in Hm, Hsorted.
    apply elem_of_app in Hm as [Hm | Hm].
    2: { specialize (Hpost m Hm). simpl in Hpost. lia. }
    unfold registry_sorted in Hsorted.
    apply StronglySorted_app in Hsorted as (_ & Hspre & _).
    apply StronglySorted_app in Hspre as (Hcross & _ & _).
    apply elem_of_app in Hm as [Hm | Hm].
    + apply Hcross; [exact Hm | left].
    + apply elem_of_cons in Hm as [-> | Hm]; [lia|].
      exfalso. apply (Hnone m Hm). exact Hmk.
Qed.

(** An entry of the sequence is the latest record of its id before the
    threshold. *)
Lemma nodeSequenceWithoutState_member (node : Node) (T : Z)
    (acceptedOnly : bool) (cn : CNode) :
  registry_sorted (allNodesSortedWithState node) ->
  cn ∈ nodeSequenceWithoutState node T acceptedOnly ->
  exists n, n ∈ allNodesSortedWithState node /\ same_entry cn n
            /\ Timestamp n < T
            /\ (acceptedOnly = true -> State cn = Accepted)
            /\ forall m, m ∈ allNodesSortedWithState node ->
                         IdForNetwork m = IdForNetwork cn ->
                         Timestamp m < T ->
                         Timestamp m <= Timestamp n.
Proof.
  intros Hsorted Hcn.
  unfold nodeSequenceWithoutState in Hcn.
  apply sequence_of_entries_member in Hcn as (n & Hn & Hsame & Hacc).
  apply list_elem_of_fmap in Hn as ([k n'] & -> & Hkn). simpl in *.
  apply elem_of_map_to_list in Hkn.
  destruct (latest_entries_latest node T k n' Hsorted Hkn)
    as (Hin & Hid & Hlt & Hlatest).
  exists n'. split_and!; try assumption.
  - intros Hflag. destruct Hsame as (_ & _ & _ & _ & _ & Hst).
    rewrite Hst. apply Hacc. exact Hflag.
  - intros m Hm Hmid. apply Hlatest; [exact Hm|].
    destruct Hsame as (Hcid & _). congruence.
Qed.

(** Every id with a record before the threshold has an entry in the full
    sequence. *)
Lemma nodeSequenceWithoutState_complete (node : Node) (T : Z) (m : CNode) :
  registry_sorted (allNodesSortedWithState node) ->
  m ∈ allNodesSortedWithState node -> Timestamp m < T ->
  IdForNetwork m ∈ map IdForNetwork (nodeSequenceWithoutState node T false).
Proof.
  intros Hsorted Hm Hlt.
  unfold nodeSequenceWithoutState.
  rewrite sequence_of_entries_ids.
  destruct (registry_split T _ Hsorted) as (pre & post & Hall & Hpre & Hpost).
  assert (Hmpre : m ∈ pre).
  { rewrite Hall in Hm. apply elem_of_app in Hm as [Hm | Hm]; [exact Hm|].
    rewrite Forall_forall in Hpost. specialize (Hpost m Hm).
    simpl in Hpost. lia. }
  destruct (insert_all_lookup_member pre ∅ m Hmpre) as [v Hv].
  rewrite <- (latest_entries_split node T pre post Hall Hpre Hpost) in Hv.
  assert (Hkey : IdForNetwork v = IdForNetwork m).
  { eapply (collect_latest_keyed T (allNodesSortedWithState node) ∅);
      [|exact Hv].
    intros k n Hl. rewrite lookup_empty in Hl. discriminate. }
  rewrite <- Hkey. apply (list_elem_of_fmap_2 IdForNetwork).
  apply list_elem_of_fmap. exists (IdForNetwork m, v).
  split; [reflexivity|]. apply elem_of_map_to_list. exact Hv.
Qed.

(** X2.  For a registry in ascending order of timestamps, the list
    [nodeSequenceWithoutState] produces holds every id at most once; each of
    its entries is, up to [ConsensusIndex], the latest record of its id among
    the registry records older than the threshold; with [acceptedOnly] every
    entry is Accepted, and without it every id with a record older than the
    threshold is present. *)
Theorem nodeSequenceWithoutState_latest (node : Node) (T : Z)
    (acceptedOnly : bool) :
  registry_sorted (allNodesSortedWithState node) ->
  let out := nodeSequenceWithoutState node T acceptedOnly in
  NoDup (map IdForNetwork out)
  /\ (forall cn, cn ∈ out ->
        exists n, n ∈ allNodesSortedWithState node /\ same_entry cn n
                  /\ Timestamp n < T
                  /\ (acceptedOnly = true -> State cn = Accepted)
                  /\ forall m, m ∈ allNodesSortedWithState node ->
                               IdForNetwork m = IdForNetwork cn ->
                               Timestamp m < T ->
                               Timestamp m <= Timestamp n)
  /\ (acceptedOnly = false ->
      forall m, m ∈ allNodesSortedWithState node -> Timestamp m < T ->
                IdForNetwork m ∈ map IdForNetwork out).
Proof.
  intros Hsorted out. split_and!.
  - apply nodeSequenceWithoutState_distinct.
  - intros cn Hcn. apply nodeSequenceWithoutState_member; assumption.
  - intros -> m Hm Hlt. apply nodeSequenceWithoutState_complete; assumption.
Qed.

(** ** The accepted-only sequence *)

Lemma filter_perm (f : CNode -> bool) (l k : list CNode) :
  l ≡ₚ k -> List.filter f l ≡ₚ List.filter f k.
Proof.
  induction 1 as [|x l k _ IH|x y l|l1 l2 l3 _ IH1 _ IH2]; simpl.
  - reflexivity.
  - destruct (f x); [constructor|]; exact IH.
  - destruct (f x), (f y); try reflexivity. apply Permutation_swap.
  - etransitivity; eassumption.
Qed.

Lemma filter_sorted (f : CNode -> bool) (l : list CNode) :
  StronglySorted canonical_le l -> StronglySorted canonical_le (List.filter f l).
Proof.
  induction 1 as [|x l _ IH Hx]; simpl; [constructor|].
  destruct (f x); [|exact IH]. constructor; [exact IH|].
  rewrite Forall_forall in *. intros y Hy.
  apply Hx. apply list_elem_of_In. apply list_elem_of_In in Hy.
  apply filter_In in Hy. tauto.
Qed.

Lemma copy_nodes_accepted (l : list CNode) :
  copy_nodes true l = List.filter is_accepted (copy_nodes false l).
Proof.
  induction l as [|x l IH]; simpl; [reflexivity|].
  unfold is_accepted at 1. simpl.
  destruct (bool_decide (State x = Accepted)); simpl; rewrite IH; reflexivity.
Qed.

Lemma filter_accepted_same (l k : list CNode) :
  Forall2 same_entry l k ->
  Forall2 same_entry (List.filter is_accepted l) (List.filter is_accepted k).
Proof.
  induction 1 as [|a b l k Hab _ IH]; simpl; [constructor|].
  assert (Hst : is_accepted a = is_accepted b).
  { unfold is_accepted. destruct Hab as (_ & _ & _ & _ & _ & ->). reflexivity. }
  rewrite Hst. destruct (is_accepted b); [constructor|]; assumption.
Qed.

Lemma Forall2_same_entry_sym (l k : list CNode) :
  Forall2 same_entry l k -> Forall2 same_entry k l.
Proof.
  induction 1 as [|a b l k Hab _ IH]; constructor; [|exact IH].
  unfold same_entry in *. intuition congruence.
Qed.

Lemma Forall2_same_entry_trans (l k j : list CNode) :
  Forall2 same_entry l k -> Forall2 same_entry k j -> Forall2 same_entry l j.
Proof.
  intros H. revert j. induction H as [|a b l k Hab _ IH]; intros j Hj.
  - inversion Hj. constructor.
  - inversion Hj as [|? c ? j' Hbc Hrest]; subst. constructor.
    + eapply same_entry_trans; eassumption.
    + apply IH. exact Hrest.
Qed.

(** Sorting the accepted entries is keeping the accepted entries of the
    sorted list. *)
Lemma sort_accepted (l : list CNode) :
  NoDup (map IdForNetwork l) ->
  sort_Slice (List.filter is_accepted l)
  = List.filter is_accepted (sort_Slice l).
Proof.
  intros Hnd. apply sorted_perm_unique.
  - apply sort_Slice_sorted.
  - apply filter_sorted, sort_Slice_sorted.
  - rewrite sort_Slice_perm. apply filter_perm. symmetry. apply sort_Slice_perm.
  - intros a b Ha Hb Hab Hba. rewrite sort_Slice_perm in Ha, Hb.
    destruct (canonical_le_antisym a b Hab Hba) as [_ Hid].
    apply list_elem_of_In, filter_In in Ha. apply list_elem_of_In, filter_In in Hb.
    eapply (same_id_same_entry l); try eassumption;
      apply list_elem_of_In; tauto.
Qed.

Lemma assign_index_all_active (nodes : list CNode) : forall index i cn,
  Forall (fun n => is_active n = true) nodes ->
  assign_index index nodes !! i = Some cn ->
  ConsensusIndex cn = index + Z.of_nat i.
Proof.
  induction nodes as [|n rest IH]; intros index i cn Hall Hl; simpl in Hl;
    [discriminate|].
  apply Forall_cons in Hall as [Hn Hall].
  destruct i as [|i]; simpl in Hl.
  - injection Hl as <-. simpl. lia.
  - rewrite Hn in Hl. apply IH in Hl; [lia | exact Hall].
Qed.

(** X3.  The accepted-only sequence is the full sequence with the entries
    that are not Accepted left out, entry by entry and in the same order, up
    to [ConsensusIndex]; in the accepted-only sequence the index of an entry
    is its position. *)
Theorem nodeSequenceWithoutState_accepted (node : Node) (T : Z) :
  let full := nodeSequenceWithoutState node T false in
  let accepted := nodeSequenceWithoutState node T true in
  Forall2 same_entry accepted (List.filter is_accepted full)
  /\ (forall i cn, accepted !! i = Some cn -> ConsensusIndex cn = Z.of_nat i).
Proof.
  intros full accepted.
  set (entries := (map_to_list (latest_entries node T)).*2).
  assert (Hnd : NoDup (map IdForNetwork (copy_nodes false entries))).
  { rewrite copy_nodes_all. apply latest_entries_distinct. }
  split.
  - unfold accepted, full, nodeSequenceWithoutState, sequence_of_entries.
    fold entries.
    eapply Forall2_same_entry_trans; [apply assign_index_same|].
    rewrite copy_nodes_accepted, (sort_accepted _ Hnd).
    apply filter_accepted_same, Forall2_same_entry_sym, assign_index_same.
  - intros i cn Hl.
    unfold accepted, nodeSequenceWithoutState, sequence_of_entries in Hl.
    fold entries in Hl.
    apply assign_index_all_active in Hl; [lia|].
    apply Forall_forall. intros c Hc.
    rewrite sort_Slice_perm in Hc.
    apply copy_nodes_member in Hc as (n & _ & Hsame & Hacc).
    destruct Hsame as (_ & _ & _ & _ & _ & Hst).
    unfold is_active. rewrite Hst, (Hacc eq_refl). reflexivity.
Qed.

(** * Further properties of the threshold *)

Lemma count_filter_le (f : CNode -> bool) (l : list CNode) :
  0 <= Z.of_nat (length (List.filter f l)) <= Z.of_nat (length l).
Proof.
  split; [lia|]. apply Nat2Z.inj_le.
  induction l as [|x l IH]; simpl; [lia|]. destruct (f x); simpl; lia.
Qed.

Lemma count_filter_mono (f g : CNode -> bool) (l : list CNode) :
  (forall x, f x = true -> g x = true) ->
  Z.of_nat (length (List.filter f l)) <= Z.of_nat (length (List.filter g l)).
Proof.
  intros Hfg. apply Nat2Z.inj_le.
  induction l as [|x l IH]; simpl; [lia|].
  destruct (f x) eqn:Hf.
  - rewrite (Hfg x Hf). simpl. lia.
  - destruct (g x); simpl; lia.
Qed.

(** The supermajority of a base is more than two thirds of it, by less than
    one node and a third, and is at most the base when there is a base. *)
Lemma supermajority_bounds (base : Z) :
  0 <= base ->
  2 * base < 3 * (base * 2 / 3 + 1) <= 2 * base + 3
  /\ (1 <= base -> base * 2 / 3 + 1 <= base).
Proof.
  intros Hb. pose proof (Z.div_mod (base * 2) 3) as Hdm.
  pose proof (Z.mod_pos_bound (base * 2) 3) as Hm. lia.
Qed.

(** X4.  With constants that pass its two checks, [ConsensusThreshold]
    returns the sentinel 1000 when the base, the number of nodes of the list
    it counts, is below [KernelMinimumNodesCount], and otherwise the quorum
    [q] of that base with [2 * base < 3 * q <= 2 * base + 3], which a base
    of at least one node can reach ([q <= base]): two quorums of the same
    base share more than a third of it.  The value 1000 is returned exactly
    when the base is below the minimum or the base is 1499, whose quorum is
    1000 too. *)
Theorem ConsensusThreshold_quorum (cfg : Config) (node : Node) (T : Z)
    (final : bool) :
  config_sane cfg ->
  let nodes := NodesListWithoutState node T false in
  let base := count_nodes (counted cfg node T final) nodes in
  0 <= base <= Z.of_nat (length nodes)
  /\ (base < KernelMinimumNodesCount cfg ->
      ConsensusThreshold cfg node T final = Some 1000)
  /\ (KernelMinimumNodesCount cfg <= base ->
      exists q,
        ConsensusThreshold cfg node T final = Some q
        /\ 2 * base < 3 * q <= 2 * base + 3
        /\ (1 <= base -> q <= base /\ base < 2 * q - base / 3))
  /\ (ConsensusThreshold cfg node T final = Some 1000
      <-> base < KernelMinimumNodesCount cfg \/ base = 1499).
Proof.
  intros Hsane nodes base.
  assert (Hb : 0 <= base <= Z.of_nat (length nodes))
    by apply count_filter_le.
  assert (Hct : ConsensusThreshold cfg node T final = Some (quorum cfg base))
    by (apply ConsensusThreshold_counted; exact Hsane).
  rewrite Hct. unfold quorum.
  destruct (supermajority_bounds base (proj1 Hb)) as [Hq Hreach].
  pose proof (Z.div_mod base 3) as Hdm.
  pose proof (Z.mod_pos_bound base 3) as Hm.
  destruct (Z.ltb_spec base (KernelMinimumNodesCount cfg)) as [Hlow | Hhigh].
  - split_and!; [lia | lia | reflexivity | lia |].
    split; [left; exact Hlow | reflexivity].
  - split_and!; [lia | lia | lia | |].
    + intros _. exists (base * 2 / 3 + 1).
      split; [reflexivity|]. split; [exact Hq|].
      intros H1. split; [apply Hreach; exact H1 | lia].
    + split.
      * intros [= Heq]. right. lia.
      * intros [Hlt | ->]; [lia | reflexivity].
Qed.

Lemma counted_final_cases (cfg : Config) (node : Node) (T : Z) (cn : CNode) :
  (counted cfg node T false cn = true /\ counted cfg node T true cn = false
   /\ pledging_counted cfg node T cn = true)
  \/ (counted cfg node T false cn = counted cfg node T true cn
      /\ pledging_counted cfg node T cn = false).
Proof.
  unfold pledging_counted, counted.
  destruct (State cn); case_bool_decide as Hd; try discriminate Hd;
    try (exfalso; apply Hd; reflexivity); simpl;
    try (right; split; reflexivity).
  destruct (_ <? T); [left | right]; repeat split.
Qed.

Lemma counted_final_split (cfg : Config) (node : Node) (T : Z)
    (nodes : list CNode) :
  count_nodes (counted cfg node T false) nodes
  = count_nodes (counted cfg node T true) nodes
    + count_nodes (pledging_counted cfg node T) nodes.
Proof.
  unfold count_nodes.
  induction nodes as [|cn rest IH]; simpl; [reflexivity|].
  destruct (counted_final_cases cfg node T cn) as [(-> & -> & ->) | [-> ->]].
  - simpl length. lia.
  - destruct (counted cfg node T true cn); simpl length; lia.
Qed.

(** X5.  The [final] flag takes the Pledging nodes out of the base: with
    constants that pass the checks, the thresholds with and without [final]
    are the quorums of the two counts of the node list, the count without
    [final] is the count with [final] plus the number of Pledging nodes past
    their waiting time, and when the count with [final] reaches
    [KernelMinimumNodesCount] the threshold with [final] set is at most the
    threshold without it. *)
Theorem ConsensusThreshold_final_base (cfg : Config) (node : Node) (T : Z) :
  config_sane cfg ->
  let nodes := NodesListWithoutState node T false in
  let base_final := count_nodes (counted cfg node T true) nodes in
  let base_all := count_nodes (counted cfg node T false) nodes in
  ConsensusThreshold cfg node T true = Some (quorum cfg base_final)
  /\ ConsensusThreshold cfg node T false = Some (quorum cfg base_all)
  /\ base_all
     = base_final + count_nodes (pledging_counted cfg node T) nodes
  /\ 0 <= base_final <= base_all
  /\ (KernelMinimumNodesCount cfg <= base_final ->
      quorum cfg base_final <= quorum cfg base_all).
Proof.
  intros Hsane nodes bf ba.
  assert (Hsplit : ba = bf + count_nodes (pledging_counted cfg node T) nodes)
    by apply counted_final_split.
  assert (Hp : 0 <= count_nodes (pledging_counted cfg node T) nodes)
    by (unfold count_nodes; lia).
  assert (Hbf : 0 <= bf) by (unfold bf, count_nodes; lia).
  split_and!.
  - apply ConsensusThreshold_counted. exact Hsane.
  - apply ConsensusThreshold_counted. exact Hsane.
  - exact Hsplit.
  - exact Hbf.
  - lia.
  - intros Hmin. unfold quorum.
    destruct (Z.ltb_spec bf (KernelMinimumNodesCount cfg)); [lia|].
    destruct (Z.ltb_spec ba (KernelMinimumNodesCount cfg)); [lia|].
    assert (bf * 2 / 3 <= ba * 2 / 3) by (apply Z.div_le_mono; lia). lia.
Qed.

(** X6.  A node that [ConsensusReady] lets sign at [T] is a node the loop of
    [ConsensusThreshold] counts at [T], whatever the [final] flag: the accept
    period is longer than the reference gap.  (Constants that pass the
    checks, a timestamp that leaves room for the accept period.) *)
Theorem ConsensusReady_counted (cfg : Config) (node : Node) (cn : CNode)
    (T : Z) (final : bool) (base : Z) :
  config_sane cfg ->
  0 <= Timestamp cn ->
  Timestamp cn + KernelNodeAcceptPeriodMinimum cfg < U64.modulus ->
  ConsensusReady cfg node cn T = true ->
  threshold_step cfg node T final base cn = Some (base + 1).
Proof.
  intros Hsane H0 Hroom Hready.
  apply ConsensusReady_true_iff in Hready as [Hst Hready].
  rewrite (threshold_step_counted cfg Hsane).
  pose proof (gap_bounds cfg Hsane) as Hgap.
  pose proof (accept_bounds cfg Hsane) as Hacc.
  unfold Hour, Minute in *.
  unfold counted. rewrite Hst.
  destruct Hready as [-> | Hlt]; [reflexivity|].
  rewrite U64_add_small in Hlt by lia.
  rewrite U64_add_small by lia.
  destruct (Z.ltb_spec
              (Timestamp cn
               + SnapshotReferenceThreshold cfg * SnapshotRoundGap cfg) T);
    [|lia].
  rewrite orb_true_r. reflexivity.
Qed.

Lemma threshold_loop_panics (cfg : Config) (node : Node) (T : Z)
    (final : bool) (nodes : list CNode) : forall base,
  threshold_loop cfg node T final base nodes = None
  <-> threshold_panics cfg nodes.
Proof.
  unfold threshold_panics.
  induction nodes as [|cn rest IH]; intros base; simpl.
  - split; [discriminate | intros [Hne _]; contradiction].
  - unfold threshold_step.
    destruct (Z.ltb_spec (3 * Minute)
                (U64.mul (SnapshotReferenceThreshold cfg)
                   (SnapshotRoundGap cfg))) as [Hbad | Hgood].
    { split; [|reflexivity]. intros _. split; [discriminate|]. left. exact Hbad. }
    assert (Hrest : forall b,
              threshold_loop cfg node T final b rest = None
              <-> KernelNodeAcceptPeriodMinimum cfg < Hour
                  /\ exists c, c ∈ rest /\ State c = Pledging).
    { intros b. rewrite IH. split.
      - intros [_ [Hbad | Hp]]; [lia | exact Hp].
      - intros [Hk (c & Hc & Hst)]. split.
        + intros ->. apply elem_of_nil in Hc. contradiction.
        + right. split; [exact Hk|]. exists c. split; assumption. }
    assert (Hother : State cn <> Pledging ->
              forall b,
                threshold_loop cfg node T final b rest = None
                <-> cn :: rest <> []
                    /\ (3 * Minute
                        < U64.mul (SnapshotReferenceThreshold cfg)
                            (SnapshotRoundGap cfg)
                        \/ KernelNodeAcceptPeriodMinimum cfg < Hour
                           /\ exists c, c ∈ cn :: rest /\ State c = Pledging)).
    { intros Hst b. rewrite Hrest. split.
      - intros [Hk (c & Hc & Hp)]. split; [discriminate|]. right.
        split; [exact Hk|]. exists c. split; [right; exact Hc | exact Hp].
      - intros [_ [Hbad | [Hk (c & Hc & Hp)]]]; [lia|].
        split; [exact Hk|]. exists c. split; [|exact Hp].
        apply elem_of_cons in Hc as [-> | Hc]; [contradiction | exact Hc]. }
    destruct (State cn) eqn:Hst.
    + destruct (Z.ltb_spec (KernelNodeAcceptPeriodMinimum cfg) Hour)
        as [Hshort | Hlong].
      * split; [|reflexivity]. intros _. split; [discriminate|]. right.
        split; [exact Hshort|]. exists cn. split; [left | exact Hst].
      * destruct (negb final && _).
        -- rewrite Hrest. split; [intros [? _]; lia|].
           intros [_ [Hbad | [Hk _]]]; lia.
        -- rewrite Hrest. split; [intros [? _]; lia|].
           intros [_ [Hbad | [Hk _]]]; lia.
    + destruct (_ || _); apply Hother; discriminate.
    + apply Hother. discriminate.
    + apply Hother. discriminate.
    + apply Hother. discriminate.
Qed.

(** X7.  [ConsensusThreshold] panics exactly when the node list is not empty
    and either the product of the reference threshold and the round gap,
    taken in [uint64], exceeds three minutes, or the accept period is below
    one hour and the list holds a Pledging node: the second check is made
    only at a Pledging node.  On an empty list it returns 1000 when
    [KernelMinimumNodesCount] is positive and 1 otherwise, whatever the
    constants. *)
Theorem ConsensusThreshold_panics (cfg : Config) (node : Node) (T : Z)
    (final : bool) :
  (ConsensusThreshold cfg node T final = None
   <-> threshold_panics cfg (NodesListWithoutState node T false))
  /\ (NodesListWithoutState node T false = [] ->
      ConsensusThreshold cfg node T final
      = Some (if 0 <? KernelMinimumNodesCount cfg then 1000 else 1)).
Proof.
  split.
  - unfold ConsensusThreshold.
    rewrite <- (threshold_loop_panics cfg node T final _ 0).
    destruct (threshold_loop cfg node T final 0
                (NodesListWithoutState node T false)) as [b|];
      [|split; reflexivity].
    destruct (b <? KernelMinimumNodesCount cfg); split; discriminate.
  - intros Hnil. unfold ConsensusThreshold. rewrite Hnil. simpl.
    destruct (0 <? KernelMinimumNodesCount cfg); reflexivity.
Qed.

(** * Further properties of the sync checks *)

Lemma broadcast_loop_bound (spm : gmap Hash (option SyncPoint)) (final : Z)
    (nodes : list CNode) : forall count,
  broadcast_loop spm final count nodes <= count + Z.of_nat (length nodes).
Proof.
  induction nodes as [|cn rest IH]; intros count; simpl; [lia|].
  destruct (sync_lookup spm (IdForNetwork cn)) as [remote|].
  - destruct (final <=? U64.add (spNumber remote) 1).
    + specialize (IH (count + 1)). lia.
    + specialize (IH count). lia.
  - specialize (IH count). lia.
Qed.

Lemma catchup_loop_bound (cfg : Config) (spm : gmap Hash (option SyncPoint))
    (cache : option CacheRound) (final : Z) (clk : Clock)
    (nodes : list CNode) : forall k updated u,
  catchup_loop cfg spm cache final clk k updated nodes = Some u ->
  u <= updated + Z.of_nat (length nodes).
Proof.
  induction nodes as [|cn rest IH]; intros k updated u Hu; simpl in Hu.
  - injection Hu as <-. simpl. lia.
  - simpl length.
    destruct (sync_lookup spm (IdForNetwork cn)) as [remote|].
    2: { apply IH in Hu. lia. }
    destruct (spNumber remote <=? final).
    { apply IH in Hu. lia. }
    destruct (U64.add final 1 <? spNumber remote); [discriminate|].
    destruct cache as [c|]; [|discriminate].
    destruct (asFinal c) as [cf|]; [|discriminate].
    destruct (negb (bool_decide (frHash cf = spHash remote))); [discriminate|].
    destruct (clk k <? _); [discriminate|].
    apply IH in Hu. lia.
Qed.

(** X8.  Neither check holds when the threshold exceeds the node itself plus
    the accepted nodes of the list: in particular the sentinel 1000 makes
    both checks false as long as fewer than 999 nodes are accepted. *)
Theorem checks_need_reachable_threshold (cfg : Config) (node : Node)
    (clk : Clock) (q : Z) :
  ConsensusThreshold cfg node (clk 0%nat) false = Some q ->
  1 + Z.of_nat (length (NodesListWithoutState node (clk 1%nat) true)) < q ->
  CheckBroadcastedToP2PPeers cfg node clk = Some false
  /\ CheckCatchUpWithP2PPeers cfg node clk = Some false.
Proof.
  intros Hq Hfew. split.
  - unfold CheckBroadcastedToP2PPeers.
    case_bool_decide; [reflexivity|].
    destruct (ChainStateOf (chain node)) as [st|]; [|reflexivity].
    rewrite Hq. f_equal. apply Z.leb_gt.
    pose proof (broadcast_loop_bound (SyncPointsMap node)
                  (frNumber (FinalRoundOf st))
                  (NodesListWithoutState node (clk 1%nat) true) 1). lia.
  - unfold CheckCatchUpWithP2PPeers.
    case_bool_decide; [reflexivity|].
    destruct (ChainStateOf (chain node)) as [st|]; [|reflexivity].
    rewrite Hq.
    destruct (catchup_loop cfg (SyncPointsMap node) (CacheRoundOf st)
                (frNumber (FinalRoundOf st)) clk 2 1
                (NodesListWithoutState node (clk 1%nat) true))
      as [u|] eqn:Hu; [|reflexivity].
    apply catchup_loop_bound in Hu. f_equal. apply Z.leb_gt. lia.
Qed.

(** What a completed walk of the catch-up loop has checked at every node. *)
Lemma catchup_loop_checked (cfg : Config) (spm : gmap Hash (option SyncPoint))
    (cache : option CacheRound) (final : Z) (clk : Clock)
    (nodes : list CNode) : forall k updated u,
  U64.ok final -> sync_points_ok spm ->
  catchup_loop cfg spm cache final clk k updated nodes = Some u ->
  forall cn remote,
    cn ∈ nodes -> sync_lookup spm (IdForNetwork cn) = Some remote ->
    spNumber remote <= final + 1
    /\ (spNumber remote = final + 1 ->
        exists c cf reading,
          cache = Some c /\ asFinal c = Some cf
          /\ frHash cf = spHash remote
          /\ U64.add (frStart cf) (U64.mul (SnapshotRoundGap cfg) 100)
             <= clk reading).
Proof.
  intros k updated u Hfinal Hok. revert k updated.
  induction nodes as [|n rest IH]; intros k updated Hu cn remote Hcn Hl.
  { apply elem_of_nil in Hcn. contradiction. }
  simpl in Hu. unfold U64.ok in Hfinal.
  destruct (sync_lookup spm (IdForNetwork n)) as [r|] eqn:Hn.
  2: { apply elem_of_cons in Hcn as [-> | Hcn]; [congruence|].
       eapply IH; eassumption. }
  pose proof (Hok _ _ Hn) as Hr. unfold U64.ok in Hr.
  destruct (Z.leb_spec (spNumber r) final) as [Hle | Hgt].
  { apply elem_of_cons in Hcn as [-> | Hcn]; [|eapply IH; eassumption].
    rewrite Hn in Hl. injection Hl as <-. split; lia. }
  rewrite U64_add_small in Hu by lia.
  destruct (Z.ltb_spec (final + 1) (spNumber r)) as [Hfar | Hnear];
    [discriminate|].
  destruct cache as [c|]; [|discriminate].
  destruct (asFinal c) as [cf|] eqn:Hcf; [|discriminate].
  case_bool_decide as Hhash; simpl in Hu; [|discriminate].
  destruct (Z.ltb_spec (clk k)
              (U64.add (frStart cf) (U64.mul (SnapshotRoundGap cfg) 100)))
    as [Hyoung | Hold]; [discriminate|].
  apply elem_of_cons in Hcn as [-> | Hcn]; [|eapply IH; eassumption].
  rewrite Hn in Hl. injection Hl as <-. split; [exact Hnear|].
  intros _. exists c, cf, k. repeat split; assumption.
Qed.

(** X9.  When [CheckCatchUpWithP2PPeers] returns true, the chain state
    exists, no accepted node of the list has reported a round beyond the one
    after the local final round, every node that reported that next round
    reported the hash of the local cache round, which was old enough at the
    time it was read, and the nodes that reported, with the node itself,
    reach the threshold. *)
Theorem CheckCatchUpWithP2PPeers_true (cfg : Config) (node : Node)
    (clk : Clock) :
  sync_points_ok (SyncPointsMap node) ->
  (forall st, ChainStateOf (chain node) = Some st ->
              U64.ok (frNumber (FinalRoundOf st))) ->
  CheckCatchUpWithP2PPeers cfg node clk = Some true ->
  exists st threshold,
    ChainStateOf (chain node) = Some st
    /\ ConsensusThreshold cfg node (clk 0%nat) false = Some threshold
    /\ threshold
       <= 1 + Z.of_nat (length (NodesListWithoutState node (clk 1%nat) true))
    /\ forall cn remote,
         cn ∈ NodesListWithoutState node (clk 1%nat) true ->
         sync_lookup (SyncPointsMap node) (IdForNetwork cn) = Some remote ->
         spNumber remote <= frNumber (FinalRoundOf st) + 1
         /\ (spNumber remote = frNumber (FinalRoundOf st) + 1 ->
             exists c cf reading,
               CacheRoundOf st = Some c /\ asFinal c = Some cf
               /\ frHash cf = spHash remote
               /\ U64.add (frStart cf) (U64.mul (SnapshotRoundGap cfg) 100)
                  <= clk reading).
Proof.
  intros Hok Hfinal. unfold CheckCatchUpWithP2PPeers.
  case_bool_decide; [discriminate|].
  destruct (ChainStateOf (chain node)) as [st|]; [|discriminate].
  destruct (ConsensusThreshold cfg node (clk 0%nat) false) as [threshold|];
    [|discriminate].
  destruct (catchup_loop cfg (SyncPointsMap node) (CacheRoundOf st)
              (frNumber (FinalRoundOf st)) clk 2 1
              (NodesListWithoutState node (clk 1%nat) true))
    as [u|] eqn:Hu; [|discriminate].
  intros Hres. injection Hres as Hres. apply Z.leb_le in Hres.
  exists st, threshold. split_and!; try reflexivity.
  - pose proof (catchup_loop_bound _ _ _ _ _ _ _ _ _ Hu). lia.
  - eapply catchup_loop_checked; [apply Hfinal; reflexivity | exact Hok | exact Hu].
Qed.

(** * The sync-point maps *)

Lemma syncMap_copy_snoc (l : list (Hash * option SyncPoint))
    (x : Hash * option SyncPoint) :
  syncMap_copy (l ++ [x]) = <[x.1 := x.2]> (syncMap_copy l).
Proof. unfold syncMap_copy. rewrite foldl_app. reflexivity. Qed.

Lemma syncMap_copy_list_to_map (l : list (Hash * option SyncPoint)) :
  syncMap_copy l = list_to_map (rev l).
Proof.
  induction l as [|x l IH] using rev_ind; [reflexivity|].
  rewrite syncMap_copy_snoc, rev_app_distr, IH. simpl.
  destruct x as [k v]. reflexivity.
Qed.

(** The snapshot is the map, whatever the order of the copy. *)
Lemma syncMap_copy_any_order (m : gmap Hash (option SyncPoint))
    (entries : list (Hash * option SyncPoint)) :
  entries ≡ₚ map_to_list m -> syncMap_copy entries = m.
Proof.
  intros Hperm. rewrite syncMap_copy_list_to_map.
  transitivity (list_to_map (map_to_list m) : gmap Hash (option SyncPoint));
    [|apply list_to_map_to_list].
  apply list_to_map_proper.
  - rewrite <- Permutation_rev, Hperm. apply NoDup_fst_map_to_list.
  - rewrite <- Permutation_rev. exact Hperm.
Qed.

Lemma syncMap_Map_same (m : gmap Hash (option SyncPoint)) : syncMap_Map m = m.
Proof. apply syncMap_copy_any_order. reflexivity. Qed.

Lemma update_points_all (self peerId : Hash) (points : list SyncPoint) :
  forall m,
    update_points self peerId m (Some <$> points)
    = Some (updated_points self peerId m points).
Proof.
  unfold updated_points, points_of.
  induction points as [|p rest IH]; intros m; [reflexivity|].
  simpl. rewrite IH.
  case_bool_decide as Hp; simpl; [|reflexivity].
  destruct (List.filter _ rest) as [|q l] eqn:Hf; [reflexivity|].
  rewrite last_cons_cons.
  destruct (last (q :: l)) as [r|] eqn:Hlast.
  - unfold syncMap_Set. rewrite insert_insert_eq. reflexivity.
  - apply last_None in Hlast. discriminate.
Qed.

Lemma update_points_nil_point (self peerId : Hash) (points : list SyncPoint)
    (rest : list (option SyncPoint)) : forall m,
  update_points self peerId m ((Some <$> points) ++ None :: rest) = None.
Proof.
  induction points as [|p ps IH]; intros m; simpl; [reflexivity|]. apply IH.
Qed.

(** X10.  [UpdateSyncPoint] stores under the reporting peer the last of the
    reported points that is about this node's chain, leaves the map as it is
    when no point is, never touches the entry of another peer, and publishes
    as [SyncPointsMap] a copy equal to the map, in whatever order the copy
    visits the entries; a [nil] point among the reported ones makes it
    panic. *)
Theorem UpdateSyncPoint_stores_last (node : Node)
    (syncPoints : gmap Hash (option SyncPoint)) (peerId : Hash)
    (points : list SyncPoint) :
  let stored :=
    updated_points (nodeIdForNetwork node) peerId syncPoints points in
  UpdateSyncPoint node syncPoints peerId (Some <$> points)
  = Some (stored, set_SyncPointsMap node stored)
  /\ (forall other, other <> peerId -> stored !! other = syncPoints !! other)
  /\ (forall p, last (points_of (nodeIdForNetwork node) points) = Some p ->
                sync_lookup stored peerId = Some p
                /\ spNodeId p = nodeIdForNetwork node)
  /\ (forall entries, entries ≡ₚ map_to_list stored ->
                      syncMap_copy entries = stored)
  /\ (forall rest,
        UpdateSyncPoint node syncPoints peerId
          ((Some <$> points) ++ None :: rest) = None).
Proof.
  intros stored. split_and!.
  - unfold UpdateSyncPoint. rewrite update_points_all. fold stored.
    rewrite syncMap_Map_same. reflexivity.
  - intros other Hne. unfold stored, updated_points.
    destruct (last _); [|reflexivity].
    apply lookup_insert_ne. congruence.
  - intros p Hlast. unfold stored, updated_points, sync_lookup.
    rewrite Hlast, lookup_insert_eq. split; [reflexivity|].
    apply last_Some_elem_of in Hlast.
    apply list_elem_of_In, filter_In in Hlast as [_ Hp].
    apply bool_decide_eq_true in Hp. exact Hp.
  - intros entries. apply syncMap_copy_any_order.
  - intros rest. unfold UpdateSyncPoint.
    rewrite update_points_nil_point. reflexivity.
Qed.

(** * The checks of the legacy transport *)

Lemma legacy_lookup_as (spm : gmap Hash (option LegacySyncPoint)) (id : Hash) :
  sync_lookup (as_sync_points spm) id = as_sync_point <$> legacy_lookup spm id.
Proof.
  unfold sync_lookup, legacy_lookup, as_sync_points.
  rewrite lookup_fmap. destruct (spm !! id) as [[p|]|]; reflexivity.
Qed.

Lemma legacy_broadcast_loop_as (spm : gmap Hash (option LegacySyncPoint))
    (final : Z) (nodes : list CNode) : forall count,
  legacy_broadcast_loop spm final count nodes
  = broadcast_loop (as_sync_points spm) final count nodes.
Proof.
  induction nodes as [|cn rest IH]; intros count; simpl; [reflexivity|].
  rewrite legacy_lookup_as.
  destruct (legacy_lookup spm (IdForNetwork cn)) as [remote|]; simpl.
  - destruct (final <=? U64.add (lspNumber remote) 1); apply IH.
  - apply IH.
Qed.

Lemma legacy_catchup_loop_as (cfg : Config)
    (spm : gmap Hash (option LegacySyncPoint)) (cache : option CacheRound)
    (final : Z) (clk : Clock) (nodes : list CNode) : forall k updated,
  legacy_catchup_loop cfg spm cache final clk k updated nodes
  = catchup_loop cfg (as_sync_points spm) cache final clk k updated nodes.
Proof.
  induction nodes as [|cn rest IH]; intros k updated; simpl; [reflexivity|].
  rewrite legacy_lookup_as.
  destruct (legacy_lookup spm (IdForNetwork cn)) as [remote|]; simpl;
    [|apply IH].
  destruct (lspNumber remote <=? final); [apply IH|].
  destruct (U64.add final 1 <? lspNumber remote); [reflexivity|].
  destruct cache as [c|]; [|reflexivity].
  destruct (asFinal c) as [cf|]; [|reflexivity].
  destruct (negb (bool_decide (frHash cf = lspHash remote))); [reflexivity|].
  destruct (clk k <? _); [reflexivity|]. apply IH.
Qed.

Lemma legacy_size (spm : gmap Hash (option LegacySyncPoint)) :
  size (as_sync_points spm) = size spm.
Proof. unfold as_sync_points. apply map_size_fmap. Qed.

(** The threshold reads the genesis set and the sequence array of the node,
    not its sync points. *)
Lemma ConsensusThreshold_set_SyncPointsMap (cfg : Config) (node : Node)
    (spm : gmap Hash (option SyncPoint)) (T : Z) (final : bool) :
  ConsensusThreshold cfg (set_SyncPointsMap node spm) T final
  = ConsensusThreshold cfg node T final.
Proof.
  unfold ConsensusThreshold.
  change (NodesListWithoutState (set_SyncPointsMap node spm) T false)
    with (NodesListWithoutState node T false).
  assert (Hloop : forall nodes base,
            threshold_loop cfg (set_SyncPointsMap node spm) T final base nodes
            = threshold_loop cfg node T final base nodes).
  { induction nodes as [|cn rest IH]; intros base; simpl; [reflexivity|].
    change (threshold_step cfg (set_SyncPointsMap node spm) T final base cn)
      with (threshold_step cfg node T final base cn).
    destruct (threshold_step cfg node T final base cn); [apply IH|reflexivity]. }
  rewrite Hloop. reflexivity.
Qed.

(** X11.  The broadcast check of the legacy transport is the check of the
    current transport applied to the legacy sync points, and
    [CheckBroadcastedToPeers] asks the legacy transport only when the
    current one answered false. *)
Theorem CheckBroadcastedToLegacyPeers_same (cfg : Config) (node : Node)
    (legacy : gmap Hash (option LegacySyncPoint)) (clk clk2 : Clock) :
  let as_current := set_SyncPointsMap node (as_sync_points legacy) in
  CheckBroadcastedToLegacyPeers cfg node legacy clk
  = CheckBroadcastedToP2PPeers cfg as_current clk
  /\ CheckBroadcastedToPeers cfg node legacy clk clk2
     = match CheckBroadcastedToP2PPeers cfg node clk with
       | Some false => CheckBroadcastedToP2PPeers cfg as_current clk2
       | answer => answer
       end.
Proof.
  intros as_current.
  assert (Hsame : forall c,
            CheckBroadcastedToLegacyPeers cfg node legacy c
            = CheckBroadcastedToP2PPeers cfg as_current c).
  { intros c. unfold CheckBroadcastedToLegacyPeers, CheckBroadcastedToP2PPeers.
    simpl SyncPointsMap. rewrite legacy_size.
    case_bool_decide; [reflexivity|].
    change (chain as_current) with (chain node).
    destruct (ChainStateOf (chain node)) as [st|]; [|reflexivity].
    unfold as_current. rewrite ConsensusThreshold_set_SyncPointsMap.
    destruct (ConsensusThreshold cfg node (c 0%nat) false); [|reflexivity].
    rewrite legacy_broadcast_loop_as. reflexivity. }
  split; [apply Hsame|].
  unfold CheckBroadcastedToPeers. rewrite Hsame.
  destruct (CheckBroadcastedToP2PPeers cfg node clk) as [[|]|]; reflexivity.
Qed.

(** X12.  The catch-up check of the legacy transport is the check of the
    current transport applied to the legacy sync points, and
    [CheckCatchUpWithPeers] asks the legacy transport only when the current
    one answered false. *)
Theorem CheckCatchUpWithLegacyPeers_same (cfg : Config) (node : Node)
    (legacy : gmap Hash (option LegacySyncPoint)) (clk clk2 : Clock) :
  let as_current := set_SyncPointsMap node (as_sync_points legacy) in
  CheckCatchUpWithLegacyPeers cfg node legacy clk
  = CheckCatchUpWithP2PPeers cfg as_current clk
  /\ CheckCatchUpWithPeers cfg node legacy clk clk2
     = match CheckCatchUpWithP2PPeers cfg node clk with
       | Some false => CheckCatchUpWithP2PPeers cfg as_current clk2
       | answer => answer
       end.
Proof.
  intros as_current.
  assert (Hsame : forall c,
            CheckCatchUpWithLegacyPeers cfg node legacy c
            = CheckCatchUpWithP2PPeers cfg as_current c).
  { intros c. unfold CheckCatchUpWithLegacyPeers, CheckCatchUpWithP2PPeers.
    simpl SyncPointsMap. rewrite legacy_size.
    case_bool_decide; [reflexivity|].
    change (chain as_current) with (chain node).
    destruct (ChainStateOf (chain node)) as [st|]; [|reflexivity].
    unfold as_current. rewrite ConsensusThreshold_set_SyncPointsMap.
    destruct (ConsensusThreshold cfg node (c 0%nat) false); [|reflexivity].
    rewrite legacy_catchup_loop_as. reflexivity. }
  split; [apply Hsame|].
  unfold CheckCatchUpWithPeers. rewrite Hsame.
  destruct (CheckCatchUpWithP2PPeers cfg node clk) as [[|]|]; reflexivity.
Qed.

(** * The graph a node reports *)

Lemma BuildGraph_from_omap (chains : list ChainEntry) :
  BuildGraph_from chains = omap graph_point chains.
Proof.
  induction chains as [|c rest IH]; simpl; [reflexivity|].
  unfold graph_point at 1. destruct (chainState c); simpl; rewrite IH; reflexivity.
Qed.

Lemma graph_point_id (c : ChainEntry) (p : SyncPoint) :
  graph_point c = Some p -> spNodeId p = ChainId c.
Proof.
  unfold graph_point. destruct (chainState c); [|discriminate].
  intros [= <-]. reflexivity.
Qed.

(** The points about one node are the points of the chains of that id. *)
Lemma points_of_graph (self : Hash) (chains : list ChainEntry) :
  points_of self (omap graph_point chains)
  = omap graph_point
      (List.filter (fun c => bool_decide (ChainId c = self)) chains).
Proof.
  unfold points_of.
  induction chains as [|c rest IH]; simpl; [reflexivity|].
  destruct (graph_point c) as [p|] eqn:Hp; simpl;
    [rewrite (graph_point_id c p Hp)|];
    case_bool_decide; simpl; rewrite ?Hp;
    first [exact IH | f_equal; exact IH].
Qed.

Lemma filter_unique_chain (self : Hash) (chains : list ChainEntry)
    (c : ChainEntry) :
  NoDup (map ChainId chains) -> c ∈ chains -> ChainId c = self ->
  List.filter (fun x => bool_decide (ChainId x = self)) chains = [c].
Proof.
  induction chains as [|x rest IH]; intros Hnd Hc Hid.
  - apply elem_of_nil in Hc. contradiction.
  - simpl in Hnd. apply NoDup_cons in Hnd as [Hx Hnd]. simpl.
    assert (Hnone : forall l,
              (forall y, y ∈ l -> ChainId y <> self) ->
              List.filter (fun y => bool_decide (ChainId y = self)) l = []).
    { induction l as [|y l IHl]; intros Hl; simpl; [reflexivity|].
      rewrite bool_decide_eq_false_2 by (apply Hl; left).
      apply IHl. intros z Hz. apply Hl. right. exact Hz. }
    apply elem_of_cons in Hc as [<- | Hc].
    + rewrite bool_decide_eq_true_2 by exact Hid. f_equal.
      apply Hnone. intros y Hy Heq. apply Hx. rewrite Hid, <- Heq.
      apply (list_elem_of_fmap_2 ChainId). exact Hy.
    + rewrite bool_decide_eq_false_2; [apply IH; assumption|].
      intros Heq. apply Hx. rewrite Heq, <- Hid.
      apply (list_elem_of_fmap_2 ChainId). exact Hc.
Qed.

Lemma filter_no_chain (self : Hash) (chains : list ChainEntry) :
  (forall c, c ∈ chains -> ChainId c <> self) ->
  List.filter (fun x => bool_decide (ChainId x = self)) chains = [].
Proof.
  induction chains as [|y l IH]; intros Hl; simpl; [reflexivity|].
  rewrite bool_decide_eq_false_2 by (apply Hl; left).
  apply IH. intros z Hz. apply Hl. right. exact Hz.
Qed.

Lemma chains_keyed_values (chains : gmap Hash ChainEntry) :
  chains_keyed chains ->
  map ChainId (map_to_list chains).*2 = (map_to_list chains).*1.
Proof.
  intros Hk.
  assert (Hall : Forall (fun kv => ChainId kv.2 = kv.1) (map_to_list chains)).
  { apply Forall_forall. intros [k c] Hin. simpl.
    apply Hk. apply elem_of_map_to_list. exact Hin. }
  induction Hall as [|kv l Hkv _ IH]; simpl; [reflexivity|].
  rewrite Hkv. f_equal. exact IH.
Qed.

(** The points about [self] in the graph built from a keyed chain map: the
    point of the chain stored under [self], if that chain has a state. *)
Lemma points_of_BuildGraph (self : Hash) (chains : gmap Hash ChainEntry)
    (entries : list ChainEntry) :
  chains_keyed chains -> entries ≡ₚ (map_to_list chains).*2 ->
  points_of self (BuildGraph_from entries)
  = match chains !! self ≫= graph_point with
    | Some p => [p]
    | None => []
    end.
Proof.
  intros Hk Hperm. rewrite BuildGraph_from_omap, points_of_graph.
  assert (Hnd : NoDup (map ChainId entries)).
  { rewrite Hperm, (chains_keyed_values chains Hk).
    apply NoDup_fst_map_to_list. }
  destruct (chains !! self) as [c|] eqn:Hc; simpl.
  - rewrite (filter_unique_chain self entries c Hnd).
    + simpl. destruct (graph_point c); reflexivity.
    + rewrite Hperm. apply list_elem_of_fmap. exists (self, c).
      split; [reflexivity|]. apply elem_of_map_to_list. exact Hc.
    + apply Hk. exact Hc.
  - rewrite filter_no_chain; [reflexivity|].
    intros c Hin Hid. rewrite Hperm in Hin.
    apply list_elem_of_fmap in Hin as ([k c'] & -> & Hin). simpl in *.
    apply elem_of_map_to_list in Hin.
    rewrite <- Hid, (Hk k c' Hin) in Hc. congruence.
Qed.

Lemma filter_chains_perm (f : ChainEntry -> bool) (l k : list ChainEntry) :
  l ≡ₚ k -> List.filter f l ≡ₚ List.filter f k.
Proof.
  induction 1 as [|x l k _ IH|x y l|l1 l2 l3 _ IH1 _ IH2]; simpl.
  - reflexivity.
  - destruct (f x); [constructor|]; exact IH.
  - destruct (f x), (f y); try reflexivity. apply Permutation_swap.
  - etransitivity; eassumption.
Qed.

Lemma BuildGraph_from_ids (chains : list ChainEntry) :
  map spNodeId (BuildGraph_from chains)
  = map ChainId (List.filter has_state chains).
Proof.
  induction chains as [|c rest IH]; simpl; [reflexivity|].
  unfold has_state at 1. destruct (chainState c); simpl; rewrite IH;
    reflexivity.
Qed.

Lemma filter_ids_NoDup (f : ChainEntry -> bool) (chains : list ChainEntry) :
  NoDup (map ChainId chains) -> NoDup (map ChainId (List.filter f chains)).
Proof.
  induction chains as [|c rest IH]; simpl; intros Hnd; [constructor|].
  apply NoDup_cons in Hnd as [Hc Hnd].
  destruct (f c); simpl; [|apply IH; exact Hnd].
  apply NoDup_cons. split; [|apply IH; exact Hnd].
  intros Hin. apply Hc. apply list_elem_of_fmap in Hin as (x & -> & Hx).
  apply (list_elem_of_fmap_2 ChainId).
  apply list_elem_of_In, filter_In in Hx as [Hx _].
  apply list_elem_of_In. exact Hx.
Qed.

(** X13.  [BuildGraph] reports exactly one sync point for each chain that
    has a state, carrying the id of the chain and the number and hash of its
    final round, and none for a chain without state: the node ids of the
    points are the ids of the chains with a state, in the order of the
    visit, and no id occurs twice.  When a peer's graph is given to
    [UpdateSyncPoint], the entry of the peer becomes the peer's final round
    of this node's chain if the peer has such a chain with a state, and the
    map stays as it is otherwise, in whatever order the peer's chains were
    visited. *)
Theorem BuildGraph_UpdateSyncPoint (node : Node)
    (syncPoints : gmap Hash (option SyncPoint)) (peerId : Hash)
    (chains : gmap Hash ChainEntry) (entries : list ChainEntry) :
  chains_keyed chains -> entries ≡ₚ (map_to_list chains).*2 ->
  let stored :=
    match chains !! nodeIdForNetwork node ≫= graph_point with
    | Some p => <[peerId := Some p]> syncPoints
    | None => syncPoints
    end in
  (forall p, p ∈ BuildGraph_from entries <->
             exists c st, c ∈ entries /\ chainState c = Some st
                          /\ p = mkSyncPoint (ChainId c)
                                   (frHash (FinalRoundOf st))
                                   (frNumber (FinalRoundOf st))
                                   (<["index" := FinalIndex c]>
                                      (<["count" := FinalCount c]> ∅)))
  /\ map spNodeId (BuildGraph_from entries)
     = map ChainId (List.filter has_state entries)
  /\ NoDup (map spNodeId (BuildGraph_from entries))
  /\ length (BuildGraph_from entries)
     = length (List.filter has_state (map_to_list chains).*2)
  /\ UpdateSyncPoint node syncPoints peerId (Some <$> BuildGraph_from entries)
     = Some (stored, set_SyncPointsMap node stored).
Proof.
  intros Hk Hperm stored.
  assert (Hnd : NoDup (map ChainId entries)).
  { rewrite Hperm, (chains_keyed_values chains Hk).
    apply NoDup_fst_map_to_list. }
  split_and!.
  - intros p. rewrite BuildGraph_from_omap, list_elem_of_omap. split.
    + intros (c & Hc & Hp). unfold graph_point in Hp.
      destruct (chainState c) as [st|] eqn:Hst; [|discriminate].
      injection Hp as <-. exists c, st. repeat split; assumption.
    + intros (c & st & Hc & Hst & ->). exists c. split; [exact Hc|].
      unfold graph_point. rewrite Hst. reflexivity.
  - apply BuildGraph_from_ids.
  - rewrite BuildGraph_from_ids. apply filter_ids_NoDup. exact Hnd.
  - rewrite <- (length_map spNodeId), BuildGraph_from_ids, length_map.
    apply Permutation_length, filter_chains_perm. exact Hperm.
  - unfold UpdateSyncPoint. rewrite update_points_all, syncMap_Map_same.
    unfold updated_points.
    rewrite (points_of_BuildGraph _ chains entries Hk Hperm).
    fold stored. unfold stored.
    destruct (chains !! nodeIdForNetwork node ≫= graph_point); reflexivity.
Qed.

(** * Further properties of the handshakes *)

(** Where the fields of a legacy message sit. *)
Lemma legacy_layout (a b e rest : list byte) :
  length a = 8%nat -> length b = 32%nat -> length e = 64%nat ->
  let msg := ((a ++ b) ++ e) ++ rest in
  length msg = (104 + length rest)%nat
  /\ slice 0 8 msg = a
  /\ slice 8 40 msg = b
  /\ slice 0 40 msg = a ++ b
  /\ slice 40 104 msg = e
  /\ drop 104 msg = rest.
Proof.
  intros Ha Hb He msg. unfold msg. split_and!.
  - rewrite !length_app, Ha, Hb, He. reflexivity.
  - rewrite <- !app_assoc. apply slice_prefix. lia.
  - rewrite <- !app_assoc. apply slice_middle; lia.
  - rewrite <- (app_assoc (a ++ b)). apply slice_prefix.
    rewrite length_app. lia.
  - rewrite <- (app_assoc (a ++ b)).
    apply slice_middle; rewrite ?length_app; lia.
  - apply drop_app_length'. rewrite !length_app. lia.
Qed.

(** X14.  A legacy handshake built by a configured node and verified by
    another node of the same network is accepted when the timeout test does
    not fire and the registry of the verifier knows no accepted or pledging
    node of that id with another signer: [Authenticate] returns the id of
    the sender and the listener address the sender appended. *)
Theorem Authenticate_built_message {C : Crypto} {L : CryptoLaws C}
    (sender verifier : Node) (buildUnix nowUnix nowNano : Z) :
  nodeSigner sender
  = loadNodeConfig_address (PrivateSpendKey (nodeSigner sender)) ->
  nodeIdForNetwork sender
  = ForNetwork (AddressHash (nodeSigner sender)) (networkId sender) ->
  networkId verifier = networkId sender ->
  nodeIdForNetwork verifier <> nodeIdForNetwork sender ->
  0 <= buildUnix < I64.half ->
  legacy_timed_out nowUnix buildUnix = false ->
  (forall p,
     GetAcceptedOrPledgingNode verifier nowNano (nodeIdForNetwork sender)
     = Some p ->
     AddressHash (Signer p) = AddressHash (nodeSigner sender)) ->
  Authenticate verifier nowUnix nowNano
    (BuildLegacyAuthenticationMessage sender buildUnix)
  = inr (nodeIdForNetwork sender, Listener sender).
Proof.
  intros Hsigner Hid Hnet Hother Hbuild Htimeout Hknown.
  assert (Hu : U64.ok buildUnix)
    by (unfold U64.ok, U64.modulus, I64.half in *; lia).
  unfold BuildLegacyAuthenticationMessage. cbv zeta.
  rewrite (U64_wrap_small _ Hu).
  set (pub := PublicSpendKey (nodeSigner sender)).
  set (sig := Sign _ _).
  destruct (legacy_layout (PutUint64 buildUnix) (vec_to_list pub)
              (vec_to_list sig) (list_byte_of_string (Listener sender)))
    as (Hlen & Hts & Hpub & Hsigned & Hsig & Hrest);
    try apply length_vec_to_list; [apply length_be_encode|].
  set (msg := (_ ++ vec_to_list sig) ++ _) in *.
  unfold Authenticate.
  destruct (Nat.ltb_spec (length msg) (8 + 32 + 64)) as [Hshort|_]; [lia|].
  rewrite Hts, Hpub, Hsigned, Hsig, Hrest. rewrite !to_array_vec_to_list.
  assert (Hdec : Uint64 (PutUint64 buildUnix) = buildUnix).
  { rewrite <- (app_nil_r (PutUint64 buildUnix)).
    apply Uint64_PutUint64. exact Hu. }
  rewrite Hdec, Htimeout.
  unfold pub. rewrite (received_signer_hash (nodeSigner sender) Hsigner).
  rewrite Hnet, <- Hid.
  rewrite bool_decide_eq_false_2 by (intros Heq; apply Hother; symmetry; exact Heq).
  destruct (GetAcceptedOrPledgingNode verifier nowNano (nodeIdForNetwork sender))
    as [p|] eqn:Hp.
  - rewrite bool_decide_eq_true_2 by (apply Hknown; reflexivity). simpl negb.
    cbv iota. simpl PublicSpendKey.
    assert (Hpk : PublicSpendKey (nodeSigner sender)
                  = Public (PrivateSpendKey (nodeSigner sender))).
    { rewrite Hsigner at 1. reflexivity. }
    unfold sig. fold pub. unfold pub at 1. rewrite Hpk at 1.
    rewrite verify_sign. simpl negb. cbv iota.
    rewrite string_of_list_byte_of_string. reflexivity.
  - simpl PublicSpendKey.
    assert (Hpk : PublicSpendKey (nodeSigner sender)
                  = Public (PrivateSpendKey (nodeSigner sender))).
    { rewrite Hsigner at 1. reflexivity. }
    unfold sig. fold pub. unfold pub at 1. rewrite Hpk at 1.
    rewrite verify_sign. simpl negb. cbv iota.
    rewrite string_of_list_byte_of_string. reflexivity.
Qed.

(** X15.  A token [AuthenticateAs] returns says what was checked: the
    message has 137 bytes and is the data of the token; its recipient field
    is the expected recipient; the peer id of the token is the network hash
    of the signer rebuilt from bytes 40 to 72 and is never the recipient;
    the signature in bytes 73 to 137 verifies under that key against the
    hash of the first 73 bytes; the timeout test did not fire, so that with
    a positive timeout (clock and timeout below [2^52] seconds) the
    timestamp of the token is within the timeout of the clock. *)
Theorem AuthenticateAs_token {C : Crypto} (node : Node) (nowUnix : Z)
    (R : Hash) (msg : list byte) (timeoutSec : Z) (token : AuthToken) :
  AuthenticateAs node nowUnix R msg timeoutSec = inr token ->
  let key : Key := to_array 32 (slice 40 72 msg) in
  length msg = 137%nat
  /\ Data token = msg
  /\ tokenTimestamp token = Uint64 (slice 0 8 msg)
  /\ U64.ok (tokenTimestamp token)
  /\ to_array 32 (slice 8 40 msg) = R
  /\ PeerId token
     = ForNetwork (AddressHash (received_signer key)) (networkId node)
  /\ PeerId token <> R
  /\ Verify key (Blake3Hash (slice 0 73 msg)) (to_array 64 (slice 73 137 msg))
     = true
  /\ IsRelayer token = bool_decide (msg !! 72%nat = Some x01)
  /\ (0 <= nowUnix < 2 ^ 52 -> 0 < timeoutSec < 2 ^ 52 ->
      Z.abs (nowUnix - tokenTimestamp token) <= timeoutSec).
Proof.
  intros Hres key. unfold AuthenticateAs in Hres.
  destruct (Nat.eqb_spec (length msg) 137) as [Hlen|]; [|discriminate].
  simpl negb in Hres. cbv iota in Hres.
  destruct (auth_timed_out nowUnix (Uint64 (slice 0 8 msg)) timeoutSec)
    eqn:Htimeout; [discriminate|].
  case_bool_decide as Hrec; simpl negb in Hres; cbv iota in Hres;
    [|discriminate].
  case_bool_decide as Hself; [discriminate|].
  fold key in Hres, Hself. simpl PublicSpendKey in Hres.
  destruct (Verify key (Blake3Hash (slice 0 73 msg))
              (to_array 64 (slice 73 137 msg))) eqn:Hverify;
    simpl negb in Hres; cbv iota in Hres; [|discriminate].
  injection Hres as <-. simpl.
  split_and!; try reflexivity; try assumption.
  - apply Uint64_ok.
  - intros Hnow Hsec.
    rewrite auth_timed_out_exact in Htimeout
      by (try apply Uint64_ok; lia).
    apply andb_false_iff in Htimeout as [Hz | Hz]; apply Z.ltb_ge in Hz; lia.
Qed.

(** X16.  A success of the legacy [Authenticate] says what was checked: the
    message has at least 104 bytes; the returned peer id is the network hash
    of the signer rebuilt from bytes 8 to 40 and is never the id of the
    verifying node; an accepted or pledging node registered under that id
    has the same signer hash; the signature in bytes 40 to 104 verifies
    against the hash of the first 40 bytes; the listener is the rest of the
    message; the timestamp, when below [2^63], is at most three seconds
    old. *)
Theorem Authenticate_success {C : Crypto} (node : Node)
    (nowUnix nowNano : Z) (msg : list byte) (peerId : Hash)
    (listener : string) :
  Authenticate node nowUnix nowNano msg = inr (peerId, listener) ->
  let key : Key := to_array 32 (slice 8 40 msg) in
  let ts := Uint64 (slice 0 8 msg) in
  (104 <= length msg)%nat
  /\ peerId = ForNetwork (AddressHash (received_signer key)) (networkId node)
  /\ peerId <> nodeIdForNetwork node
  /\ (forall p, GetAcceptedOrPledgingNode node nowNano peerId = Some p ->
                AddressHash (Signer p) = AddressHash (received_signer key))
  /\ Verify key (Blake3Hash (slice 0 40 msg)) (to_array 64 (slice 40 104 msg))
     = true
  /\ listener = string_of_list_byte (drop 104 msg)
  /\ (0 <= nowUnix < I64.half -> ts < I64.half -> nowUnix - ts <= 3).
Proof.
  intros Hres key ts. unfold Authenticate in Hres.
  destruct (Nat.ltb_spec (length msg) (8 + 32 + 64)) as [|Hlen];
    [discriminate|].
  fold ts in Hres.
  destruct (legacy_timed_out nowUnix ts) eqn:Htimeout; [discriminate|].
  fold key in Hres.
  set (id := ForNetwork (AddressHash (received_signer key)) (networkId node))
    in *.
  case_bool_decide as Hself; [discriminate|].
  destruct (GetAcceptedOrPledgingNode node nowNano id) as [p|] eqn:Hp.
  - case_bool_decide as Hsame; simpl negb in Hres; cbv iota in Hres;
      [|discriminate].
    simpl PublicSpendKey in Hres.
    destruct (Verify key (Blake3Hash (slice 0 40 msg))
                (to_array 64 (slice 40 104 msg))) eqn:Hverify;
      simpl negb in Hres; cbv iota in Hres; [|discriminate].
    injection Hres as <- <-.
    split_and!; try reflexivity; try assumption.
    + intros q Hq. rewrite Hp in Hq. injection Hq as <-. exact Hsame.
    + intros Hnow Hlow.
      pose proof (legacy_timed_out_iff nowUnix ts Hnow (Uint64_ok _)) as Hiff.
      destruct (Z.le_gt_cases (nowUnix - ts) 3) as [Hle|Hgt]; [exact Hle|].
      assert (Ht : legacy_timed_out nowUnix ts = true)
        by (apply Hiff; left; split; lia).
      congruence.
  - simpl PublicSpendKey in Hres.
    destruct (Verify key (Blake3Hash (slice 0 40 msg))
                (to_array 64 (slice 40 104 msg))) eqn:Hverify;
      simpl negb in Hres; cbv iota in Hres; [|discriminate].
    injection Hres as <- <-.
    split_and!; try reflexivity; try assumption.
    + intros q Hq. rewrite Hp in Hq. discriminate.
    + intros Hnow Hlow.
      pose proof (legacy_timed_out_iff nowUnix ts Hnow (Uint64_ok _)) as Hiff.
      destruct (Z.le_gt_cases (nowUnix - ts) 3) as [Hle|Hgt]; [exact Hle|].
      assert (Ht : legacy_timed_out nowUnix ts = true)
        by (apply Hiff; left; split; lia).
      congruence.
Qed.

(** * Further properties of the readers of the node lists *)

(** A search by id and state in a list without repeated ids finds an entry
    exactly when the list holds it. *)
Lemma find_by_id (p : CNode -> bool) (id : Hash) (l : list CNode) (cn : CNode) :
  NoDup (map IdForNetwork l) ->
  List.find (fun c => bool_decide (IdForNetwork c = id) && p c) l = Some cn
  <-> cn ∈ l /\ IdForNetwork cn = id /\ p cn = true.
Proof.
  intros Hnd. split.
  - intros Hfind. apply find_some in Hfind as [Hin Hp].
    apply andb_true_iff in Hp as [Hid Hp].
    apply bool_decide_eq_true in Hid.
    split_and!; [apply list_elem_of_In; exact Hin | exact Hid | exact Hp].
  - intros (Hin & Hid & Hp). induction l as [|a l IH]; simpl.
    + apply elem_of_nil in Hin. destruct Hin.
    + simpl in Hnd. apply NoDup_cons in Hnd as [Hfresh Hnd].
      apply elem_of_cons in Hin as [-> | Hin].
      * rewrite bool_decide_eq_true_2 by exact Hid. rewrite Hp. reflexivity.
      * rewrite bool_decide_eq_false_2.
        -- simpl. apply IH; assumption.
        -- intros Ha. apply Hfresh. rewrite Ha, <- Hid.
           apply (list_elem_of_fmap_2 IdForNetwork). exact Hin.
Qed.

(** X17.  On a loaded registry [GetAcceptedOrPledgingNode] returns an entry
    exactly when the node list at that time holds it with the id searched
    and in state Accepted or Pledging, and [GetRemovedOrCancelledNode]
    exactly when it holds it in state Removed or Cancelled; the list holds
    an id at most once, so that at one time at most one of the two finds
    the id. *)
Theorem registry_lookups (node : Node) (T : Z) (id : Hash) :
  node_loaded node -> U64.ok T ->
  let nodes := NodesListWithoutState node T false in
  (forall cn, GetAcceptedOrPledgingNode node T id = Some cn
     <-> cn ∈ nodes /\ IdForNetwork cn = id
         /\ (State cn = Accepted \/ State cn = Pledging))
  /\ (forall cn, GetRemovedOrCancelledNode node id T = Some cn
     <-> cn ∈ nodes /\ IdForNetwork cn = id
         /\ (State cn = Removed \/ State cn = Cancelled))
  /\ (is_Some (GetAcceptedOrPledgingNode node T id) ->
      GetRemovedOrCancelledNode node id T = None).
Proof.
  intros Hloaded HT nodes.
  assert (Hnd : NoDup (map IdForNetwork nodes)).
  { unfold nodes. rewrite NodesListWithoutState_loaded by assumption.
    apply nodeSequenceWithoutState_distinct. }
  assert (Hacc : forall cn, GetAcceptedOrPledgingNode node T id = Some cn
     <-> cn ∈ nodes /\ IdForNetwork cn = id
         /\ (State cn = Accepted \/ State cn = Pledging)).
  { intros cn. unfold GetAcceptedOrPledgingNode. fold nodes.
    rewrite (find_by_id _ id nodes cn Hnd).
    rewrite orb_true_iff, !bool_decide_eq_true. reflexivity. }
  assert (Hrem : forall cn, GetRemovedOrCancelledNode node id T = Some cn
     <-> cn ∈ nodes /\ IdForNetwork cn = id
         /\ (State cn = Removed \/ State cn = Cancelled)).
  { intros cn. unfold GetRemovedOrCancelledNode. fold nodes.
    rewrite (find_by_id _ id nodes cn Hnd).
    rewrite orb_true_iff, !bool_decide_eq_true. reflexivity. }
  split_and!; [exact Hacc | exact Hrem |].
  intros [a Ha].
  destruct (GetRemovedOrCancelledNode node id T) as [r|] eqn:Hr;
    [exfalso | reflexivity].
  apply Hacc in Ha as (Hain & Haid & Hast).
  destruct (proj1 (Hrem r) eq_refl) as (Hrin & Hrid & Hrst).
  assert (Heq : a = r).
  { apply list_elem_of_lookup in Hain as [i Hi].
    apply list_elem_of_lookup in Hrin as [j Hj].
    assert (Hij : i = j).
    { eapply NoDup_lookup; [exact Hnd | |].
      - rewrite list_lookup_fmap, Hi. reflexivity.
      - rewrite list_lookup_fmap, Hj. simpl. congruence. }
    subst j. congruence. }
  subst r. destruct Hast as [Hs | Hs], Hrst as [Hs' | Hs']; congruence.
Qed.

(** X18.  On a loaded registry, the node [PledgingNode] returns is Pledging,
    is the last of the node list at that time, and is the most recent event
    of the registry before the timestamp: no record of the registry older
    than the timestamp is younger than it.  [GetAcceptedOrPledgingNode]
    finds the same node under its id. *)
Theorem PledgingNode_latest (node : Node) (T : Z) (cn : CNode) :
  node_loaded node -> U64.ok T ->
  PledgingNode node T = Some cn ->
  let nodes := NodesListWithoutState node T false in
  State cn = Pledging
  /\ last nodes = Some cn
  /\ (forall m, m ∈ nodes -> Timestamp m <= Timestamp cn)
  /\ (forall m, m ∈ allNodesSortedWithState node -> Timestamp m < T ->
                Timestamp m <= Timestamp cn)
  /\ Timestamp cn < T
  /\ GetAcceptedOrPledgingNode node T (IdForNetwork cn) = Some cn.
Proof.
  intros Hloaded HT Hres nodes.
  pose proof (loaded_sorted node Hloaded) as Hsorted.
  assert (Hlist : nodes = nodeSequenceWithoutState node T false)
    by (apply NodesListWithoutState_loaded; assumption).
  unfold PledgingNode in Hres. fold nodes in Hres.
  destruct (length nodes =? 0)%nat; [discriminate|].
  destruct (last nodes) as [c|] eqn:Hlast; [|discriminate].
  case_bool_decide as Hst; [|discriminate]. injection Hres as ->.
  assert (Hin : cn ∈ nodes).
  { apply last_Some in Hlast as [l' ->]. apply elem_of_app. right.
    constructor. }
  assert (Hmax : forall m, m ∈ nodes -> Timestamp m <= Timestamp cn).
  { intros m Hm.
    assert (Hs : StronglySorted canonical_le nodes).
    { rewrite Hlist. unfold nodeSequenceWithoutState.
      apply sequence_of_entries_indexed. }
    apply last_Some in Hlast as [l' Hl']. rewrite Hl' in Hs, Hm.
    apply elem_of_app in Hm as [Hm | Hm].
    - clear Hl'. induction l' as [|x l' IH]; [apply elem_of_nil in Hm; tauto|].
      simpl in Hs. apply StronglySorted_inv in Hs as [Hs Hx].
      apply elem_of_cons in Hm as [-> | Hm].
      + apply canonical_le_timestamps. rewrite Forall_forall in Hx.
        apply Hx. apply elem_of_app. right. constructor.
      + apply IH; assumption.
    - apply list_elem_of_singleton in Hm as ->. lia. }
  split_and!; try assumption; try reflexivity.
  - intros m Hm Hlt.
    pose proof (nodeSequenceWithoutState_complete node T m Hsorted Hm Hlt)
      as Hid.
    rewrite <- Hlist in Hid.
    apply list_elem_of_fmap in Hid as (e & Hide & He).
    pose proof (Hmax e He) as Hle.
    rewrite Hlist in He.
    destruct (nodeSequenceWithoutState_member node T false e Hsorted He)
      as (n & _ & Hsame & _ & _ & Hlatest).
    destruct Hsame as (_ & _ & _ & _ & Hts & _).
    specialize (Hlatest m Hm Hide Hlt). lia.
  - rewrite Hlist in Hin.
    destruct (nodeSequenceWithoutState_member node T false cn Hsorted Hin)
      as (n & _ & Hsame & Hlt & _).
    destruct Hsame as (_ & _ & _ & _ & Hts & _). lia.
  - unfold GetAcceptedOrPledgingNode. fold nodes.
    apply find_by_id.
    + rewrite Hlist. apply nodeSequenceWithoutState_distinct.
    + split_and!; [exact Hin | reflexivity |].
      rewrite (bool_decide_eq_true_2 (State cn = Pledging)) by exact Hst.
      apply orb_true_r.
Qed.

(** X19.  On a loaded registry [ReadAllNodesWithoutState] lists no id twice
    and lists exactly the ids that have a record in the registry older than
    the clock reading, whatever the state of the node. *)
Theorem ReadAllNodesWithoutState_ids (node : Node) (nowNano : Z) :
  node_loaded node -> U64.ok nowNano ->
  NoDup (ReadAllNodesWithoutState node nowNano)
  /\ forall id, id ∈ ReadAllNodesWithoutState node nowNano
       <-> exists m, m ∈ allNodesSortedWithState node
                     /\ IdForNetwork m = id /\ Timestamp m < nowNano.
Proof.
  intros Hloaded HT.
  pose proof (loaded_sorted node Hloaded) as Hsorted.
  unfold ReadAllNodesWithoutState.
  rewrite NodesListWithoutState_loaded by assumption.
  split; [apply nodeSequenceWithoutState_distinct|].
  intros id. split.
  - intros Hid. apply list_elem_of_fmap in Hid as (e & -> & He).
    destruct (nodeSequenceWithoutState_member node nowNano false e Hsorted He)
      as (n & Hn & Hsame & Hlt & _).
    exists n. destruct Hsame as (Hid & _). split_and!; [exact Hn | | exact Hlt].
    symmetry. exact Hid.
  - intros (m & Hm & <- & Hlt).
    apply nodeSequenceWithoutState_complete; assumption.
Qed.

(** * Further properties of the peers read from the configuration *)

Lemma Split_at_nonempty (s : string) : Split_at s <> [].
Proof.
  induction s as [|c r IH]; simpl; [discriminate|].
  destruct (Ascii.eqb c "@"); [discriminate|].
  destruct (Split_at r); discriminate.
Qed.

Lemma Split_at_one (s : string) : forall a,
  Split_at s = [a] <-> s = a /\ has_at s = false.
Proof.
  induction s as [|c r IH]; intros a; simpl.
  - split; [intros [= <-]; split; reflexivity | intros [<- _]; reflexivity].
  - destruct (Ascii.eqb c "@") eqn:Hc; simpl.
    + split; [|intros [_ [=]]].
      intros [= _ Hr]. destruct (Split_at_nonempty r Hr).
    + destruct (Split_at r) as [|p ps] eqn:Hr;
        [destruct (Split_at_nonempty r Hr)|].
      split.
      * intros [= <- ->]. destruct (proj1 (IH p) eq_refl) as [-> Hno].
        split; [reflexivity | exact Hno].
      * intros [<- Hno].
        pose proof (proj2 (IH r) (conj eq_refl Hno)) as [= -> ->].
        reflexivity.
Qed.

(** [strings.Split] returns two pieces exactly for a string with a single
    separator, and the pieces are what stands before and after it. *)
Lemma Split_at_two (s : string) : forall a b,
  Split_at s = [a; b] <-> seed_parts s a b.
Proof.
  unfold seed_parts.
  induction s as [|c r IH]; intros a b; simpl.
  - split; [discriminate|]. intros [Hs _]. destruct a; discriminate.
  - destruct (Ascii.eqb_spec c "@") as [-> | Hc].
    + split.
      * intros [= <- Hr]. apply Split_at_one in Hr as [-> Hno].
        split_and!; [reflexivity | reflexivity | exact Hno].
      * intros (Hs & Ha & Hb). destruct a as [|c' a'].
        -- simpl in Hs. injection Hs as ->.
           rewrite (proj2 (Split_at_one b b) (conj eq_refl Hb)). reflexivity.
        -- simpl in Hs. injection Hs as <- _. simpl in Ha. discriminate.
    + destruct (Split_at r) as [|p ps] eqn:Hr;
        [destruct (Split_at_nonempty r Hr)|].
      split.
      * intros [= <- ->]. destruct (proj1 (IH p b) eq_refl) as (-> & Hp & Hb).
        split_and!; [reflexivity | | exact Hb].
        simpl. rewrite Hp. destruct (Ascii.eqb_spec c "@"); [contradiction|].
        reflexivity.
      * intros (Hs & Ha & Hb). destruct a as [|c' a'].
        -- simpl in Hs. injection Hs as -> _. contradiction.
        -- simpl in Hs. injection Hs as <- ->. simpl in Ha.
           apply orb_false_iff in Ha as [_ Ha].
           pose proof (proj2 (IH a' b) (conj eq_refl (conj Ha Hb)))
             as [= -> ->].
           reflexivity.
Qed.

Lemma connect_seeds_read (hfs : string -> option Hash) (self : Hash)
    (tail : list string) (good : list string) (peers : list (Hash * string)) :
  Forall2 (seed_reads hfs) good peers ->
  forall started,
    connect_seeds hfs self (good ++ tail) started
    = connect_seeds hfs self tail (started ++ other_peers self peers).
Proof.
  induction 1 as [|s [nid addr] good peers (id & Hparts & Hid) _ IH];
    intros started; simpl.
  - rewrite app_nil_r. reflexivity.
  - simpl in Hparts, Hid. apply Split_at_two in Hparts. rewrite Hparts, Hid.
    case_bool_decide as Hself; simpl.
    + apply IH.
    + rewrite IH, <- app_assoc. reflexivity.
Qed.

Lemma connect_seeds_error (hfs : string -> option Hash) (self : Hash)
    (bad : string) (rest : list string) (e : RelayerError)
    (started : list (Hash * string)) :
  seed_error hfs bad e ->
  connect_seeds hfs self (bad :: rest) started = (started, Some e).
Proof.
  intros [[Hnone ->] | (id & addr & Hparts & Hid & ->)]; simpl.
  - destruct (Split_at bad) as [|a [|b [|c l]]] eqn:Hs; try reflexivity.
    apply Split_at_two in Hs. destruct (Hnone a b Hs).
  - apply Split_at_two in Hparts. rewrite Hparts, Hid. reflexivity.
Qed.

(** X20.  [addRelayersFromConfig] reads a seed [id@addr] with a single
    separator and an id [HashFromString] accepts.  When it can read every
    seed it returns no error and has started one connection for each seed
    whose id is not the node's own, in the order of the seeds.  At the first
    seed it cannot read it returns the error for that seed (invalid peer
    when the seed does not have exactly one separator, invalid peer id when
    the id is not a hash): the connections of the seeds before it have been
    started and the seeds after it are not looked at.  It never connects to
    the node's own id, and every seed is either read or has an error. *)
Theorem addRelayersFromConfig_seeds (HashFromString : string -> option Hash)
    (node : Node) (good : list string) (peers : list (Hash * string)) :
  Forall2 (seed_reads HashFromString) good peers ->
  let self := nodeIdForNetwork node in
  addRelayersFromConfig HashFromString node good
  = (other_peers self peers, None)
  /\ (forall bad rest e,
        seed_error HashFromString bad e ->
        addRelayersFromConfig HashFromString node (good ++ bad :: rest)
        = (other_peers self peers, Some e))
  /\ Forall (fun p => p.1 <> self) (other_peers self peers)
  /\ (forall s, (exists peer, seed_reads HashFromString s peer)
                \/ (exists e, seed_error HashFromString s e)).
Proof.
  intros Hgood self. unfold addRelayersFromConfig. fold self. split_and!.
  - rewrite <- (app_nil_r good) at 1.
    rewrite (connect_seeds_read _ self [] good peers Hgood). reflexivity.
  - intros bad rest e He.
    rewrite (connect_seeds_read _ self (bad :: rest) good peers Hgood).
    apply connect_seeds_error. exact He.
  - unfold other_peers. apply Forall_forall. intros p Hp.
    apply list_elem_of_In, filter_In in Hp as [_ Hp].
    apply negb_true_iff, bool_decide_eq_false in Hp. exact Hp.
  - intros s. destruct (Split_at s) as [|a [|b [|c l]]] eqn:Hs.
    + destruct (Split_at_nonempty s Hs).
    + right. exists (InvalidPeer s). left. split; [|reflexivity].
      intros id addr Hparts. apply Split_at_two in Hparts. congruence.
    + apply Split_at_two in Hs.
      destruct (HashFromString a) as [nid|] eqn:Hid.
      * left. exists (nid, b), a. split; assumption.
      * right. exists (InvalidPeerId s). right. exists a, b.
        split_and!; [assumption | assumption | reflexivity].
    + right. exists (InvalidPeer s). left. split; [|reflexivity].
      intros id addr Hparts. apply Split_at_two in Hparts. congruence.
Qed.

Lemma ping_neighbors_filter (listener : string) (neighbors : list string) :
  forall pinged,
    ping_neighbors listener neighbors pinged
    = pinged ++ List.filter (fun s => negb (String.eqb s listener)) neighbors.
Proof.
  induction neighbors as [|s rest IH]; intros pinged; simpl.
  - rewrite app_nil_r. reflexivity.
  - destruct (String.eqb s listener); simpl; rewrite IH; [reflexivity|].
    rewrite <- app_assoc. reflexivity.
Qed.

(** X21.  The loop of [UpdateNeighbors] and [PingNeighborsFromConfig] never
    pings the node's own listener address; every other address is pinged as
    many times as the list names it, and the pings are made in the order of
    the list. *)
Theorem UpdateNeighbors_pings (node : Node) (neighbors : list string) :
  let pings := UpdateNeighbors node neighbors in
  (Listener node ∉ pings)
  /\ (forall s, s <> Listener node ->
        count_occ string_dec pings s = count_occ string_dec neighbors s)
  /\ sublist pings neighbors.
Proof.
  intros pings. unfold pings, UpdateNeighbors.
  rewrite ping_neighbors_filter. simpl. split_and!.
  - intros Hin. apply list_elem_of_In, filter_In in Hin as [_ Hne].
    rewrite String.eqb_refl in Hne. discriminate.
  - intros s Hs. induction neighbors as [|n rest IH]; simpl; [reflexivity|].
    destruct (String.eqb_spec n (Listener node)) as [-> | Hn]; simpl.
    + destruct (string_dec (Listener node) s); [congruence | exact IH].
    + destruct (string_dec n s); rewrite IH; reflexivity.
  - induction neighbors as [|n rest IH]; simpl; [constructor|].
    destruct (String.eqb n (Listener node)); simpl;
      [apply sublist_cons | apply sublist_skip]; exact IH.
Qed.

(** * Further properties of the legacy sync points *)

Lemma copy_list_to_map {V} (l : list (Hash * V)) :
  foldl (fun (c : gmap Hash V) kv => <[kv.1 := kv.2]> c) ∅ l
  = list_to_map (rev l).
Proof.
  induction l as [|x l IH] using rev_ind; [reflexivity|].
  rewrite foldl_app, rev_app_distr, IH. simpl. destruct x as [k v].
  reflexivity.
Qed.

Lemma legacySyncMap_Map_same (m : gmap Hash (option LegacySyncPoint)) :
  legacySyncMap_Map m = m.
Proof.
  unfold legacySyncMap_Map. rewrite copy_list_to_map.
  transitivity
    (list_to_map (map_to_list m) : gmap Hash (option LegacySyncPoint));
    [|apply list_to_map_to_list].
  apply list_to_map_proper.
  - rewrite <- Permutation_rev. apply NoDup_fst_map_to_list.
  - rewrite <- Permutation_rev. reflexivity.
Qed.

Lemma update_legacy_points_as (self peerId : Hash)
    (points : list (option LegacySyncPoint)) :
  forall m,
    (as_sync_points <$> update_legacy_points self peerId m points)
    = update_points self peerId (as_sync_points m)
        ((fun p : option LegacySyncPoint => as_sync_point <$> p) <$> points).
Proof.
  induction points as [|[p|] rest IH]; intros m; simpl;
    [reflexivity | | reflexivity].
  rewrite IH. f_equal. case_bool_decide; [|reflexivity].
  unfold legacySyncMap_Set, syncMap_Set, as_sync_points.
  rewrite fmap_insert. reflexivity.
Qed.

(** X22.  [UpdateLegacySyncPoint] is [UpdateSyncPoint] on the legacy sync
    points: read as sync points of the current transport, the content it
    leaves in the map and the snapshot it publishes are those
    [UpdateSyncPoint] computes from the same reports, and it panics on the
    same reports; the snapshot equals the map. *)
Theorem UpdateLegacySyncPoint_same (node : Node)
    (legacyPoints : gmap Hash (option LegacySyncPoint)) (peerId : Hash)
    (points : list (option LegacySyncPoint)) :
  ((fun r => (as_sync_points r.1, as_sync_points r.2))
     <$> UpdateLegacySyncPoint node legacyPoints peerId points)
  = ((fun r => (r.1, SyncPointsMap r.2))
     <$> UpdateSyncPoint node (as_sync_points legacyPoints) peerId
           ((fun p : option LegacySyncPoint => as_sync_point <$> p)
              <$> points))
  /\ (forall m snapshot,
        UpdateLegacySyncPoint node legacyPoints peerId points
        = Some (m, snapshot) ->
        snapshot = m).
Proof.
  unfold UpdateLegacySyncPoint, UpdateSyncPoint. split.
  - rewrite <- update_legacy_points_as.
    destruct (update_legacy_points (nodeIdForNetwork node) peerId
                legacyPoints points) as [m|]; simpl; [|reflexivity].
    rewrite legacySyncMap_Map_same, syncMap_Map_same. reflexivity.
  - intros m snapshot.
    destruct (update_legacy_points (nodeIdForNetwork node) peerId
                legacyPoints points) as [m'|]; [|discriminate].
    intros [= <- <-]. apply legacySyncMap_Map_same.
Qed.

(** * The further properties on the sample data *)

Lemma sample_network_loaded : node_loaded sample_network.
Proof.
  split.
  - repeat constructor; simpl; lia.
  - repeat constructor; simpl; unfold U64.modulus; lia.
  - vm_compute. reflexivity.
  - vm_compute. reflexivity.
Qed.

Lemma sample_now_nano_ok : U64.ok sample_now_nano.
Proof. unfold U64.ok, U64.modulus, sample_now_nano. lia. Qed.

Lemma sample_chains_keyed : chains_keyed sample_chains.
Proof.
  intros k c Hl. unfold sample_chains in Hl.
  apply lookup_insert_Some in Hl as [[<- <-] | [_ Hl]]; [reflexivity|].
  apply lookup_insert_Some in Hl as [[<- <-] | [_ Hl]]; [reflexivity|].
  rewrite lookup_empty in Hl. discriminate.
Qed.

Lemma sample_seeds_read :
  Forall2 (seed_reads sample_HashFromString) sample_seeds sample_peers.
Proof.
  repeat constructor.
  - exists "self"%string. repeat split.
  - exists "peer"%string. repeat split.
Qed.

Lemma LoadConsensusNodes_index_witness :
  StronglySorted canonical_le
    (allNodesSortedWithState
       (LoadConsensusNodes sample_idFor sample_readAllNodes sample_verifier
          sample_now_nano))
  /\ NodesListWithoutState
       (LoadConsensusNodes sample_idFor sample_readAllNodes sample_verifier
          sample_now_nano) 25 false
     = nodeSequenceWithoutState
         (LoadConsensusNodes sample_idFor sample_readAllNodes sample_verifier
            sample_now_nano) 25 false.
Proof.
  pose proof (LoadConsensusNodes_index sample_idFor sample_readAllNodes
                sample_verifier sample_now_nano 25 false) as H.
  cbv zeta in H.
  destruct H as (_ & Hsorted & Hlist & _).
  - repeat constructor; simpl; unfold U64.modulus; lia.
  - unfold U64.ok, U64.modulus. lia.
  - split; assumption.
Defined.

Lemma nodeSequenceWithoutState_latest_witness :
  NoDup (map IdForNetwork (nodeSequenceWithoutState node_with_removed 5 false)).
Proof.
  pose proof (nodeSequenceWithoutState_latest node_with_removed 5 false) as H.
  cbv zeta in H. destruct H as (Hnd & _).
  - repeat constructor; simpl; lia.
  - exact Hnd.
Defined.

Lemma ConsensusThreshold_quorum_witness :
  ConsensusThreshold sample_config sample_network sample_now_nano false
  = Some 6
  /\ ConsensusThreshold sample_config sample_small_network sample_now_nano
       false = Some 1000.
Proof.
  pose proof (ConsensusThreshold_quorum sample_config sample_network
                sample_now_nano false sample_config_sane) as H.
  pose proof (ConsensusThreshold_quorum sample_config sample_small_network
                sample_now_nano false sample_config_sane) as Hsmall.
  cbv zeta in H, Hsmall.
  destruct H as (_ & _ & H & _). destruct Hsmall as (_ & Hsmall & _).
  split.
  - destruct H as (q & Hq & Hbounds & _); [vm_compute; discriminate|].
    rewrite Hq. f_equal.
    assert (Hbase : count_nodes
                      (counted sample_config sample_network sample_now_nano
                         false)
                      (NodesListWithoutState sample_network sample_now_nano
                         false) = 8) by (vm_compute; reflexivity).
    rewrite Hbase in Hbounds. lia.
  - apply Hsmall. vm_compute. reflexivity.
Defined.

Lemma ConsensusThreshold_final_base_witness :
  ConsensusThreshold sample_config sample_network sample_now_nano true
  = Some 5
  /\ ConsensusThreshold sample_config sample_network sample_now_nano false
     = Some 6.
Proof.
  pose proof (ConsensusThreshold_final_base sample_config sample_network
                sample_now_nano sample_config_sane) as H.
  cbv zeta in H. destruct H as (Hfinal & Hall & _).
  rewrite Hfinal, Hall. split; vm_compute; reflexivity.
Defined.

Lemma ConsensusReady_counted_witness :
  threshold_step sample_config sample_network sample_now_nano false 0
    (sample_cnode x01 1 Accepted) = Some (0 + 1).
Proof.
  apply ConsensusReady_counted.
  - exact sample_config_sane.
  - simpl. lia.
  - vm_compute. reflexivity.
  - vm_compute. reflexivity.
Defined.

Lemma checks_need_reachable_threshold_witness :
  CheckBroadcastedToP2PPeers sample_config sample_small_network
    (frozen_clock sample_now_nano) = Some false
  /\ CheckCatchUpWithP2PPeers sample_config sample_small_network
       (frozen_clock sample_now_nano) = Some false.
Proof.
  apply (checks_need_reachable_threshold sample_config sample_small_network
           (frozen_clock sample_now_nano) 1000).
  - vm_compute. reflexivity.
  - vm_compute. reflexivity.
Defined.

Lemma CheckCatchUpWithP2PPeers_true_witness :
  exists st threshold,
    ChainStateOf (chain sample_network) = Some st
    /\ ConsensusThreshold sample_config sample_network sample_now_nano false
       = Some threshold
    /\ threshold
       <= 1 + Z.of_nat (length (NodesListWithoutState sample_network
                                  sample_now_nano true)).
Proof.
  destruct (CheckCatchUpWithP2PPeers_true sample_config sample_network
              (frozen_clock sample_now_nano))
    as (st & threshold & Hst & Hthr & Hle & _).
  - exact sample_sync_points_ok.
  - intros st [= <-]. simpl. unfold U64.ok, U64.modulus. lia.
  - vm_compute. reflexivity.
  - exists st, threshold. split_and!; assumption.
Defined.

Lemma BuildGraph_UpdateSyncPoint_witness :
  UpdateSyncPoint sample_network ∅ (sample_hash x01)
    (Some <$> BuildGraph sample_chains)
  = Some (<[sample_hash x01 :=
              Some (mkSyncPoint (sample_hash x00) (sample_hash x63) 100
                      (<["index" := 5]> (<["count" := 9]> ∅)))]> ∅,
          set_SyncPointsMap sample_network
            (<[sample_hash x01 :=
                 Some (mkSyncPoint (sample_hash x00) (sample_hash x63) 100
                         (<["index" := 5]> (<["count" := 9]> ∅)))]> ∅)).
Proof.
  pose proof (BuildGraph_UpdateSyncPoint sample_network ∅ (sample_hash x01)
                sample_chains (map_to_list sample_chains).*2
                sample_chains_keyed (reflexivity _)) as H.
  cbv zeta in H. destruct H as (_ & _ & _ & _ & H).
  unfold BuildGraph. rewrite H.
  change (nodeIdForNetwork sample_network) with (sample_hash x00).
  unfold sample_chains. rewrite lookup_insert_eq. reflexivity.
Defined.

Lemma Authenticate_built_message_witness :
  @Authenticate toy_crypto sample_verifier sample_now sample_now_nano
    (@BuildLegacyAuthenticationMessage toy_crypto sample_auth_node
       (sample_now - 3))
  = inr (nodeIdForNetwork sample_auth_node, Listener sample_auth_node).
Proof.
  apply (@Authenticate_built_message toy_crypto toy_crypto_laws).
  - exact sample_signer_configured.
  - reflexivity.
  - reflexivity.
  - intros Heq. vm_compute in Heq. discriminate Heq.
  - unfold sample_now, I64.half. lia.
  - vm_compute. reflexivity.
  - intros p Hp. vm_compute in Hp. discriminate Hp.
Defined.

Lemma AuthenticateAs_token_witness :
  length (@BuildAuthenticationMessage toy_crypto sample_auth_node
            (sample_now - 3) (sample_hash x09)) = 137%nat
  /\ Z.abs (sample_now - (sample_now - 3)) <= 10.
Proof.
  pose proof (@AuthenticateAs_token toy_crypto sample_auth_node sample_now
                (sample_hash x09)
                (@BuildAuthenticationMessage toy_crypto sample_auth_node
                   (sample_now - 3) (sample_hash x09))
                10
                (mkAuthToken (nodeIdForNetwork sample_auth_node)
                   (sample_now - 3) (isRelayer sample_auth_node)
                   (@BuildAuthenticationMessage toy_crypto sample_auth_node
                      (sample_now - 3) (sample_hash x09)))) as H.
  cbv zeta in H.
  destruct H as (Hlen & _ & _ & _ & _ & _ & _ & _ & _ & Hclose).
  - vm_compute. reflexivity.
  - split; [exact Hlen|]. apply Hclose; unfold sample_now; lia.
Defined.

Lemma Authenticate_success_witness :
  nodeIdForNetwork sample_auth_node <> nodeIdForNetwork sample_verifier
  /\ sample_now - (sample_now - 3) <= 3.
Proof.
  pose proof (@Authenticate_success toy_crypto sample_verifier sample_now
                sample_now_nano
                (@BuildLegacyAuthenticationMessage toy_crypto
                   sample_auth_node (sample_now - 3))
                (nodeIdForNetwork sample_auth_node)
                (Listener sample_auth_node)) as H.
  cbv zeta in H.
  destruct H as (_ & _ & Hother & _ & _ & _ & Hrecent).
  - vm_compute. reflexivity.
  - split; [exact Hother|].
    assert (Hts : @Uint64 (slice 0 8
                     (@BuildLegacyAuthenticationMessage toy_crypto
                        sample_auth_node (sample_now - 3)))
                  = sample_now - 3) by (vm_compute; reflexivity).
    rewrite Hts in Hrecent.
    apply Hrecent; unfold sample_now, I64.half; lia.
Defined.

Lemma registry_lookups_witness :
  GetRemovedOrCancelledNode sample_network (sample_hash x08) sample_now_nano
  = None.
Proof.
  pose proof (registry_lookups sample_network sample_now_nano
                (sample_hash x08) sample_network_loaded sample_now_nano_ok)
    as H.
  cbv zeta in H. destruct H as (_ & _ & H). apply H.
  vm_compute. eexists. reflexivity.
Defined.

Lemma PledgingNode_latest_witness :
  State (sample_cnode x08 100 Pledging) = Pledging
  /\ GetAcceptedOrPledgingNode sample_network sample_now_nano
       (sample_hash x08)
     = Some (mkCNode (sample_hash x08) (sample_address x08)
               (sample_address x08) (sample_hash x08) 100 Pledging 7).
Proof.
  pose proof (PledgingNode_latest sample_network sample_now_nano
                (mkCNode (sample_hash x08) (sample_address x08)
                   (sample_address x08) (sample_hash x08) 100 Pledging 7)
                sample_network_loaded sample_now_nano_ok) as H.
  cbv zeta in H.
  destruct H as (Hst & _ & _ & _ & _ & Hfound).
  - vm_compute. reflexivity.
  - split; [reflexivity | exact Hfound].
Defined.

Lemma ReadAllNodesWithoutState_ids_witness :
  NoDup (ReadAllNodesWithoutState sample_network sample_now_nano).
Proof.
  exact (proj1 (ReadAllNodesWithoutState_ids sample_network sample_now_nano
                  sample_network_loaded sample_now_nano_ok)).
Defined.

Lemma addRelayersFromConfig_seeds_witness :
  addRelayersFromConfig sample_HashFromString sample_network sample_seeds
  = ([(sample_hash x01, "10.0.0.2:7239"%string)], None).
Proof.
  pose proof (addRelayersFromConfig_seeds sample_HashFromString
                sample_network sample_seeds sample_peers sample_seeds_read)
    as H.
  cbv zeta in H. destruct H as (H & _). rewrite H.
  vm_compute. reflexivity.
Defined.
